(** * Raytracing: a shallow embedding of the renderer core

    The C++ sources embedded here are

    - [appsrc/include/Math/vec3.h], [appsrc/src/Math/vec3.cpp]   (Vec3)
    - [appsrc/src/Math/ray.cpp]                                  (Ray)
    - [appsrc/include/Math/hittable.h]                           (HitRecord)
    - [appsrc/src/Math/sphere.cpp]                               (Sphere::Hit)
    - [appsrc/src/Math/hittablelist.cpp]                         (HittableList::Hit)
    - [appsrc/include/Math/material.h]                           (materials)
    - [appsrc/src/Math/camera.cpp]                               (Camera::GetRay)
    - [appsrc/include/Math/performance.h]                        (RenderTile, create_tiles)
    - [main.cpp], the legacy renderer                            (Color)
    - [main_optimized.cpp]       (ColorOptimized, render_tile_optimized)
    - [main_interactive.cpp]     (FastRandom, render_tile_progressive)

    Numbers.  A C++ [float] is an IEEE-754 binary32 value.  It is modelled
    by [spec_float] of the standard library's [SpecFloat] (the executable
    specification of IEEE-754 arithmetic with round-to-nearest-even) at
    precision 24 and maximal exponent 128, every C++ operation being one
    correctly rounded operation (no contraction into fused multiply-add,
    no excess precision).  A [double] is the same at precision 53 and
    exponent 1024.  An [int] is a [Z]; signed overflow is undefined in
    C++ and is not given a meaning here.  [uint32_t] is a [Z] reduced
    modulo 2^32. *)

From Stdlib Require Import ZArith Bool Lia.
From Stdlib Require Import Floats.SpecFloat.
From stdpp Require Import base list.

Set Warnings "-register-all".
Open Scope Z_scope.

(** ** binary32 and binary64 arithmetic *)

Definition float : Type := spec_float.
Definition double : Type := spec_float.

Module F32.
Definition prec : Z := 24.
Definition emax : Z := 128.

Definition add : float -> float -> float := SFadd prec emax.
Definition sub : float -> float -> float := SFsub prec emax.
Definition mul : float -> float -> float := SFmul prec emax.
Definition div : float -> float -> float := SFdiv prec emax.
Definition sqrtf : float -> float := SFsqrt prec emax.
Definition neg : float -> float := SFopp.

Definition ltb : float -> float -> bool := SFltb.
Definition leb : float -> float -> bool := SFleb.
Definition eqb : float -> float -> bool := SFeqb.

(** Conversion of an integer, rounding to nearest even. *)
Definition of_Z (z : Z) : float := binary_normalize prec emax z 0 false.

(** Conversion of a value given in another format, rounding to nearest. *)
Definition round (x : spec_float) : float :=
  match x with
  | S754_finite s m e => binary_round prec emax s m e
  | _ => x
  end.

Definition is_nan (x : float) : bool :=
  match x with S754_nan => true | _ => false end.

Definition is_finite (x : float) : bool :=
  match x with S754_zero _ | S754_finite _ _ _ => true | _ => false end.

Definition zero : float := S754_zero false.
Definition one : float := of_Z 1.
Definition FLT_MAX : float := SFmax_float prec emax.
End F32.

Module F64.
Definition prec : Z := 53.
Definition emax : Z := 1024.

Definition add : double -> double -> double := SFadd prec emax.
Definition sub : double -> double -> double := SFsub prec emax.
Definition mul : double -> double -> double := SFmul prec emax.
Definition div : double -> double -> double := SFdiv prec emax.
Definition ltb : double -> double -> bool := SFltb.

Definition of_Z (z : Z) : double := binary_normalize prec emax z 0 false.

(** Widening of a binary32 value: exact. *)
Definition of_float (x : float) : double :=
  match x with
  | S754_finite s m e => binary_round prec emax s m e
  | _ => x
  end.
End F64.

Declare Scope f32_scope.
Delimit Scope f32_scope with f32.
Bind Scope f32_scope with float.

Notation "x + y" := (F32.add x y) : f32_scope.
Notation "x - y" := (F32.sub x y) : f32_scope.
Notation "x * y" := (F32.mul x y) : f32_scope.
Notation "x / y" := (F32.div x y) : f32_scope.
Notation "- x" := (F32.neg x) : f32_scope.
Notation "x <? y" := (F32.ltb x y) : f32_scope.
Notation "x >? y" := (F32.ltb y x) : f32_scope.
Notation "x <=? y" := (F32.leb x y) : f32_scope.

(** The literals of the sources.  A decimal literal is the binary32 value
    nearest to it; for these it is the correctly rounded quotient of two
    small integers. *)
Definition f0_0 : float := F32.zero.
Definition f1_0 : float := F32.one.
Definition f2_0 : float := F32.of_Z 2.
Definition f0_5 : float := (F32.of_Z 1 / F32.of_Z 2)%f32.
Definition f0_7 : float := (F32.of_Z 7 / F32.of_Z 10)%f32.
Definition f0_001 : float := (F32.of_Z 1 / F32.of_Z 1000)%f32.

(** ** Vec3 (vec3.h, vec3.cpp) *)

Record Vec3 : Type := mkVec3 { GetX : float; GetY : float; GetZ : float }.

(** [operator+(Vec3, Vec3)] and the other component-wise operators. *)
Definition vadd (a b : Vec3) : Vec3 :=
  mkVec3 (GetX a + GetX b) (GetY a + GetY b) (GetZ a + GetZ b)%f32.
Definition vsub (a b : Vec3) : Vec3 :=
  mkVec3 (GetX a - GetX b) (GetY a - GetY b) (GetZ a - GetZ b)%f32.
Definition vmul (a b : Vec3) : Vec3 :=
  mkVec3 (GetX a * GetX b) (GetY a * GetY b) (GetZ a * GetZ b)%f32.
(** [Vec3::operator-()] *)
Definition vneg (a : Vec3) : Vec3 :=
  mkVec3 (- GetX a) (- GetY a) (- GetZ a)%f32.
(** [operator*(float, Vec3)], [operator*(Vec3, float)], [operator/(Vec3, float)] *)
Definition smul (k : float) (a : Vec3) : Vec3 :=
  mkVec3 (k * GetX a) (k * GetY a) (k * GetZ a)%f32.
Definition vmuls (a : Vec3) (k : float) : Vec3 :=
  mkVec3 (GetX a * k) (GetY a * k) (GetZ a * k)%f32.
Definition vdivs (a : Vec3) (k : float) : Vec3 :=
  mkVec3 (GetX a / k) (GetY a / k) (GetZ a / k)%f32.

(** [Vec3::operator/=(float)] multiplies by the rounded reciprocal. *)
Definition vdivs_assign (a : Vec3) (d : float) : Vec3 :=
  let _k := (f1_0 / d)%f32 in
  mkVec3 (GetX a * _k) (GetY a * _k) (GetZ a * _k)%f32.

Definition Dot (a b : Vec3) : float :=
  ((GetX a * GetX b) + (GetY a * GetY b) + (GetZ a * GetZ b))%f32.

Definition Cross (a b : Vec3) : Vec3 :=
  mkVec3 (GetY a * GetZ b - GetZ a * GetY b)%f32
         (- (GetX a * GetZ b - GetZ a * GetX b))%f32
         (GetX a * GetY b - GetY a * GetX b)%f32.

Definition Length (a : Vec3) : float :=
  F32.sqrtf (GetX a * GetX a + GetY a * GetY a + GetZ a * GetZ a)%f32.

Definition SquaredLength (a : Vec3) : float :=
  (GetX a * GetX a + GetY a * GetY a + GetZ a * GetZ a)%f32.

Definition Unit_Vector (a : Vec3) : Vec3 := vdivs a (Length a).

Declare Scope vec3_scope.
Delimit Scope vec3_scope with v3.
Bind Scope vec3_scope with Vec3.
Notation "a + b" := (vadd a b) : vec3_scope.
Notation "a - b" := (vsub a b) : vec3_scope.
Notation "a * b" := (vmul a b) : vec3_scope.
Notation "- a" := (vneg a) : vec3_scope.
Notation "k *^ a" := (smul k a) (at level 40, left associativity) : vec3_scope.
Notation "a /^ k" := (vdivs a k) (at level 40, left associativity) : vec3_scope.

(** ** Ray (ray.h, ray.cpp) *)

Record Ray : Type := mkRay { Origin : Vec3; Direction : Vec3 }.

Definition PointAtParamenter (r : Ray) (a_fT : float) : Vec3 :=
  (Origin r + a_fT *^ Direction r)%v3.

(** ** Materials: the data (material.h)

    [Material] is an abstract class with the three subclasses below; a
    [Material*] is modelled by the value it points to. *)

Inductive Material : Type :=
| Lambertian (m_oAlbedo : Vec3)
| MetalData (m_oAlbedo : Vec3) (m_fFuzz : float)
| Dielectric (m_fRefIdx : float).

(** [Metal::Metal(const Vec3&, float)].  The comparison [a_fFuzz < 1]
    converts the integer literal to [1.0f]. *)
Definition Metal (a_oVecIn : Vec3) (a_fFuzz : float) : Material :=
  MetalData a_oVecIn (if (a_fFuzz <? F32.of_Z 1)%f32 then a_fFuzz else f1_0).

Definition Metal_fuzz (m : Material) : option float :=
  match m with MetalData _ f => Some f | _ => None end.

(** ** HitRecord and Sphere (hittable.h, sphere.h, sphere.cpp) *)

Record HitRecord : Type := mkHitRecord {
  m_fT : float;
  m_oPoint : Vec3;
  m_oNormal : Vec3;
  m_oMaterial : Material
}.

(** The sphere's material field is [m_oMaterial] in the source; it is
    renamed because a record field name is global here. *)
Record Sphere : Type := mkSphere {
  m_oCenter : Vec3;
  m_fRadius : float;
  m_oSphereMaterial : Material
}.

(** The record written by [Sphere::Hit] for the root [_temp]. *)
Definition Sphere_record (s : Sphere) (a_oRay : Ray) (_temp : float) : HitRecord :=
  let _t := _temp in
  let _point := PointAtParamenter a_oRay _t in
  let _normal := ((_point - m_oCenter s) /^ m_fRadius s)%v3 in
  mkHitRecord _t _point _normal (m_oSphereMaterial s).

(** [Sphere::Hit].  The out-parameter [a_oRecord] is passed in and
    returned next to the boolean result. *)
Definition Sphere_Hit (s : Sphere) (a_oRay : Ray) (a_fTMin a_fTMax : float)
    (a_oRecord : HitRecord) : bool * HitRecord :=
  let _oc := (Origin a_oRay - m_oCenter s)%v3 in
  let _a := Dot (Direction a_oRay) (Direction a_oRay) in
  let _b := Dot _oc (Direction a_oRay) in
  let _c := (Dot _oc _oc - m_fRadius s * m_fRadius s)%f32 in
  let _desc := (_b * _b - _a * _c)%f32 in
  if (_desc >? f0_0)%f32 then
    let _temp := ((- _b - F32.sqrtf _desc) / _a)%f32 in
    if (_temp <? a_fTMax)%f32 && (_temp >? a_fTMin)%f32 then
      (true, Sphere_record s a_oRay _temp)
    else
      let _temp := ((- _b + F32.sqrtf _desc) / _a)%f32 in
      if (_temp <? a_fTMax)%f32 && (_temp >? a_fTMin)%f32 then
        (true, Sphere_record s a_oRay _temp)
      else (false, a_oRecord)
  else (false, a_oRecord).

(** ** Hittable and HittableList (hittable.h, hittablelist.cpp)

    [Hittable] is the abstract class; its subclasses in the core are
    [Sphere] and [HittableList].  The array [m_oList] together with its
    length [m_iListSize] is the list of its first [m_iListSize] members. *)

Inductive Hittable : Type :=
| HSphere (s : Sphere)
| HList (m_oList : list Hittable).

Section Hit.

(** The content of a local [HitRecord] that has not been assigned yet. *)
Variable uninit_rec : HitRecord.

(** The loop of [HittableList::Hit] over the members, [hit] being the
    virtual call [m_oList[i]->Hit].  [_closestSoFar] is a [double] in the
    source; it only ever holds a [float] value, which the conversion back
    to the [float] parameter of the member's [Hit] returns unchanged. *)
Definition HittableList_loop {A : Type}
    (hit : A -> Ray -> float -> float -> HitRecord -> bool * HitRecord)
    (a_oRay : Ray) (a_fTMin : float) :=
  fix loop (l : list A) (_tempRecord : HitRecord) (_hittedAnything : bool)
      (_closestSoFar : float) (a_oRecord : HitRecord) {struct l}
      : bool * HitRecord :=
    match l with
    | [] => (_hittedAnything, a_oRecord)
    | m :: l' =>
        let '(b, _tempRecord') := hit m a_oRay a_fTMin _closestSoFar _tempRecord in
        if b then loop l' _tempRecord' true (m_fT _tempRecord') _tempRecord'
        else loop l' _tempRecord' _hittedAnything _closestSoFar a_oRecord
    end.

Definition HittableList_Hit_with {A : Type}
    (hit : A -> Ray -> float -> float -> HitRecord -> bool * HitRecord)
    (m_oList : list A) (a_oRay : Ray) (a_fTMin a_fTMax : float)
    (a_oRecord : HitRecord) : bool * HitRecord :=
  HittableList_loop hit a_oRay a_fTMin m_oList uninit_rec false a_fTMax a_oRecord.

(** The virtual [Hit]. *)
Fixpoint Hit (h : Hittable) (a_oRay : Ray) (a_fTMin a_fTMax : float)
    (a_oRecord : HitRecord) {struct h} : bool * HitRecord :=
  match h with
  | HSphere s => Sphere_Hit s a_oRay a_fTMin a_fTMax a_oRecord
  | HList l => HittableList_Hit_with Hit l a_oRay a_fTMin a_fTMax a_oRecord
  end.

(** [HittableList::Hit] *)
Definition HittableList_Hit (m_oList : list Hittable) :=
  HittableList_Hit_with Hit m_oList.

End Hit.

(** ** Random numbers

    [FastRandom] (main_interactive.cpp) is a linear congruential generator
    on a thread-local [uint32_t]. *)

Definition FastRandom_random (state : Z) : float * Z :=
  let state' := (state * 1664525 + 1013904223) mod 2 ^ 32 in
  ((F32.of_Z (Z.shiftr state' 8) * (f1_0 / F32.of_Z 16777216))%f32, state').

(** The vector [Vec3(FastRandom::random(), FastRandom::random(),
    FastRandom::random())]; the three calls are taken left to right. *)
Definition FastRandom_vec3 (state : Z) : Vec3 * Z :=
  let '(x, s1) := FastRandom_random state in
  let '(y, s2) := FastRandom_random s1 in
  let '(z, s3) := FastRandom_random s2 in
  (mkVec3 x y z, s3).

Definition black : Vec3 := mkVec3 f0_0 f0_0 f0_0.
Definition white : Vec3 := mkVec3 f1_0 f1_0 f1_0.
Definition skyBlue : Vec3 := mkVec3 f0_5 f0_7 f1_0.

(** The sky gradient, the last statements of [Color] and [ColorOptimized]. *)
Definition sky (a_oRay : Ray) : Vec3 :=
  let _unitDir := Unit_Vector (Direction a_oRay) in
  let _t := (f0_5 * (GetY _unitDir + f1_0))%f32 in
  ((f1_0 - _t)%f32 *^ white + _t *^ skyBlue)%v3.

(** [Reflect], [Refract] (material.h).  [2 * Dot(...)] converts the
    integer literal to [2.0f].  [Refract] returns its out-parameter next
    to the boolean. *)
Definition Reflect (a_oVecIn a_oNormal : Vec3) : Vec3 :=
  (a_oVecIn - (F32.of_Z 2 * Dot a_oVecIn a_oNormal)%f32 *^ a_oNormal)%v3.

Definition Refract (a_oVecIn a_oNormal : Vec3) (a_fNiOverNt : float)
    (a_oRefracted : Vec3) : bool * Vec3 :=
  let _uv := Unit_Vector a_oVecIn in
  let _dt := Dot _uv a_oNormal in
  let _disc := (f1_0 - a_fNiOverNt * a_fNiOverNt * (f1_0 - _dt * _dt))%f32 in
  if (_disc >? F32.of_Z 0)%f32 then
    (true, (a_fNiOverNt *^ (_uv - vmuls a_oNormal _dt)
            - vmuls a_oNormal (F32.sqrtf _disc))%v3)
  else (false, a_oRefracted).

Section Renderer.

(** The C library: [std::rand] with its hidden state, [RAND_MAX], and
    [pow] on [double]. *)
Variable RandState : Type.
Variable std_rand : RandState -> Z * RandState.
Variable RAND_MAX : Z.
Variable c_pow : double -> double -> double.

(** The contents of locals that are read before being assigned. *)
Variable uninit_rec : HitRecord.
Variable uninit_vec : Vec3.

(** [std::rand() / (RAND_MAX + 1.0)], a [double]. *)
Definition rand01 (st : RandState) : double * RandState :=
  let '(n, st') := std_rand st in
  (F64.div (F64.of_Z n) (F64.add (F64.of_Z RAND_MAX) (F64.of_Z 1)), st').

(** [Schlick]: the sum and the product with [pow]'s result are computed
    in [double] and converted on return. *)
Definition Schlick (a_dCosine a_dRefIdx : float) : float :=
  let _r0 := ((f1_0 - a_dRefIdx) / (f1_0 + a_dRefIdx))%f32 in
  let _r0 := (_r0 * _r0)%f32 in
  F32.round
    (F64.add (F64.of_float _r0)
       (F64.mul (F64.of_float (f1_0 - _r0)%f32)
          (c_pow (F64.of_float (f1_0 - a_dCosine)%f32) (F64.of_Z 5)))).

(** [RandomInUnitSphere]: a rejection loop, bounded here by [fuel]. *)
Fixpoint RandomInUnitSphere (fuel : nat) (st : RandState) : option (Vec3 * RandState) :=
  match fuel with
  | O => None
  | S fuel' =>
      let '(x, st1) := rand01 st in
      let '(y, st2) := rand01 st1 in
      let '(z, st3) := rand01 st2 in
      let _p := (f2_0 *^ mkVec3 (F32.round x) (F32.round y) (F32.round z)
                 - mkVec3 f1_0 f1_0 f1_0)%v3 in
      if (f1_0 <=? SquaredLength _p)%f32 then RandomInUnitSphere fuel' st3
      else Some (_p, st3)
  end.

(** [Camera::RandomUnitInDisk] (camera.cpp) *)
Fixpoint RandomUnitInDisk (fuel : nat) (st : RandState) : option (Vec3 * RandState) :=
  match fuel with
  | O => None
  | S fuel' =>
      let '(x, st1) := rand01 st in
      let '(y, st2) := rand01 st1 in
      let _p := (f2_0 *^ mkVec3 (F32.round x) (F32.round y) f0_0
                 - mkVec3 f1_0 f1_0 f0_0)%v3 in
      if (f1_0 <=? Dot _p _p)%f32 then RandomUnitInDisk fuel' st2
      else Some (_p, st2)
  end.

(** The result of a virtual [Scatter]: the boolean and the two
    out-parameters. *)
Record Scattered : Type := mkScattered {
  scattered : bool;
  a_oAttenuation : Vec3;
  a_oScatterRay : Ray
}.

Definition Lambertian_Scatter (fuel : nat) (m_oAlbedo : Vec3) (a_oRayIn : Ray)
    (a_oRecord : HitRecord) (st : RandState) : option (Scattered * RandState) :=
  match RandomInUnitSphere fuel st with
  | None => None
  | Some (rnd, st') =>
      let _target := (m_oPoint a_oRecord + m_oNormal a_oRecord + rnd)%v3 in
      Some (mkScattered true m_oAlbedo
              (mkRay (m_oPoint a_oRecord) (_target - m_oPoint a_oRecord)%v3), st')
  end.

Definition Metal_Scatter (fuel : nat) (m_oAlbedo : Vec3) (m_fFuzz : float)
    (a_oRayIn : Ray) (a_oRecord : HitRecord) (st : RandState)
    : option (Scattered * RandState) :=
  let _reflected := Reflect (Unit_Vector (Direction a_oRayIn)) (m_oNormal a_oRecord) in
  match RandomInUnitSphere fuel st with
  | None => None
  | Some (rnd, st') =>
      let ray := mkRay (m_oPoint a_oRecord) (_reflected + m_fFuzz *^ rnd)%v3 in
      Some (mkScattered (Dot (Direction ray) (m_oNormal a_oRecord) >? F32.of_Z 0)%f32
              m_oAlbedo ray, st')
  end.

Definition Dielectric_Scatter (m_fRefIdx : float) (a_oRayIn : Ray)
    (a_oRecord : HitRecord) (st : RandState) : option (Scattered * RandState) :=
  let dir := Direction a_oRayIn in
  let n := m_oNormal a_oRecord in
  let _reflected := Reflect dir n in
  let '(_outwardNormal, _niOverNt, _cosine) :=
    if (Dot dir n >? F32.of_Z 0)%f32 then
      let _cosine := (Dot dir n / Length dir)%f32 in
      ((- n)%v3, m_fRefIdx,
       F32.sqrtf (f1_0 - m_fRefIdx * m_fRefIdx * (f1_0 - _cosine * _cosine))%f32)
    else
      (n, (f1_0 / m_fRefIdx)%f32, (- Dot dir n / Length dir)%f32) in
  let '(ok, _refracted) := Refract dir _outwardNormal _niOverNt uninit_vec in
  let _reflectProb := if ok then Schlick _cosine m_fRefIdx else f1_0 in
  let '(u, st') := rand01 st in
  let ray :=
    if F64.ltb u (F64.of_float _reflectProb)
    then mkRay (m_oPoint a_oRecord) _reflected
    else mkRay (m_oPoint a_oRecord) _refracted in
  Some (mkScattered true (mkVec3 f1_0 f1_0 f1_0) ray, st').

(** The virtual [Material::Scatter]. *)
Definition Scatter (fuel : nat) (m : Material) (a_oRayIn : Ray)
    (a_oRecord : HitRecord) (st : RandState) : option (Scattered * RandState) :=
  match m with
  | Lambertian albedo => Lambertian_Scatter fuel albedo a_oRayIn a_oRecord st
  | MetalData albedo fuzz => Metal_Scatter fuel albedo fuzz a_oRayIn a_oRecord st
  | Dielectric ref_idx => Dielectric_Scatter ref_idx a_oRayIn a_oRecord st
  end.

(** [Color] (main.cpp).  [fuel] bounds the recursion and the rejection
    loops of the materials; [None] is returned when it runs out. *)
Fixpoint Color (fuel : nat) (a_oRay : Ray) (a_oWorld : Hittable) (a_iDepth : Z)
    (st : RandState) {struct fuel} : option (Vec3 * RandState) :=
  match fuel with
  | O => None
  | S fuel' =>
      let '(hit, _record) :=
        Hit uninit_rec a_oWorld a_oRay f0_001 F32.FLT_MAX uninit_rec in
      if hit then
        if a_iDepth <? 50 then
          match Scatter fuel' (m_oMaterial _record) a_oRay _record st with
          | None => None
          | Some (sc, st') =>
              if scattered sc then
                match Color fuel' (a_oScatterRay sc) a_oWorld (a_iDepth + 1) st' with
                | None => None
                | Some (c, st'') => Some ((a_oAttenuation sc * c)%v3, st'')
                end
              else Some (black, st')
          end
        else Some (black, st)
      else Some (sky a_oRay, st)
  end.

End Renderer.

(** ** ColorOptimized (main_optimized.cpp, main_interactive.cpp)

    The recursion stops when [depth] reaches [max_depth]; [n] counts the
    levels that remain and is set by [ColorOptimized] below. *)

Section Optimized.

Variable uninit_rec : HitRecord.

Fixpoint ColorOptimized_rec (n : nat) (ray : Ray) (world : Hittable)
    (depth max_depth : Z) (st : Z) {struct n} : Vec3 * Z :=
  if depth >=? max_depth then (black, st)
  else
    match n with
    | O => (black, st)
    | S n' =>
        let '(hit, rec) := Hit uninit_rec world ray f0_001 F32.FLT_MAX uninit_rec in
        if hit then
          let '(rnd, st') := FastRandom_vec3 st in
          let target := (m_oPoint rec + m_oNormal rec + rnd)%v3 in
          let '(c, st'') :=
            ColorOptimized_rec n' (mkRay (m_oPoint rec) (target - m_oPoint rec)%v3)
              world (depth + 1) max_depth st' in
          ((f0_5 *^ c)%v3, st'')
        else (sky ray, st)
    end.

Definition ColorOptimized (ray : Ray) (world : Hittable) (depth max_depth : Z)
    (st : Z) : Vec3 * Z :=
  ColorOptimized_rec (Z.to_nat (max_depth - depth)) ray world depth max_depth st.

End Optimized.

(** ** Camera (camera.h, camera.cpp) *)

Record Camera : Type := mkCamera {
  m_oOrigin : Vec3;
  m_oLowerLeftCorner : Vec3;
  m_oHorizontal : Vec3;
  m_oVertical : Vec3;
  m_oU : Vec3;
  m_oV : Vec3;
  m_oW : Vec3;
  m_fLensRadius : float
}.

Section Camera.

Variable RandState : Type.
Variable std_rand : RandState -> Z * RandState.
Variable RAND_MAX : Z.

Definition GetRay (fuel : nat) (cam : Camera) (a_fU a_fV : float) (st : RandState)
    : option (Ray * RandState) :=
  match RandomUnitInDisk RandState std_rand RAND_MAX fuel st with
  | None => None
  | Some (disk, st') =>
      let _rd := (m_fLensRadius cam *^ disk)%v3 in
      let _offset := (vmuls (m_oU cam) (GetX _rd) + vmuls (m_oV cam) (GetY _rd))%v3 in
      Some (mkRay (m_oOrigin cam + _offset)%v3
              (m_oLowerLeftCorner cam + a_fU *^ m_oHorizontal cam
               + a_fV *^ m_oVertical cam - m_oOrigin cam - _offset)%v3, st')
  end.

End Camera.

(** ** Tiles (performance.h) *)

Record RenderTile : Type := mkRenderTile {
  x_start : Z;
  y_start : Z;
  width : Z;
  height : Z;
  samples_per_pixel : Z
}.

(** The inner loop of [create_tiles]: [for (x = ..; x < image_width;
    x += tile_size)].  [fuel] bounds the number of iterations; the loop
    does not end when it runs out ([None]). *)
Fixpoint create_tiles_row (fuel : nat) (image_width image_height samples tile_size : Z)
    (y x : Z) (tiles : list RenderTile) {struct fuel} : option (list RenderTile) :=
  if x <? image_width then
    match fuel with
    | O => None
    | S fuel' =>
        let tile_width := Z.min tile_size (image_width - x) in
        let tile_height := Z.min tile_size (image_height - y) in
        create_tiles_row fuel' image_width image_height samples tile_size y
          (x + tile_size) (tiles ++ [mkRenderTile x y tile_width tile_height samples])
    end
  else Some tiles.

(** The outer loop: [for (y = ..; y < image_height; y += tile_size)]. *)
Fixpoint create_tiles_rows (fuel : nat) (image_width image_height samples tile_size : Z)
    (y : Z) (tiles : list RenderTile) {struct fuel} : option (list RenderTile) :=
  if y <? image_height then
    match fuel with
    | O => None
    | S fuel' =>
        match create_tiles_row (Z.to_nat image_width) image_width image_height
                samples tile_size y 0 tiles with
        | None => None
        | Some tiles' =>
            create_tiles_rows fuel' image_width image_height samples tile_size
              (y + tile_size) tiles'
        end
    end
  else Some tiles.

(** [create_tiles].  With a positive [tile_size] a loop over [n] pixels
    makes at most [n] iterations, which is the fuel given. *)
Definition create_tiles (image_width image_height samples tile_size : Z)
    : option (list RenderTile) :=
  create_tiles_rows (Z.to_nat image_height) image_width image_height samples
    tile_size 0 [].

Definition in_tile (t : RenderTile) (px py : Z) : bool :=
  (x_start t <=? px) && (px <? x_start t + width t) &&
  (y_start t <=? py) && (py <? y_start t + height t).

Definition in_image (image_width image_height px py : Z) : bool :=
  (0 <=? px) && (px <? image_width) && (0 <=? py) && (py <? image_height).

(** ** The tile workers (main_optimized.cpp, main_interactive.cpp) *)

(** A [for] loop whose body may [return] from the enclosing function: the
    boolean tells whether it did. *)
Fixpoint for_each {A S : Type} (body : A -> S -> option (bool * S)) (l : list A)
    (st : S) {struct l} : option (bool * S) :=
  match l with
  | [] => Some (false, st)
  | a :: l' =>
      match body a st with
      | None => None
      | Some (true, st') => Some (true, st')
      | Some (false, st') => for_each body l' st'
      end
  end.

(** Gamma correction: [Vec3(sqrtf(col[0]), sqrtf(col[1]), sqrtf(col[2]))]. *)
Definition gamma (col : Vec3) : Vec3 :=
  mkVec3 (F32.sqrtf (GetX col)) (F32.sqrtf (GetY col)) (F32.sqrtf (GetZ col)).

(** [pixels[idx] = col] on a [std::vector]; an index outside the vector
    is undefined behaviour ([None]). *)
Definition store (pixels : list Vec3) (idx : Z) (col : Vec3) : option (list Vec3) :=
  if (0 <=? idx) && (idx <? Z.of_nat (length pixels))
  then Some (<[Z.to_nat idx := col]> pixels)
  else None.

(** The two atomic flags of [ProgressiveRenderer]. *)
Record Flags : Type := mkFlags { pause_rendering : bool; stop_rendering : bool }.

Section Workers.

Variable RandState : Type.
Variable std_rand : RandState -> Z * RandState.
Variable RAND_MAX : Z.
Variable uninit_rec : HitRecord.

(** The display ([InteractiveDisplay], display.cpp) is a collaborator of
    the worker; only its interface is used. *)
Variable Display : Type.
Variable UpdatePixel : Display -> Z -> Z -> Vec3 -> Display.

(** What the controller thread has written into the flags when the worker
    makes its [k]-th atomic load. *)
Variable control : nat -> Flags.

(** What a worker reads and writes: the shared pixel buffer, the
    thread-local and the global random state, the counters, the number of
    atomic loads made so far, and the display. *)
Record Worker : Type := mkWorker {
  pixels : list Vec3;
  fast : Z;
  crand : RandState;
  rays_traced : Z;
  completed_pixels : Z;
  loads : nat;
  display : Display
}.

Definition set_pixels (w : Worker) (p : list Vec3) : Worker :=
  mkWorker p (fast w) (crand w) (rays_traced w) (completed_pixels w) (loads w) (display w).

(** One iteration of the sample loop: the jittered camera ray and its
    radiance estimate. *)
Definition sample (fuel : nat) (nx ny : Z) (camera : Camera) (world : Hittable)
    (max_depth : Z) (i j : Z) (w : Worker) : option (Vec3 * Worker) :=
  let '(r1, f1) := FastRandom_random (fast w) in
  let u := ((F32.of_Z i + r1) / F32.of_Z nx)%f32 in
  let '(r2, f2) := FastRandom_random f1 in
  let v := ((F32.of_Z j + r2) / F32.of_Z ny)%f32 in
  match GetRay RandState std_rand RAND_MAX fuel camera u v (crand w) with
  | None => None
  | Some (ray, cr) =>
      let '(c, f3) := ColorOptimized uninit_rec ray world 0 max_depth f2 in
      Some (c, mkWorker (pixels w) f3 cr (rays_traced w + 1) (completed_pixels w)
                 (loads w) (display w))
  end.

(** [for (int s = 0; s < samples; ++s) { ...; col += ColorOptimized(..); }] *)
Fixpoint sample_loop (n : nat) (fuel : nat) (nx ny : Z) (camera : Camera)
    (world : Hittable) (max_depth : Z) (i j : Z) (col : Vec3) (w : Worker)
    {struct n} : option (Vec3 * Worker) :=
  match n with
  | O => Some (col, w)
  | S n' =>
      match sample fuel nx ny camera world max_depth i j w with
      | None => None
      | Some (c, w') =>
          sample_loop n' fuel nx ny camera world max_depth i j (col + c)%v3 w'
      end
  end.

(** The radiance estimates of the samples of one pixel, in order. *)
Fixpoint samples_of (n : nat) (fuel : nat) (nx ny : Z) (camera : Camera)
    (world : Hittable) (max_depth : Z) (i j : Z) (w : Worker)
    {struct n} : option (list Vec3) :=
  match n with
  | O => Some []
  | S n' =>
      match sample fuel nx ny camera world max_depth i j w with
      | None => None
      | Some (c, w') =>
          match samples_of n' fuel nx ny camera world max_depth i j w' with
          | None => None
          | Some cs => Some (c :: cs)
          end
      end
  end.

(** The average as the source computes it: the sum, then
    [col /= float(samples)]. *)
Definition average (cs : list Vec3) (samples : Z) : Vec3 :=
  vdivs_assign (fold_left vadd cs black) (F32.of_Z samples).

(** The colour of pixel [(i, j)]: sample loop, average, gamma. *)
Definition pixel_colour (fuel : nat) (nx ny : Z) (camera : Camera)
    (world : Hittable) (max_depth : Z) (samples : Z) (i j : Z) (w : Worker)
    : option (Vec3 * Worker) :=
  match sample_loop (Z.to_nat samples) fuel nx ny camera world max_depth i j black w with
  | None => None
  | Some (col, w') => Some (gamma (vdivs_assign col (F32.of_Z samples)), w')
  end.

(** The body of the pixel loop of [render_tile_optimized]. *)
Definition optimized_pixel (fuel : nat) (tile : RenderTile) (nx ny : Z)
    (camera : Camera) (world : Hittable) (j i : Z) (w : Worker)
    : option (bool * Worker) :=
  match pixel_colour fuel nx ny camera world 6 (samples_per_pixel tile) i j w with
  | None => None
  | Some (col, w') =>
      match store (pixels w') (j * nx + i) col with
      | None => None
      | Some p =>
          Some (false, mkWorker p (fast w') (crand w') (rays_traced w')
                         (completed_pixels w' + 1) (loads w') (display w'))
      end
  end.

(** [render_tile_optimized]; the progress output and the timer are left
    out. *)
Definition render_tile_optimized (fuel : nat) (tile : RenderTile) (nx ny : Z)
    (camera : Camera) (world : Hittable) (w : Worker) : option (bool * Worker) :=
  for_each
    (fun j =>
       for_each (optimized_pixel fuel tile nx ny camera world j)
         (seqZ (x_start tile) (width tile)))
    (seqZ (y_start tile) (height tile)) w.

(** [while (renderer->IsPaused() && !renderer->ShouldStop()) sleep_for(10ms);]
    from load number [k] on; the result is the number of the next load. *)
Fixpoint wait_while_paused (fuel : nat) (k : nat) {struct fuel} : option nat :=
  match fuel with
  | O => None
  | S fuel' =>
      if pause_rendering (control k) then
        if stop_rendering (control (S k)) then Some (S (S k))
        else wait_while_paused fuel' (S (S k))
      else Some (S k)
  end.

(** The pause loop followed by [if (renderer->ShouldStop())]: the value
    observed by that test, and the number of the next load. *)
Definition check_stop (fuel : nat) (k : nat) : option (bool * nat) :=
  match wait_while_paused fuel k with
  | None => None
  | Some k' => Some (stop_rendering (control k'), S k')
  end.

(** The body of the pixel loop of [render_tile_progressive]. *)
Definition progressive_pixel (fuel : nat) (tile : RenderTile) (nx ny : Z)
    (camera : Camera) (world : Hittable) (j i : Z) (w : Worker)
    : option (bool * Worker) :=
  match check_stop fuel (loads w) with
  | None => None
  | Some (stop, k) =>
      let w0 := mkWorker (pixels w) (fast w) (crand w) (rays_traced w)
                  (completed_pixels w) k (display w) in
      if stop then Some (true, w0)
      else
        match pixel_colour fuel nx ny camera world 8 (samples_per_pixel tile) i j w0 with
        | None => None
        | Some (col, w') =>
            match store (pixels w') (j * nx + i) col with
            | None => None
            | Some p =>
                Some (false, mkWorker p (fast w') (crand w') (rays_traced w')
                               (completed_pixels w') (loads w')
                               (UpdatePixel (display w') i j col))
            end
        end
  end.

(** [render_tile_progressive]; the boolean of the result tells that the
    function returned from inside the loops. *)
Definition render_tile_progressive (fuel : nat) (tile : RenderTile) (nx ny : Z)
    (camera : Camera) (world : Hittable) (w : Worker) : option (bool * Worker) :=
  for_each
    (fun j =>
       for_each (progressive_pixel fuel tile nx ny camera world j)
         (seqZ (x_start tile) (width tile)))
    (seqZ (y_start tile) (height tile)) w.

(** The render as one worker runs it: the tiles one after the other. *)
Definition render_tiles_optimized (fuel : nat) (tiles : list RenderTile) (nx ny : Z)
    (camera : Camera) (world : Hittable) (w : Worker) : option (bool * Worker) :=
  for_each (fun tile => render_tile_optimized fuel tile nx ny camera world) tiles w.

(** The pixels of a tile in the order of the two loops, each with its
    tile and row: [(tile, j, i)]. *)
Definition jobs_of_tile (tile : RenderTile) : list (RenderTile * Z * Z) :=
  j ← seqZ (y_start tile) (height tile);
  (fun i => (tile, j, i)) <$> seqZ (x_start tile) (width tile).

Definition jobs (tiles : list RenderTile) : list (RenderTile * Z * Z) :=
  tile ← tiles; jobs_of_tile tile.

(** The index of a pixel in the buffer: [j * nx + i]. *)
Definition pixel_index (nx : Z) (job : RenderTile * Z * Z) : Z :=
  let '(_, j, i) := job in j * nx + i.

(** The pixel loop run over a list of pixels. *)
Definition run_jobs_optimized (fuel : nat) (nx ny : Z) (camera : Camera)
    (world : Hittable) (js : list (RenderTile * Z * Z)) (w : Worker)
    : option (bool * Worker) :=
  for_each
    (fun '(tile, j, i) => optimized_pixel fuel tile nx ny camera world j i) js w.

(** In the buffer [buf] the pixel of [job] holds the gamma-corrected
    average of the radiance estimates of its samples, the samples being
    drawn from the state [w0] of the worker. *)
Definition holds_gamma_average (fuel : nat) (nx ny : Z) (camera : Camera)
    (world : Hittable) (max_depth : Z) (buf : list Vec3) (w0 : Worker)
    (job : RenderTile * Z * Z) : Prop :=
  let '(tile, j, i) := job in
  exists cs : list Vec3,
    samples_of (Z.to_nat (samples_per_pixel tile)) fuel nx ny camera world
      max_depth i j w0 = Some cs /\
    buf !! Z.to_nat (j * nx + i)
    = Some (gamma (average cs (samples_per_pixel tile))).

Definition run_jobs_progressive (fuel : nat) (nx ny : Z) (camera : Camera)
    (world : Hittable) (js : list (RenderTile * Z * Z)) (w : Worker)
    : option (bool * Worker) :=
  for_each
    (fun '(tile, j, i) => progressive_pixel fuel tile nx ny camera world j i) js w.

(** The pixel loop of the legacy [main] (main.cpp): the jitter comes from
    [std::rand], the sum [i + rand] is a [double] converted by [float(..)],
    and the radiance from [Color].  The result is the colour that is then
    quantised and written to the file. *)
Section Legacy.

Variable c_pow : double -> double -> double.
Variable uninit_vec : Vec3.

Definition main_sample (fuel : nat) (nx ny : Z) (camera : Camera) (world : Hittable)
    (i j : Z) (st : RandState) : option (Vec3 * RandState) :=
  let '(d1, st1) := rand01 RandState std_rand RAND_MAX st in
  let _u := (F32.round (F64.add (F64.of_Z i) d1) / F32.of_Z nx)%f32 in
  let '(d2, st2) := rand01 RandState std_rand RAND_MAX st1 in
  let _v := (F32.round (F64.add (F64.of_Z j) d2) / F32.of_Z ny)%f32 in
  match GetRay RandState std_rand RAND_MAX fuel camera _u _v st2 with
  | None => None
  | Some (_ray, st3) =>
      Color RandState std_rand RAND_MAX c_pow uninit_rec uninit_vec fuel _ray world 0 st3
  end.

Fixpoint main_sample_loop (n : nat) (fuel : nat) (nx ny : Z) (camera : Camera)
    (world : Hittable) (i j : Z) (_col : Vec3) (st : RandState)
    {struct n} : option (Vec3 * RandState) :=
  match n with
  | O => Some (_col, st)
  | S n' =>
      match main_sample fuel nx ny camera world i j st with
      | None => None
      | Some (c, st') =>
          main_sample_loop n' fuel nx ny camera world i j (_col + c)%v3 st'
      end
  end.

Fixpoint main_samples_of (n : nat) (fuel : nat) (nx ny : Z) (camera : Camera)
    (world : Hittable) (i j : Z) (st : RandState) {struct n} : option (list Vec3) :=
  match n with
  | O => Some []
  | S n' =>
      match main_sample fuel nx ny camera world i j st with
      | None => None
      | Some (c, st') =>
          match main_samples_of n' fuel nx ny camera world i j st' with
          | None => None
          | Some cs => Some (c :: cs)
          end
      end
  end.

Definition main_pixel (fuel : nat) (nx ny ns : Z) (camera : Camera)
    (world : Hittable) (i j : Z) (st : RandState) : option (Vec3 * RandState) :=
  match main_sample_loop (Z.to_nat ns) fuel nx ny camera world i j black st with
  | None => None
  | Some (_col, st') => Some (gamma (vdivs_assign _col (F32.of_Z ns)), st')
  end.

End Legacy.

End Workers.

(** ** The wording of the specification *)

(** [lerp(a, b, t)], the linear blend of the specification. *)
Definition lerp (a b : Vec3) (t : float) : Vec3 :=
  ((f1_0 - t)%f32 *^ a + t *^ b)%v3.

(** [t] lies strictly inside [(tMin, tMax)]. *)
Definition inside (tMin tMax t : float) : bool :=
  (tMin <? t)%f32 && (t <? tMax)%f32.

(** The sphere test as section 4.1 of the specification words it. *)
Definition Sphere_Hit_spec (s : Sphere) (ray : Ray) (tMin tMax : float)
    (rec : HitRecord) : bool * HitRecord :=
  let oc := (Origin ray - m_oCenter s)%v3 in
  let a := Dot (Direction ray) (Direction ray) in
  let b := Dot oc (Direction ray) in
  let c := (Dot oc oc - m_fRadius s * m_fRadius s)%f32 in
  let disc := (b * b - a * c)%f32 in
  if (disc <=? f0_0)%f32 then (false, rec)
  else
    let t1 := ((- b - F32.sqrtf disc) / a)%f32 in
    let t2 := ((- b + F32.sqrtf disc) / a)%f32 in
    if inside tMin tMax t1 then (true, Sphere_record s ray t1)
    else if inside tMin tMax t2 then (true, Sphere_record s ray t2)
    else (false, rec).

(** The same sphere with the sign of its radius changed. *)
Definition negated (s : Sphere) : Sphere :=
  mkSphere (m_oCenter s) (- m_fRadius s)%f32 (m_oSphereMaterial s).

(** The same hit with the normal reversed. *)
Definition flip_normal (h : HitRecord) : HitRecord :=
  mkHitRecord (m_fT h) (m_oPoint h) (- m_oNormal h)%v3 (m_oMaterial h).

(** Sample data for the examples below. *)
Definition v3 (x y z : Z) : Vec3 := mkVec3 (F32.of_Z x) (F32.of_Z y) (F32.of_Z z).
Definition grey : Material := Lambertian (mkVec3 f0_5 f0_5 f0_5).
Definition glass : Material := Dielectric (F32.of_Z 3 / F32.of_Z 2)%f32.
Definition rec0 : HitRecord := mkHitRecord f0_0 (v3 0 0 0) (v3 0 0 0) grey.
Definition ray_up : Ray := mkRay (v3 0 0 0) (v3 0 1 0).
Definition ray_z : Ray := mkRay (v3 0 0 0) (v3 0 0 (-1)).

Definition unit_sphere_ahead : Sphere := mkSphere (v3 0 0 (-5)) (F32.of_Z 1) grey.

(** A sphere of radius zero at the origin, and a ray towards it along
    the first axis with direction [0.7f]. *)
Definition point_sphere : Sphere := mkSphere (v3 0 0 0) f0_0 grey.
Definition ray_to_origin : Ray := mkRay (v3 (-10) 0 0) (mkVec3 f0_7 f0_0 f0_0).

(** The value is a zero or a NaN. *)
Definition zero_or_nan (x : float) : bool :=
  match x with S754_zero _ | S754_nan => true | _ => false end.

(** A stand-in for the C library in the examples: [std::rand] always
    returns [RAND_MAX / 2 + 1], so every draw is 0.5. *)
Definition rand_half (st : unit) : Z * unit := (16384, st).
Definition pow_any (x y : double) : double := x.
Definition empty_world : Hittable := HList [].

(** The number of tiles of a list that contain the pixel [(px, py)]. *)
Fixpoint covering (tiles : list RenderTile) (px py : Z) : nat :=
  match tiles with
  | [] => O
  | t :: tiles' => ((if in_tile t px py then 1 else 0) + covering tiles' px py)%nat
  end.

(** A tile of the partition: a non-empty rectangle inside the image, at
    most [tile_size] wide and high and clipped at the image's far edges,
    that carries the sample count. *)
Definition clipped_tile (image_width image_height samples tile_size : Z)
    (t : RenderTile) : Prop :=
  0 <= x_start t /\ 0 <= y_start t /\
  width t = Z.min tile_size (image_width - x_start t) /\
  height t = Z.min tile_size (image_height - y_start t) /\
  0 < width t /\ 0 < height t /\
  samples_per_pixel t = samples.

Arguments pixels {RandState Display} w.
Arguments loads {RandState Display} w.
Arguments fast {RandState Display} w.
Arguments crand {RandState Display} w.
Arguments display {RandState Display} w.

(** A camera at the origin looking down the third axis, without lens; a
    worker at its start with a black buffer of [n] pixels; a sphere whose
    albedo is 4. *)
Definition camera0 : Camera :=
  mkCamera (v3 0 0 0) (v3 (-2) (-1) (-1)) (v3 4 0 0) (v3 0 2 0)
           (v3 1 0 0) (v3 0 1 0) (v3 0 0 1) f0_0.
Definition worker0 (n : nat) : Worker unit unit :=
  mkWorker unit unit (replicate n black) 1 tt 0 0 0%nat tt.
Definition bright_sphere : Hittable :=
  HSphere (mkSphere (v3 0 0 (-1)) f0_5 (Lambertian (v3 4 4 4))).
Definition nan_colour : Vec3 := mkVec3 S754_nan S754_nan S754_nan.

(** A controller that never pauses and raises the stop flag so that the
    fourth atomic load of the worker is the first to see it. *)
Definition stop_at_fourth_load (k : nat) : Flags := mkFlags false (3 <=? k)%nat.

Definition no_display (d : unit) (x y : Z) (c : Vec3) : unit := d.

(** ** Definitions for the aggregate *)

(** A key whose lexicographic order is the order [SFcompare] decides. *)
Definition order_key (x : float) : Z * Z * Z :=
  match x with
  | S754_infinity true => (-2, 0, 0)
  | S754_finite true m e => (-1, - e, - Z.pos m)
  | S754_zero _ => (0, 0, 0)
  | S754_nan => (0, 0, 0)
  | S754_finite false m e => (1, e, Z.pos m)
  | S754_infinity false => (2, 0, 0)
  end.

Definition key_lt (k1 k2 : Z * Z * Z) : Prop :=
  let '(a1, b1, c1) := k1 in
  let '(a2, b2, c2) := k2 in
  a1 < a2 \/ (a1 = a2 /\ (b1 < b2 \/ (b1 = b2 /\ c1 < c2))).

Definition key_le (k1 k2 : Z * Z * Z) : Prop :=
  let '(a1, b1, c1) := k1 in
  let '(a2, b2, c2) := k2 in
  a1 < a2 \/ (a1 = a2 /\ (b1 < b2 \/ (b1 = b2 /\ c1 <= c2))).

Definition not_nan (x : float) : Prop := x <> S754_nan.

(** The two roots that [Sphere::Hit] tries, when the discriminant is
    positive. *)
Definition sphere_roots (ray : Ray) (s : Sphere) : option (float * float) :=
  let oc := (Origin ray - m_oCenter s)%v3 in
  let a := Dot (Direction ray) (Direction ray) in
  let b := Dot oc (Direction ray) in
  let c := (Dot oc oc - m_fRadius s * m_fRadius s)%f32 in
  let disc := (b * b - a * c)%f32 in
  if (disc >? f0_0)%f32
  then Some ((- b - F32.sqrtf disc) / a, (- b + F32.sqrtf disc) / a)%f32
  else None.

(** The second root is not below the first. *)
Definition sphere_roots_ordered (ray : Ray) (s : Sphere) : bool :=
  match sphere_roots ray s with
  | Some (t1, t2) => negb (t2 <? t1)%f32
  | None => true
  end.

Fixpoint roots_ordered (ray : Ray) (h : Hittable) {struct h} : bool :=
  match h with
  | HSphere s => sphere_roots_ordered ray s
  | HList l => forallb (roots_ordered ray) l
  end.

(** The hit of a member in [(tMin, tMax)], if any. *)
Definition hit_in (u : HitRecord) (m : Hittable) (ray : Ray) (tMin tMax : float)
    : option HitRecord :=
  let '(b, h) := Hit u m ray tMin tMax u in if b then Some h else None.

(** The state of the loop of [HittableList::Hit] in one value: the bound
    [_closestSoFar] and the hit kept so far; [q] gives the hit of each
    member in the whole interval. *)
Definition pick {A : Type} (q : A -> option HitRecord)
    (st : float * option HitRecord) (m : A) : float * option HitRecord :=
  match q m with
  | Some h => if (m_fT h <? fst st)%f32 then (m_fT h, Some h) else st
  | None => st
  end.

Definition restrict (c : float) (r : option HitRecord) : option HitRecord :=
  match r with
  | Some h => if (m_fT h <? c)%f32 then Some h else None
  | None => None
  end.

Definition result (r : option HitRecord) (rec : HitRecord) : bool * HitRecord :=
  match r with Some h => (true, h) | None => (false, rec) end.

Section AggregateState.

Context {A : Type}.
Variable hit : A -> Ray -> float -> float -> HitRecord -> bool * HitRecord.
Variable ray : Ray.
Variables tMin tMax : float.
Variable q : A -> option HitRecord.

(** A member answers a query with a narrowed bound [c] as it answers in
    the whole interval, restricted to the hits below [c]; and its hit in
    the whole interval lies strictly inside it. *)
Definition consistent_with (m : A) : Prop :=
  (forall c rec, c = tMax \/ inside tMin tMax c = true ->
     hit m ray tMin c rec = result (restrict c (q m)) rec) /\
  (forall h, q m = Some h -> inside tMin tMax (m_fT h) = true).

Definition bound_ok (c : float) : Prop := c = tMax \/ inside tMin tMax c = true.

(** The state of the loop is well formed: the bound is [tMax] with no hit
    kept, or it is the [t] of the hit kept, which lies inside the interval. *)
Definition state_ok (st : float * option HitRecord) : Prop :=
  match snd st with
  | None => fst st = tMax
  | Some h => fst st = m_fT h /\ inside tMin tMax (m_fT h) = true
  end.

End AggregateState.

(** Induction on [Hittable] through the lists. *)
Fixpoint Hittable_nested_ind (P : Hittable -> Prop)
    (Hs : forall s, P (HSphere s))
    (Hl : forall l, Forall P l -> P (HList l)) (h : Hittable) {struct h} : P h :=
  match h with
  | HSphere s => Hs s
  | HList l =>
      Hl l ((fix go (l : list Hittable) : Forall P l :=
               match l with
               | [] => @List.Forall_nil Hittable P
               | x :: r => @List.Forall_cons Hittable P x r (Hittable_nested_ind P Hs Hl x) (go r)
               end) l)
  end.

(** Two spheres of the same centre and radius with different materials,
    and two spheres one behind the other on the ray [ray_z]. *)
Definition grey_ball : Hittable := HSphere (mkSphere (v3 0 0 (-5)) (F32.of_Z 1) grey).
Definition glass_ball : Hittable := HSphere (mkSphere (v3 0 0 (-5)) (F32.of_Z 1) glass).
Definition near_ball : Hittable := HSphere (mkSphere (v3 0 0 (-2)) f0_5 glass).

(** ** Definitions for the further properties *)

(** The spheres of a scene, in the order in which [Hit] visits them. *)
Fixpoint spheres_of (h : Hittable) {struct h} : list Sphere :=
  match h with
  | HSphere s => [s]
  | HList l =>
      (fix go (l : list Hittable) : list Sphere :=
         match l with
         | [] => []
         | m :: l' => spheres_of m ++ go l'
         end) l
  end.

(** The same scene with the material of every sphere replaced. *)
Fixpoint retarget (f : Sphere -> Material) (h : Hittable) {struct h} : Hittable :=
  match h with
  | HSphere s => HSphere (mkSphere (m_oCenter s) (m_fRadius s) (f s))
  | HList l => HList (List.map (retarget f) l)
  end.

(** Two records describe the same point of a surface. *)
Definition same_surface (r1 r2 : HitRecord) : Prop :=
  m_fT r1 = m_fT r2 /\ m_oPoint r1 = m_oPoint r2 /\ m_oNormal r1 = m_oNormal r2.

(** What a member's test does with the record it is given and with the
    content of uninitialised locals: nothing that shows.  The answer is the
    same, a hit carries the same record, and a miss returns the record
    given. *)
Definition hit_pure (ray : Ray) (h : Hittable) : Prop :=
  forall u1 u2 tMin tMax r1 r2,
    fst (Hit u1 h ray tMin tMax r1) = fst (Hit u2 h ray tMin tMax r2) /\
    (fst (Hit u1 h ray tMin tMax r1) = true ->
     snd (Hit u1 h ray tMin tMax r1) = snd (Hit u2 h ray tMin tMax r2)) /\
    (fst (Hit u1 h ray tMin tMax r1) = false ->
     snd (Hit u1 h ray tMin tMax r1) = r1).

(** [r] is the record of a sphere of [S] at a parameter inside
    [(tMin, tMax)]. *)
Definition member_record (S : list Sphere) (ray : Ray) (tMin tMax : float)
    (r : HitRecord) : Prop :=
  exists s t, s ∈ S /\ r = Sphere_record s ray t /\ inside tMin tMax t = true.


(** The grid of tiles in closed form: row by row, each row from left to
    right, [ceil(h / ts)] rows of [ceil(w / ts)] tiles. *)
Definition tile_grid (image_width image_height samples tile_size : Z)
    : list RenderTile :=
  r ← seqZ 0 ((image_height + tile_size - 1) / tile_size);
  (fun c => mkRenderTile (c * tile_size) (r * tile_size)
              (Z.min tile_size (image_width - c * tile_size))
              (Z.min tile_size (image_height - r * tile_size)) samples)
    <$> seqZ 0 ((image_width + tile_size - 1) / tile_size).

(** ** ThreadPool (performance.h)

    The queue of the pool: what the workers and the client read and write
    under [queue_mutex].  Each function below is one critical section. *)
Record ThreadPool (Task : Type) : Type := mkThreadPool {
  tasks : list Task;
  next_task : nat;
  stop : bool
}.

Arguments mkThreadPool {Task} tasks next_task stop.
Arguments tasks {Task} t.
Arguments next_task {Task} t.
Arguments stop {Task} t.

(** What a worker does when it leaves its critical section: it runs the
    task it took, it returns from its loop, or it is still waiting on the
    condition variable. *)
Inductive Taken (Task : Type) : Type :=
| Runs (task : Task)
| Returns
| Waits.

Arguments Runs {Task} task.
Arguments Returns {Task}.
Arguments Waits {Task}.

(** The critical section of the worker loop:
    [condition.wait(lock, stop || next_task < tasks.size())], then
    [if (stop && next_task >= tasks.size()) return;], then
    [task = tasks[next_task++]].  [None] is an index outside the vector. *)
Definition worker_section {Task : Type} (p : ThreadPool Task)
    : option (Taken Task * ThreadPool Task) :=
  if stop p || (next_task p <? length (tasks p))%nat then
    if stop p && (length (tasks p) <=? next_task p)%nat then Some (Returns, p)
    else
      match tasks p !! next_task p with
      | Some task => Some (Runs task, mkThreadPool (tasks p) (S (next_task p)) (stop p))
      | None => None
      end
  else Some (Waits, p).

(** [enqueue_tasks]: [tasks.clear(); next_task = 0;] and the copy of the
    list. *)
Definition enqueue_tasks {Task : Type} (p : ThreadPool Task) (task_list : list Task)
    : ThreadPool Task :=
  mkThreadPool task_list 0 (stop p).

(** The test of the loop of [wait_all]: [if (next_task >= tasks.size()) break;] *)
Definition wait_all_done {Task : Type} (p : ThreadPool Task) : bool :=
  (length (tasks p) <=? next_task p)%nat.

(** The critical section of the destructor. *)
Definition ThreadPool_destroy {Task : Type} (p : ThreadPool Task) : ThreadPool Task :=
  mkThreadPool (tasks p) (next_task p) true.

(** [n] critical sections of workers, one after the other, whichever
    threads enter them. *)
Fixpoint worker_sections {Task : Type} (n : nat) (p : ThreadPool Task) {struct n}
    : option (list (Taken Task) * ThreadPool Task) :=
  match n with
  | O => Some ([], p)
  | S n' =>
      match worker_section p with
      | None => None
      | Some (t, p') =>
          match worker_sections n' p' with
          | None => None
          | Some (ts, p'') => Some (t :: ts, p'')
          end
      end
  end.

(** ** The scene builders (main.cpp, main_interactive.cpp)

    [new Hittable*[n + 1]] is an array of [n + 1] pointers that hold
    nothing yet; a store outside it is undefined behaviour ([None]), and so
    is the use of an entry that was never stored.  Where one expression
    calls the random generator several times the calls are taken from left
    to right. *)

Definition new_array (size : Z) : list (option Hittable) :=
  replicate (Z.to_nat size) None.

(** [list[i] = h] *)
Definition array_set (lst : list (option Hittable)) (i : Z) (h : Hittable)
    : option (list (option Hittable)) :=
  if (0 <=? i) && (i <? Z.of_nat (length lst))
  then Some (<[Z.to_nat i := Some h]> lst)
  else None.

(** [new HittableList(list, i)]: the aggregate of the first [i] entries. *)
Definition HittableList_new (lst : list (option Hittable)) (i : Z) : option Hittable :=
  HList <$> mapM id (take (Z.to_nat i) lst).

Definition f0_9 : float := (F32.of_Z 9 / F32.of_Z 10)%f32.
Definition f0_2 : float := (F32.of_Z 2 / F32.of_Z 10)%f32.
Definition f0_8 : float := (F32.of_Z 8 / F32.of_Z 10)%f32.
Definition f0_95 : float := (F32.of_Z 95 / F32.of_Z 100)%f32.
Definition f1_5 : float := (F32.of_Z 3 / F32.of_Z 2)%f32.
Definition f0_4 : float := (F32.of_Z 4 / F32.of_Z 10)%f32.
Definition f0_1 : float := (F32.of_Z 1 / F32.of_Z 10)%f32.
Definition f0_6 : float := (F32.of_Z 6 / F32.of_Z 10)%f32.

Definition new_Sphere (a_oCenter : Vec3) (a_fRadius : float) (a_oMaterial : Material)
    : Hittable :=
  HSphere (mkSphere a_oCenter a_fRadius a_oMaterial).

(** The sphere stored first and the three stored last by every builder. *)
Definition ground_sphere : Hittable :=
  new_Sphere (mkVec3 f0_0 (F32.of_Z (-1000)) f0_0) (F32.of_Z 1000)
    (Lambertian (mkVec3 f0_5 f0_5 f0_5)).
Definition big_glass_sphere : Hittable :=
  new_Sphere (mkVec3 f0_0 f1_0 f0_0) f1_0 (Dielectric f1_5).
Definition big_matte_sphere : Hittable :=
  new_Sphere (mkVec3 (F32.of_Z (-4)) f1_0 f0_0) f1_0 (Lambertian (mkVec3 f0_4 f0_2 f0_1)).
Definition big_metal_sphere : Hittable :=
  new_Sphere (mkVec3 (F32.of_Z 4) f1_0 f0_0) f1_0 (Metal (mkVec3 f0_7 f0_6 f0_5) f0_0).

(** [list[i++] = h] three times over and the aggregate of the [i]
    entries: the end of every builder. *)
Definition finish_scene (lst : list (option Hittable)) (i : Z) : option Hittable :=
  match array_set lst i big_glass_sphere with
  | None => None
  | Some list1 =>
      match array_set list1 (i + 1) big_matte_sphere with
      | None => None
      | Some list2 =>
          match array_set list2 (i + 2) big_metal_sphere with
          | None => None
          | Some list3 => HittableList_new list3 (i + 3)
          end
      end
  end.

(** *** CreateOptimizedScene (main_interactive.cpp) *)

(** The body of the loop over [b]; the boolean tells that the loop was
    left by [break]. *)
Definition CreateOptimizedScene_body (n a b : Z)
    (s : list (option Hittable) * Z * Z)
    : option (bool * (list (option Hittable) * Z * Z)) :=
  let '(lst, i, st) := s in
  if i >=? n then Some (true, s)
  else
    let '(choose_mat, st) := FastRandom_random st in
    let '(rx, st) := FastRandom_random st in
    let '(rz, st) := FastRandom_random st in
    let center := mkVec3 (F32.of_Z a + f0_9 * rx)%f32 f0_2 (F32.of_Z b + f0_9 * rz)%f32 in
    if (Length (center - mkVec3 (F32.of_Z 4) f0_2 f0_0)%v3 >? f0_9)%f32 then
      if (choose_mat <? f0_8)%f32 then
        let '(r1, st) := FastRandom_random st in
        let '(r2, st) := FastRandom_random st in
        let '(r3, st) := FastRandom_random st in
        let '(r4, st) := FastRandom_random st in
        let '(r5, st) := FastRandom_random st in
        let '(r6, st) := FastRandom_random st in
        match array_set lst i
                (new_Sphere center f0_2
                   (Lambertian (mkVec3 (r1 * r2) (r3 * r4) (r5 * r6))%f32)) with
        | None => None
        | Some list' => Some (false, (list', i + 1, st))
        end
      else if (choose_mat <? f0_95)%f32 then
        let '(r1, st) := FastRandom_random st in
        let '(r2, st) := FastRandom_random st in
        let '(r3, st) := FastRandom_random st in
        let '(r4, st) := FastRandom_random st in
        match array_set lst i
                (new_Sphere center f0_2
                   (Metal (mkVec3 (f0_5 * (f1_0 + r1)) (f0_5 * (f1_0 + r2))
                                  (f0_5 * (f1_0 + r3)))%f32
                          (f0_5 * r4)%f32)) with
        | None => None
        | Some list' => Some (false, (list', i + 1, st))
        end
      else
        match array_set lst i (new_Sphere center f0_2 (Dielectric f1_5)) with
        | None => None
        | Some list' => Some (false, (list', i + 1, st))
        end
    else Some (false, (lst, i, st)).

(** The two loops: [for (a = -5; a < 5; a++)] around
    [for (b = -5; b < 5; b++)], the outer one left by
    [if (i >= n) break;] after the inner one. *)
Definition CreateOptimizedScene_loops (n : Z) (s : list (option Hittable) * Z * Z)
    : option (bool * (list (option Hittable) * Z * Z)) :=
  for_each
    (fun a s =>
       match for_each (CreateOptimizedScene_body n a) (seqZ (-5) 10) s with
       | None => None
       | Some (_, s') => Some (s'.1.2 >=? n, s')
       end)
    (seqZ (-5) 10) s.

Definition CreateOptimizedScene (st : Z) : option (Hittable * Z) :=
  let n := 50 in
  match array_set (new_array (n + 1)) 0 ground_sphere with
  | None => None
  | Some lst =>
      match CreateOptimizedScene_loops n (lst, 1, st) with
      | None => None
      | Some (_, (list', i, st')) =>
          match finish_scene list' i with
          | None => None
          | Some world => Some (world, st')
          end
      end
  end.

(** *** RandomScene (main.cpp) *)

Section RandomScene.

Variable RandState : Type.
Variable std_rand : RandState -> Z * RandState.
Variable RAND_MAX : Z.

Local Abbreviation rand01 := (rand01 RandState std_rand RAND_MAX).

(** The products with a [double] are computed in [double] and converted
    where a [float] is expected. *)
Definition RandomScene_body (a b : Z) (s : list (option Hittable) * Z * RandState)
    : option (bool * (list (option Hittable) * Z * RandState)) :=
  let '(_list, i, st) := s in
  let '(d0, st) := rand01 st in
  let _chooseMat := F32.round d0 in
  let '(dx, st) := rand01 st in
  let '(dz, st) := rand01 st in
  let _center :=
    mkVec3 (F32.round (F64.add (F64.of_Z a) (F64.mul (F64.of_float f0_9) dx))) f0_2
           (F32.round (F64.add (F64.of_Z b) (F64.mul (F64.of_float f0_9) dz))) in
  if (Length (_center - mkVec3 (F32.of_Z 4) f0_2 f0_0)%v3 >? f0_9)%f32 then
    if (_chooseMat <? f0_8)%f32 then
      let '(d1, st) := rand01 st in
      let '(d2, st) := rand01 st in
      let '(d3, st) := rand01 st in
      let '(d4, st) := rand01 st in
      let '(d5, st) := rand01 st in
      let '(d6, st) := rand01 st in
      match array_set _list i
              (new_Sphere _center f0_2
                 (Lambertian (mkVec3 (F32.round (F64.mul d1 d2)) (F32.round (F64.mul d3 d4))
                                (F32.round (F64.mul d5 d6))))) with
      | None => None
      | Some list' => Some (false, (list', i + 1, st))
      end
    else if (_chooseMat <? f0_95)%f32 then
      let '(d1, st) := rand01 st in
      let '(d2, st) := rand01 st in
      let '(d3, st) := rand01 st in
      let '(d4, st) := rand01 st in
      let half_of_one_plus d :=
        F32.round (F64.mul (F64.of_float f0_5) (F64.add (F64.of_float f1_0) d)) in
      match array_set _list i
              (new_Sphere _center f0_2
                 (Metal (mkVec3 (half_of_one_plus d1) (half_of_one_plus d2)
                           (half_of_one_plus d3))
                        (F32.round (F64.mul (F64.of_float f0_5) d4)))) with
      | None => None
      | Some list' => Some (false, (list', i + 1, st))
      end
    else
      match array_set _list i (new_Sphere _center f0_2 (Dielectric f1_5)) with
      | None => None
      | Some list' => Some (false, (list', i + 1, st))
      end
  else Some (false, (_list, i, st)).

Definition RandomScene (st : RandState) : option (Hittable * RandState) :=
  let n := 500 in
  match array_set (new_array (n + 1)) 0 ground_sphere with
  | None => None
  | Some _list =>
      match for_each (fun a => for_each (RandomScene_body a) (seqZ (-11) 22))
              (seqZ (-11) 22) (_list, 1, st) with
      | None => None
      | Some (_, (list', i, st')) =>
          match finish_scene list' i with
          | None => None
          | Some world => Some (world, st')
          end
      end
  end.

End RandomScene.

(** The state of a builder is sound for [k]: the array has its [size]
    entries, the entries below [i] are stored, and [i] is at most [k]. *)
Definition scene_ok {S : Type} (size k : Z) (s : list (option Hittable) * Z * S) : Prop :=
  let '(lst, i, _) := s in
  Z.of_nat (length lst) = size /\ 1 <= i <= k /\
  forall j, (j < Z.to_nat i)%nat -> exists h, lst !! j = Some (Some h).

(** ** The display of the progressive worker *)

(** The display after the calls [UpdatePixel(i, j, col)] of [calls], made
    in order; a call is given as [(tile, j, i, col)]. *)
Definition shown {Display : Type} (UpdatePixel : Display -> Z -> Z -> Vec3 -> Display)
    (d : Display) (calls : list (RenderTile * Z * Z * Vec3)) : Display :=
  fold_left (fun d '(_, j, i, col) => UpdatePixel d i j col) calls d.

(** A display that records the calls it receives. *)
Definition log_display (d : list (Z * Z * Vec3)) (x y : Z) (c : Vec3)
    : list (Z * Z * Vec3) :=
  d ++ [(x, y, c)].

Definition logging_worker (n : nat) : Worker unit (list (Z * Z * Vec3)) :=
  mkWorker unit (list (Z * Z * Vec3)) (replicate n black) 1 tt 0 0 0%nat [].

(** ** The display buffers (display.h, display.cpp) *)

(** [struct RaylibColor { unsigned char r, g, b, a; }] *)
Module Raylib.
Record RaylibColor : Type := mkRaylibColor { r : Z; g : Z; b : Z; a : Z }.
End Raylib.
Abbreviation RaylibColor := Raylib.RaylibColor.

(** The two buffers of [InteractiveDisplay] and the size they are made
    for; the window and the texture are left out. *)
Record InteractiveDisplay : Type := mkInteractiveDisplay {
  render_width : Z;
  render_height : Z;
  pixel_buffer : list RaylibColor;
  render_buffer : list Vec3
}.

(** The constructor: both buffers are resized to
    [render_width * render_height]; a negative size does not give a
    vector. *)
Definition new_InteractiveDisplay (render_w render_h : Z) : option InteractiveDisplay :=
  if render_w * render_h <? 0 then None
  else Some (mkInteractiveDisplay render_w render_h
               (replicate (Z.to_nat (render_w * render_h)) (Raylib.mkRaylibColor 0 0 0 255))
               (replicate (Z.to_nat (render_w * render_h)) black)).

Definition f255_0 : float := F32.of_Z 255.

(** [std::min(a, b)]: [b] when [b < a], else [a]. *)
Definition std_min (a b : float) : float := if (b <? a)%f32 then b else a.

(** The conversion of a [float] to an integer type truncates; the integer
    part of a finite value. *)
Definition truncate (x : float) : option Z :=
  match x with
  | S754_zero _ => Some 0
  | S754_finite s m e =>
      let t := Z.shiftl (Z.pos m) e in Some (if s then - t else t)
  | _ => None
  end.

(** [(unsigned char)(x)] for a [float]: undefined ([None]) when the
    truncated value is not one of 0 .. 255. *)
Definition to_unsigned_char (x : float) : option Z :=
  match truncate x with
  | Some t => if (0 <=? t) && (t <=? 255) then Some t else None
  | None => None
  end.

(** The [RaylibColor] both update functions build from a colour. *)
Definition to_RaylibColor (color : Vec3) : option RaylibColor :=
  let gamma_corrected :=
    mkVec3 (F32.sqrtf (GetX color)) (F32.sqrtf (GetY color)) (F32.sqrtf (GetZ color)) in
  match to_unsigned_char (std_min f255_0 (GetX gamma_corrected * f255_0)%f32),
        to_unsigned_char (std_min f255_0 (GetY gamma_corrected * f255_0)%f32),
        to_unsigned_char (std_min f255_0 (GetZ gamma_corrected * f255_0)%f32) with
  | Some r, Some g, Some b => Some (Raylib.mkRaylibColor r g b 255)
  | _, _, _ => None
  end.

(** [v[idx] = x] on a [std::vector]; an index outside the vector is
    undefined behaviour ([None]). *)
Definition vector_set {A : Type} (v : list A) (idx : Z) (x : A) : option (list A) :=
  if (0 <=? idx) && (idx <? Z.of_nat (length v))
  then Some (<[Z.to_nat idx := x]> v)
  else None.

(** The two stores at [index]. *)
Definition set_display_pixel (d : InteractiveDisplay) (index : Z) (color : Vec3)
    : option InteractiveDisplay :=
  match vector_set (render_buffer d) index color with
  | None => None
  | Some rb =>
      match to_RaylibColor color with
      | None => None
      | Some c =>
          match vector_set (pixel_buffer d) index c with
          | None => None
          | Some pb => Some (mkInteractiveDisplay (render_width d) (render_height d) pb rb)
          end
      end
  end.

(** [InteractiveDisplay::UpdatePixel] *)
Definition InteractiveDisplay_UpdatePixel (d : InteractiveDisplay) (x y : Z)
    (color : Vec3) : option InteractiveDisplay :=
  if (x <? 0) || (x >=? render_width d) || (y <? 0) || (y >=? render_height d)
  then Some d
  else set_display_pixel d (y * render_width d + x) color.

(** The body of the loops of [InteractiveDisplay::UpdateRegion]. *)
Definition UpdateRegion_body (start_x start_y width : Z) (colors : list Vec3)
    (y x : Z) (d : InteractiveDisplay) : option (bool * InteractiveDisplay) :=
  let pixel_x := start_x + x in
  let pixel_y := start_y + y in
  if (pixel_x >=? render_width d) || (pixel_y >=? render_height d) then Some (false, d)
  else
    let buffer_index := y * width + x in
    let index := pixel_y * render_width d + pixel_x in
    if buffer_index <? Z.of_nat (length colors) then
      match colors !! Z.to_nat buffer_index with
      | None => None
      | Some color =>
          match set_display_pixel d index color with
          | None => None
          | Some d' => Some (false, d')
          end
      end
    else Some (false, d).

(** [InteractiveDisplay::UpdateRegion] *)
Definition InteractiveDisplay_UpdateRegion (d : InteractiveDisplay)
    (start_x start_y width height : Z) (colors : list Vec3)
    : option InteractiveDisplay :=
  snd <$> for_each
            (fun y => for_each (UpdateRegion_body start_x start_y width colors y)
                        (seqZ 0 width))
            (seqZ 0 height) d.

(** The buffers have the size the constructor gave them. *)
Definition display_ok (d : InteractiveDisplay) : Prop :=
  0 <= render_width d /\ 0 <= render_height d /\
  Z.of_nat (length (pixel_buffer d)) = render_width d * render_height d /\
  Z.of_nat (length (render_buffer d)) = render_width d * render_height d.

(** The pixels of a region in the order of the loops of [UpdateRegion]:
    [(y, x)]. *)
Definition region (width height : Z) : list (Z * Z) :=
  y ← seqZ 0 height; (fun x => (y, x)) <$> seqZ 0 width.

(** ** The keys (display.cpp, [ProgressiveRenderer::HandleInput]) *)

(** The keys [HandleInput] asks for, as pressed in one frame. *)
Record Keys : Type := mkKeys { KEY_S : bool; KEY_C : bool; KEY_P : bool; KEY_ESCAPE : bool }.

(** What [HandleInput] reads and writes: the two switches of the display
    and the two flags of the renderer. *)
Record Controls : Type := mkControls {
  show_stats : bool;
  show_controls : bool;
  flags : Flags
}.

Definition PauseRendering (f : Flags) : Flags := mkFlags true (stop_rendering f).
Definition ResumeRendering (f : Flags) : Flags := mkFlags false (stop_rendering f).
Definition StopRendering (f : Flags) : Flags := mkFlags (pause_rendering f) true.

Definition HandleInput (keys : Keys) (c : Controls) : Controls :=
  let c1 := if KEY_S keys then mkControls (negb (show_stats c)) (show_controls c) (flags c)
            else c in
  let c2 := if KEY_C keys then mkControls (show_stats c1) (negb (show_controls c1)) (flags c1)
            else c1 in
  let c3 := if KEY_P keys
            then mkControls (show_stats c2) (show_controls c2)
                   (if pause_rendering (flags c2) then ResumeRendering (flags c2)
                    else PauseRendering (flags c2))
            else c2 in
  if KEY_ESCAPE keys
  then mkControls (show_stats c3) (show_controls c3) (StopRendering (flags c3))
  else c3.

(** A NaN, or a value below zero. *)
Definition negative_or_nan (x : float) : bool :=
  match x with
  | S754_nan | S754_infinity true | S754_finite true _ _ => true
  | _ => false
  end.

(** [UpdatePixel] called for the pixel [(y, x)] of a region, with the
    colour [colors] holds for it, if it holds one. *)
Definition UpdatePixel_of_region (start_x start_y width : Z) (colors : list Vec3)
    (yx : Z * Z) (d : InteractiveDisplay) : option (bool * InteractiveDisplay) :=
  match colors !! Z.to_nat (yx.1 * width + yx.2) with
  | Some color =>
      match InteractiveDisplay_UpdatePixel d (start_x + yx.2) (start_y + yx.1) color with
      | None => None
      | Some d' => Some (false, d')
      end
  | None => Some (false, d)
  end.

(** [HandleInput] called once per frame. *)
Definition HandleInput_frames (frames : list Keys) (c : Controls) : Controls :=
  fold_left (fun c keys => HandleInput keys c) frames c.

(** A display of 2 by 1 pixels as the constructor leaves it. *)
Definition display_2x1 : InteractiveDisplay :=
  mkInteractiveDisplay 2 1
    (replicate 2 (Raylib.mkRaylibColor 0 0 0 255)) (replicate 2 black).

(** The call [renderer->GetDisplay()->UpdatePixel(i, j, col)] of the
    progressive worker, on the display of the source. *)
Definition UpdatePixel_call (d : InteractiveDisplay) (x y : Z) (color : Vec3)
    : InteractiveDisplay :=
  default d (InteractiveDisplay_UpdatePixel d x y color).

(** A list of calls of [UpdatePixel], each of which has to be defined. *)
Fixpoint UpdatePixel_calls (calls : list (RenderTile * Z * Z * Vec3))
    (d : InteractiveDisplay) {struct calls} : option InteractiveDisplay :=
  match calls with
  | [] => Some d
  | (_, j, i, col) :: calls' =>
      match InteractiveDisplay_UpdatePixel d i j col with
      | None => None
      | Some d' => UpdatePixel_calls calls' d'
      end
  end.

Definition display_worker (n : nat) : Worker unit InteractiveDisplay :=
  mkWorker unit InteractiveDisplay (replicate n black) 1 tt 0 0 0%nat display_2x1.

(** * Properties *)

(** ** Facts of binary32 arithmetic *)

Lemma ltb_leb (x y : float) : (x <? y)%f32 = true -> (x <=? y)%f32 = true.
Proof.
  unfold F32.ltb, F32.leb, SFltb, SFleb.
  destruct (SFcompare x y) as [[]|]; congruence.
Qed.

Lemma ltb_nan_l (y : float) : (S754_nan <? y)%f32 = false.
Proof. reflexivity. Qed.

Lemma ltb_nan_r (x : float) : (x <? S754_nan)%f32 = false.
Proof. destruct x; reflexivity. Qed.

Lemma inside_nan (tMin tMax : float) : inside tMin tMax S754_nan = false.
Proof. unfold inside. rewrite ltb_nan_r. reflexivity. Qed.

(** A value that is neither positive nor at most zero is a NaN. *)
Lemma not_pos_not_le0_nan (x : float) :
  (x >? f0_0)%f32 = false -> (x <=? f0_0)%f32 = false -> x = S754_nan.
Proof.
  destruct x as [s|s| |s m e]; try destruct s; cbv; congruence.
Qed.

Lemma pos_not_le0 (x : float) : (x >? f0_0)%f32 = true -> (x <=? f0_0)%f32 = false.
Proof.
  destruct x as [s|s| |s m e]; try destruct s; cbv; congruence.
Qed.

Lemma sqrtf_nan : F32.sqrtf S754_nan = S754_nan.
Proof. reflexivity. Qed.

Lemma sub_nan_r (x : float) : (x - S754_nan)%f32 = S754_nan.
Proof. destruct x; reflexivity. Qed.

Lemma add_nan_r (x : float) : (x + S754_nan)%f32 = S754_nan.
Proof. destruct x; reflexivity. Qed.

Lemma div_nan_l (y : float) : (S754_nan / y)%f32 = S754_nan.
Proof. reflexivity. Qed.

(** *** The order of binary32 values *)

Ltac order_cases :=
  repeat match goal with
  | |- context [Z.compare ?a ?b] => destruct (Z.compare_spec a b)
  | |- context [Pos.compare_cont Eq ?a ?b] =>
      change (Pos.compare_cont Eq a b) with (Pos.compare a b);
      destruct (Pos.compare_spec a b)
  end.

Lemma ltb_key (x y : float) :
  (x <? y)%f32 = true <-> not_nan x /\ not_nan y /\ key_lt (order_key x) (order_key y).
Proof.
  unfold F32.ltb, SFltb, not_nan.
  destruct x as [sx|sx| |sx mx ex], y as [sy|sy| |sy my ey];
    try destruct sx; try destruct sy; simpl; order_cases; simpl;
    split; try (intros H; discriminate H); try (intros (H1 & H2 & H3));
    try congruence; try lia; try (intros _; repeat split; try congruence; lia).
Qed.

Lemma leb_key (x y : float) :
  (x <=? y)%f32 = true <-> not_nan x /\ not_nan y /\ key_le (order_key x) (order_key y).
Proof.
  unfold F32.leb, SFleb, not_nan.
  destruct x as [sx|sx| |sx mx ex], y as [sy|sy| |sy my ey];
    try destruct sx; try destruct sy; simpl; order_cases; simpl;
    split; try (intros H; discriminate H); try (intros (H1 & H2 & H3));
    try congruence; try lia; try (intros _; repeat split; try congruence; lia).
Qed.

Lemma ltb_not_nan (x y : float) : (x <? y)%f32 = true -> not_nan x /\ not_nan y.
Proof. intros H. apply ltb_key in H. tauto. Qed.

Lemma ltb_trans (x y z : float) :
  (x <? y)%f32 = true -> (y <? z)%f32 = true -> (x <? z)%f32 = true.
Proof.
  rewrite !ltb_key. unfold key_lt.
  destruct (order_key x) as [[a1 b1] c1], (order_key y) as [[a2 b2] c2],
    (order_key z) as [[a3 b3] c3].
  intros (? & ? & ?) (? & ? & ?). repeat split; auto. lia.
Qed.

Lemma ltb_leb_trans (x y z : float) :
  (x <? y)%f32 = true -> (y <=? z)%f32 = true -> (x <? z)%f32 = true.
Proof.
  rewrite !ltb_key, leb_key. unfold key_lt, key_le.
  destruct (order_key x) as [[a1 b1] c1], (order_key y) as [[a2 b2] c2],
    (order_key z) as [[a3 b3] c3].
  intros (? & ? & ?) (? & ? & ?). repeat split; auto. lia.
Qed.

Lemma leb_ltb_trans (x y z : float) :
  (x <=? y)%f32 = true -> (y <? z)%f32 = true -> (x <? z)%f32 = true.
Proof.
  rewrite !ltb_key, leb_key. unfold key_lt, key_le.
  destruct (order_key x) as [[a1 b1] c1], (order_key y) as [[a2 b2] c2],
    (order_key z) as [[a3 b3] c3].
  intros (? & ? & ?) (? & ? & ?). repeat split; auto. lia.
Qed.

Lemma leb_trans (x y z : float) :
  (x <=? y)%f32 = true -> (y <=? z)%f32 = true -> (x <=? z)%f32 = true.
Proof.
  rewrite !leb_key. unfold key_le.
  destruct (order_key x) as [[a1 b1] c1], (order_key y) as [[a2 b2] c2],
    (order_key z) as [[a3 b3] c3].
  intros (? & ? & ?) (? & ? & ?). repeat split; auto. lia.
Qed.

(** Two values that are not NaN compare one way or the other. *)
Lemma not_ltb_leb (x y : float) :
  not_nan x -> not_nan y -> (x <? y)%f32 = false -> (y <=? x)%f32 = true.
Proof.
  intros Hx Hy H. apply leb_key. repeat split; auto.
  assert (Hn : ~ key_lt (order_key x) (order_key y)).
  { intros Hk. rewrite (proj2 (ltb_key x y)) in H; [discriminate | auto]. }
  unfold key_lt, key_le in *.
  destruct (order_key x) as [[a1 b1] c1], (order_key y) as [[a2 b2] c2]. lia.
Qed.

Lemma leb_refl (x : float) : not_nan x -> (x <=? x)%f32 = true.
Proof.
  intros H. apply leb_key. repeat split; auto. unfold key_le.
  destruct (order_key x) as [[a b] c]. lia.
Qed.

Lemma leb_antisym_eqb (x y : float) :
  (x <=? y)%f32 = true -> (y <=? x)%f32 = true -> F32.eqb x y = true.
Proof.
  unfold F32.leb, F32.eqb, SFleb, SFeqb.
  destruct x as [sx|sx| |sx mx ex], y as [sy|sy| |sy my ey];
    try destruct sx; try destruct sy; simpl; try congruence;
    order_cases; simpl; try congruence; try lia.
Qed.

Lemma ltb_asym (x y : float) : (x <? y)%f32 = true -> (y <? x)%f32 = false.
Proof.
  intros H. destruct (y <? x)%f32 eqn:E; [|reflexivity].
  pose proof (ltb_trans _ _ _ H E) as Hxx. apply ltb_key in Hxx.
  destruct Hxx as (_ & _ & Hk). unfold key_lt in Hk.
  destruct (order_key x) as [[a b] c]. lia.
Qed.

(** ** Sphere::Hit *)

Lemma inside_source_order (tMin tMax t : float) :
  (t <? tMax)%f32 && (t >? tMin)%f32 = inside tMin tMax t.
Proof. unfold inside. apply andb_comm. Qed.

Lemma Sphere_Hit_roots (s : Sphere) (ray : Ray) (tMin tMax : float) (rec : HitRecord) :
  Sphere_Hit s ray tMin tMax rec
  = match sphere_roots ray s with
    | Some (t1, t2) =>
        if inside tMin tMax t1 then (true, Sphere_record s ray t1)
        else if inside tMin tMax t2 then (true, Sphere_record s ray t2)
        else (false, rec)
    | None => (false, rec)
    end.
Proof.
  unfold Sphere_Hit, sphere_roots. cbv zeta. rewrite !inside_source_order.
  destruct (_ >? f0_0)%f32; reflexivity.
Qed.



(** Rounding is symmetric in the sign. *)
Lemma binary_round_aux_negb (s : bool) (m e : Z) (l : location) :
  binary_round_aux F32.prec F32.emax (negb s) m e l
  = SFopp (binary_round_aux F32.prec F32.emax s m e l).
Proof.
  unfold binary_round_aux.
  destruct (shr_fexp F32.prec F32.emax m e l) as [mrs' e'].
  destruct (shr_fexp F32.prec F32.emax _ e' loc_Exact) as [mrs'' e''].
  destruct (shr_m mrs''); try reflexivity.
  destruct (e'' <=? F32.emax - F32.prec); reflexivity.
Qed.

Lemma mul_neg_neg (x : float) : (- x * - x)%f32 = (x * x)%f32.
Proof.
  destruct x as [s|s| |s m e]; simpl; try reflexivity;
    unfold F32.mul, F32.neg; simpl; destruct s; reflexivity.
Qed.

Lemma div_neg_r (x y : float) : (x / - y)%f32 = (- (x / y))%f32.
Proof.
  unfold F32.div, F32.neg.
  destruct x as [sx|sx| |sx mx ex], y as [sy|sy| |sy my ey]; simpl;
    try reflexivity; try (rewrite <- negb_xorb_r; reflexivity).
  destruct (SFdiv_core_binary F32.prec F32.emax (Z.pos mx) ex (Z.pos my) ey)
    as [[mz ez] lz].
  rewrite <- negb_xorb_r. apply binary_round_aux_negb.
Qed.

Lemma vdivs_neg (a : Vec3) (k : float) : (a /^ (- k)%f32)%v3 = (- (a /^ k))%v3.
Proof. unfold vdivs, vneg. simpl. rewrite !div_neg_r. reflexivity. Qed.

Lemma Sphere_record_negated (s : Sphere) (ray : Ray) (t : float) :
  Sphere_record (negated s) ray t = flip_normal (Sphere_record s ray t).
Proof. unfold Sphere_record, flip_normal. simpl. rewrite vdivs_neg. reflexivity. Qed.

(** A reported hit carries the record of one root. *)
Lemma Sphere_Hit_true (s : Sphere) (ray : Ray) (tMin tMax : float)
    (rec rec' : HitRecord) :
  Sphere_Hit s ray tMin tMax rec = (true, rec') ->
  exists t, rec' = Sphere_record s ray t /\ inside tMin tMax t = true.
Proof.
  unfold Sphere_Hit. cbv zeta. rewrite !inside_source_order. intros H.
  repeat match type of H with
  | (if ?c then _ else _) = _ => destruct c eqn:?
  end; inversion H; subst; eauto.
Qed.

(** C3.  The normal of every record the sphere test returns is
    [(hitPoint - center) / radius], the radius taken with its sign; and the
    sphere with the radius negated is hit exactly when the sphere is, at
    the same [t] and point, with the exactly negated normal. *)
Theorem C3_sphere_normal_signed_radius (s : Sphere) (ray : Ray)
    (tMin tMax : float) (rec : HitRecord) :
  (forall rec', Sphere_Hit s ray tMin tMax rec = (true, rec') ->
     m_oPoint rec' = PointAtParamenter ray (m_fT rec') /\
     m_oNormal rec' = ((m_oPoint rec' - m_oCenter s) /^ m_fRadius s)%v3) /\
  Sphere_Hit (negated s) ray tMin tMax rec
  = (let '(b, h) := Sphere_Hit s ray tMin tMax rec in
     if b then (true, flip_normal h) else (false, rec)).
Proof.
  split.
  - intros rec' H.
    destruct (Sphere_Hit_true _ _ _ _ _ _ H) as (t & -> & _).
    split; reflexivity.
  - unfold Sphere_Hit. cbn [m_oCenter m_fRadius negated].
    rewrite mul_neg_neg.
    repeat match goal with
    | |- context [if ?c then _ else _] => destruct c
    end; try reflexivity; rewrite Sphere_record_negated; reflexivity.
Qed.

(** The sphere of radius 1 five units ahead is hit at [t = 4] with the
    normal [(0, 0, 1)]; with radius [-1] the normal is [-(0, 0, 1)]. *)
Lemma C3_witness :
  m_oNormal (snd (Sphere_Hit unit_sphere_ahead ray_z f0_001 F32.FLT_MAX rec0))
  = v3 0 0 1 /\
  m_oNormal (snd (Sphere_Hit (negated unit_sphere_ahead) ray_z f0_001 F32.FLT_MAX rec0))
  = (- v3 0 0 1)%v3.
Proof.
  pose proof (C3_sphere_normal_signed_radius unit_sphere_ahead ray_z
                f0_001 F32.FLT_MAX rec0) as [Hn Hneg].
  split.
  - destruct (Hn (snd (Sphere_Hit unit_sphere_ahead ray_z f0_001 F32.FLT_MAX rec0)))
      as [_ ->]; [vm_compute; reflexivity | vm_compute; reflexivity].
  - rewrite Hneg. vm_compute. reflexivity.
Defined.

(** *** Degenerate geometry *)

Lemma mul_zero_r (x : float) (s : bool) : zero_or_nan (x * S754_zero s)%f32 = true.
Proof. destruct x; reflexivity. Qed.

Lemma mul_zero_or_nan_l (x y : float) :
  zero_or_nan x = true -> zero_or_nan (x * y)%f32 = true.
Proof. destruct x, y; try discriminate; reflexivity. Qed.

Lemma add_zero_or_nan (x y : float) :
  zero_or_nan x = true -> zero_or_nan y = true -> zero_or_nan (x + y)%f32 = true.
Proof.
  destruct x as [[]| | |], y as [[]| | |]; try discriminate; reflexivity.
Qed.

Lemma sub_zero_or_nan (x y : float) :
  zero_or_nan x = true -> zero_or_nan y = true -> zero_or_nan (x - y)%f32 = true.
Proof.
  destruct x as [[]| | |], y as [[]| | |]; try discriminate; reflexivity.
Qed.

Lemma zero_or_nan_not_pos (x : float) :
  zero_or_nan x = true -> (x >? f0_0)%f32 = false.
Proof. destruct x; try discriminate; reflexivity. Qed.

Lemma Dot_zero_r (u : Vec3) (sx sy sz : bool) :
  zero_or_nan (Dot u (mkVec3 (S754_zero sx) (S754_zero sy) (S754_zero sz))) = true.
Proof.
  unfold Dot. cbn [GetX GetY GetZ].
  repeat apply add_zero_or_nan; apply mul_zero_r.
Qed.

(** A quotient by zero is an infinity or a NaN. *)
Lemma div_zero_r_not_finite (x : float) (s : bool) :
  F32.is_finite (x / S754_zero s)%f32 = false.
Proof. destruct x; reflexivity. Qed.

(** C9 (as amended).  A ray whose direction is the zero vector hits no
    sphere, whatever the interval, and the record is left alone.  A sphere
    of radius zero has no test of its own: when rounding makes the
    discriminant positive a hit is reported, and then no component of its
    normal is finite. *)
Theorem C9_degenerate_geometry (s : Sphere) (o : Vec3) (sx sy sz : bool)
    (ray : Ray) (sr : bool) (tMin tMax : float) (rec : HitRecord) :
  Sphere_Hit s (mkRay o (mkVec3 (S754_zero sx) (S754_zero sy) (S754_zero sz)))
    tMin tMax rec = (false, rec) /\
  (m_fRadius s = S754_zero sr ->
   forall rec', Sphere_Hit s ray tMin tMax rec = (true, rec') ->
     F32.is_finite (GetX (m_oNormal rec')) = false /\
     F32.is_finite (GetY (m_oNormal rec')) = false /\
     F32.is_finite (GetZ (m_oNormal rec')) = false).
Proof.
  split.
  - unfold Sphere_Hit. cbn [Origin Direction].
    set (d := mkVec3 (S754_zero sx) (S754_zero sy) (S754_zero sz)).
    set (oc := (o - m_oCenter s)%v3).
    rewrite zero_or_nan_not_pos; [reflexivity|].
    apply sub_zero_or_nan.
    + apply mul_zero_or_nan_l. apply Dot_zero_r.
    + apply mul_zero_or_nan_l. apply Dot_zero_r.
  - intros Hr rec' H.
    destruct (Sphere_Hit_true _ _ _ _ _ _ H) as (t & -> & _).
    unfold Sphere_record. cbn [m_oNormal]. rewrite Hr.
    cbn [vdivs GetX GetY GetZ]. rewrite !div_zero_r_not_finite. auto.
Qed.

(** The ray from [(-10, 0, 0)] with direction [(0.7f, 0, 0)] and the
    sphere of radius zero at the origin: [b = -7] exactly after rounding,
    [a = 0.7f * 0.7f] rounds below 0.49 and [c = 100], so the discriminant
    [49 - a * c] is positive and a hit is reported. *)
Lemma C9_witness :
  Sphere_Hit (mkSphere (v3 1 2 3) (F32.of_Z 1) grey)
    (mkRay (v3 0 0 0) (mkVec3 f0_0 f0_0 f0_0)) f0_001 F32.FLT_MAX rec0
  = (false, rec0) /\
  F32.is_finite (GetX (m_oNormal
    (snd (Sphere_Hit point_sphere ray_to_origin f0_001 F32.FLT_MAX rec0)))) = false.
Proof.
  split.
  - exact (proj1 (C9_degenerate_geometry (mkSphere (v3 1 2 3) (F32.of_Z 1) grey)
                    (v3 0 0 0) false false false ray_z false f0_001 F32.FLT_MAX rec0)).
  - refine (proj1 (proj2 (C9_degenerate_geometry point_sphere (v3 0 0 0) false false
                    false ray_to_origin false f0_001 F32.FLT_MAX rec0) _ _ _)).
    + reflexivity.
    + vm_compute. reflexivity.
Defined.

(** C9 as stated fails for the radius: the sphere of radius zero is
    reported hit, with a normal that is not finite. *)
Lemma C9_counterexample :
  m_fRadius point_sphere = f0_0 /\
  fst (Sphere_Hit point_sphere ray_to_origin f0_001 F32.FLT_MAX rec0) = true /\
  m_oNormal (snd (Sphere_Hit point_sphere ray_to_origin f0_001 F32.FLT_MAX rec0))
  = mkVec3 (S754_infinity true) S754_nan S754_nan.
Proof. vm_compute. auto. Qed.

(** ** Metal::Metal *)

(** C8 (as amended).  The fuzz stored by the constructor is the given
    value when that is below 1 and is 1.0 otherwise (also for a NaN); it
    is never above 1, and there is no lower clamp. *)
Theorem C8_metal_fuzz_at_most_one (a_oVecIn : Vec3) (a_fFuzz : float) :
  exists fz, Metal_fuzz (Metal a_oVecIn a_fFuzz) = Some fz /\
    fz = (if (a_fFuzz <? f1_0)%f32 then a_fFuzz else f1_0) /\
    (fz <=? f1_0)%f32 = true.
Proof.
  eexists. split; [reflexivity|]. split; [reflexivity|].
  change (F32.of_Z 1) with f1_0.
  destruct (a_fFuzz <? f1_0)%f32 eqn:H.
  - apply ltb_leb, H.
  - reflexivity.
Qed.

(** C8 as stated fails at both ends: the fuzz 2.0 is stored as 1.0, which
    is not below 1, and the fuzz -2.0 is stored as it is. *)
Lemma C8_counterexample :
  (Metal_fuzz (Metal black f2_0) = Some f1_0 /\ (f1_0 <? f1_0)%f32 = false) /\
  (Metal_fuzz (Metal black (- f2_0)%f32) = Some (- f2_0)%f32 /\
   (f0_0 <=? - f2_0)%f32 = false).
Proof. vm_compute. auto. Qed.

(** ** The path integrators *)

Lemma sky_is_lerp (ray : Ray) :
  sky ray
  = lerp white skyBlue (f0_5 * (GetY (Unit_Vector (Direction ray)) + f1_0))%f32.
Proof. reflexivity. Qed.

(** The recursion of [ColorOptimized] as the source writes it. *)
Lemma ColorOptimized_unfold (u : HitRecord) (ray : Ray) (world : Hittable)
    (depth max_depth st : Z) :
  ColorOptimized u ray world depth max_depth st
  = if depth >=? max_depth then (black, st)
    else
      let '(hit, rec) := Hit u world ray f0_001 F32.FLT_MAX u in
      if hit then
        let '(rnd, st') := FastRandom_vec3 st in
        let target := (m_oPoint rec + m_oNormal rec + rnd)%v3 in
        let '(c, st'') :=
          ColorOptimized u (mkRay (m_oPoint rec) (target - m_oPoint rec)%v3)
            world (depth + 1) max_depth st' in
        ((f0_5 *^ c)%v3, st'')
      else (sky ray, st).
Proof.
  unfold ColorOptimized.
  destruct (depth >=? max_depth) eqn:Hd.
  - destruct (Z.to_nat (max_depth - depth)); simpl; rewrite Hd; reflexivity.
  - assert (Hlt : depth < max_depth) by lia.
    replace (Z.to_nat (max_depth - depth))
      with (S (Z.to_nat (max_depth - (depth + 1)))) by lia.
    simpl. rewrite Hd. reflexivity.
Qed.

(** C6 (as amended).  [ColorOptimized] returns black whenever the depth
    limit is reached, hit or no hit, and below the limit returns the sky
    gradient [lerp(white, skyBlue, 0.5 * (unitDirection.y + 1))] for a ray
    that hits nothing.  [Color] returns the sky gradient for every ray that
    hits nothing, at any depth, and returns black for a ray that hits
    something at depth 50 or more. *)
Theorem C6_path_integrator_terminals (RandState : Type)
    (std_rand : RandState -> Z * RandState) (RAND_MAX : Z)
    (c_pow : double -> double -> double) (u : HitRecord) (uv : Vec3)
    (ray : Ray) (world : Hittable) (depth max_depth : Z) (st : Z)
    (fuel : nat) (rst : RandState) :
  let blend :=
    lerp white skyBlue (f0_5 * (GetY (Unit_Vector (Direction ray)) + f1_0))%f32 in
  let hit := fst (Hit u world ray f0_001 F32.FLT_MAX u) in
  (max_depth <= depth -> ColorOptimized u ray world depth max_depth st = (black, st)) /\
  (depth < max_depth -> hit = false ->
   ColorOptimized u ray world depth max_depth st = (blend, st)) /\
  (hit = false ->
   Color RandState std_rand RAND_MAX c_pow u uv (S fuel) ray world depth rst
   = Some (blend, rst)) /\
  (hit = true -> 50 <= depth ->
   Color RandState std_rand RAND_MAX c_pow u uv (S fuel) ray world depth rst
   = Some (black, rst)).
Proof.
  intros blend hit. subst blend hit. rewrite <- sky_is_lerp.
  repeat split.
  - intros Hd. rewrite ColorOptimized_unfold.
    destruct (depth >=? max_depth) eqn:E; [reflexivity | lia].
  - intros Hd Hh. rewrite ColorOptimized_unfold.
    destruct (depth >=? max_depth) eqn:E; [lia|].
    destruct (Hit u world ray f0_001 F32.FLT_MAX u) as [b rec].
    simpl in Hh. subst b. reflexivity.
  - intros Hh. simpl.
    destruct (Hit u world ray f0_001 F32.FLT_MAX u) as [b rec].
    simpl in Hh. subst b. reflexivity.
  - intros Hh Hd. simpl.
    destruct (Hit u world ray f0_001 F32.FLT_MAX u) as [b rec].
    simpl in Hh. subst b.
    destruct (depth <? 50) eqn:E; [lia | reflexivity].
Qed.

(** In the empty scene the ray straight up gets black at the depth limit
    and sky blue below it from [ColorOptimized], and sky blue from [Color];
    a ray that hits the unit sphere gets black from [Color] at depth 50. *)
Lemma C6_witness :
  ColorOptimized rec0 ray_up empty_world 6 6 1 = (black, 1) /\
  ColorOptimized rec0 ray_up empty_world 0 6 1 = (skyBlue, 1) /\
  Color unit rand_half 32767 pow_any rec0 black 1 ray_up empty_world 0 tt
  = Some (skyBlue, tt) /\
  Color unit rand_half 32767 pow_any rec0 black 1 ray_z (HSphere unit_sphere_ahead) 50 tt
  = Some (black, tt).
Proof.
  pose proof (C6_path_integrator_terminals unit rand_half 32767 pow_any rec0 black
                ray_up empty_world 6 6 1 0 tt) as (H1 & _).
  pose proof (C6_path_integrator_terminals unit rand_half 32767 pow_any rec0 black
                ray_up empty_world 0 6 1 0 tt) as (_ & H2 & H3 & _).
  pose proof (C6_path_integrator_terminals unit rand_half 32767 pow_any rec0 black
                ray_z (HSphere unit_sphere_ahead) 50 6 1 0 tt) as (_ & _ & _ & H4).
  split; [apply H1; lia|].
  split; [rewrite H2; [vm_compute; reflexivity | lia | reflexivity]|].
  split; [rewrite H3; [vm_compute; reflexivity | reflexivity]|].
  apply H4; [vm_compute; reflexivity | lia].
Defined.

(** C6 as stated fails where its two conditions meet: at the depth limit
    a ray that hits nothing gets black from [ColorOptimized], not the sky
    gradient, and gets the sky gradient from [Color], not black. *)
Lemma C6_counterexample :
  fst (Hit rec0 empty_world ray_up f0_001 F32.FLT_MAX rec0) = false /\
  sky ray_up = skyBlue /\ skyBlue <> black /\
  fst (ColorOptimized rec0 ray_up empty_world 6 6 1) = black /\
  Color unit rand_half 32767 pow_any rec0 black 1 ray_up empty_world 50 tt
  = Some (skyBlue, tt).
Proof.
  split; [reflexivity|]. split; [vm_compute; reflexivity|].
  split; [intros H; vm_compute in H; discriminate|].
  split; vm_compute; reflexivity.
Qed.

(** ** HittableList::Hit *)

Lemma HittableList_Hit_nil (u : HitRecord) (ray : Ray) (tMin tMax : float)
    (rec : HitRecord) :
  HittableList_Hit u [] ray tMin tMax rec = (false, rec).
Proof. reflexivity. Qed.

(** C10.  The aggregate of size zero reports no hit and returns the
    caller's record as it got it; so in the scene that is an empty
    aggregate [Color] returns the sky gradient for every ray, at every
    depth, and so does [ColorOptimized] below its depth limit. *)
Theorem C10_empty_aggregate (RandState : Type)
    (std_rand : RandState -> Z * RandState) (RAND_MAX : Z)
    (c_pow : double -> double -> double) (u : HitRecord) (uv : Vec3)
    (ray : Ray) (tMin tMax : float) (rec : HitRecord)
    (fuel : nat) (depth max_depth st : Z) (rst : RandState) :
  let blend :=
    lerp white skyBlue (f0_5 * (GetY (Unit_Vector (Direction ray)) + f1_0))%f32 in
  HittableList_Hit u [] ray tMin tMax rec = (false, rec) /\
  Hit u (HList []) ray tMin tMax rec = (false, rec) /\
  Color RandState std_rand RAND_MAX c_pow u uv (S fuel) ray (HList []) depth rst
  = Some (blend, rst) /\
  (depth < max_depth ->
   ColorOptimized u ray (HList []) depth max_depth st = (blend, st)).
Proof.
  intros blend. subst blend. rewrite <- sky_is_lerp.
  split; [apply HittableList_Hit_nil|].
  split; [reflexivity|].
  split; [reflexivity|].
  intros Hd. rewrite ColorOptimized_unfold.
  destruct (depth >=? max_depth) eqn:E; [lia | reflexivity].
Qed.

(** In the empty scene the ray straight up is sky blue at depth 0. *)
Lemma C10_witness :
  ColorOptimized rec0 ray_up empty_world 0 8 1 = (skyBlue, 1).
Proof.
  destruct (C10_empty_aggregate unit rand_half 32767 pow_any rec0 black ray_up
              f0_001 F32.FLT_MAX rec0 0 0 8 1 tt) as (_ & _ & _ & H).
  unfold empty_world. rewrite H; [vm_compute; reflexivity | lia].
Defined.

(** ** create_tiles *)

Section Tiling.

Variables image_width image_height samples tile_size : Z.
Hypothesis tile_size_pos : 0 < tile_size.

Lemma covering_app (l1 l2 : list RenderTile) (px py : Z) :
  covering (l1 ++ l2) px py = (covering l1 px py + covering l2 px py)%nat.
Proof. induction l1 as [|t l1 IH]; simpl; [reflexivity | rewrite IH; lia]. Qed.

(** One row of tiles: from column [x] on, the tiles appended cover the
    pixels of the band [y <= py < y + tile_height] right of [x] once. *)
Lemma create_tiles_row_spec (fuel : nat) (y : Z) :
  0 <= y -> y < image_height ->
  forall (x : Z) (acc : list RenderTile),
    0 <= x -> image_width - x <= Z.of_nat fuel ->
    exists row,
      create_tiles_row fuel image_width image_height samples tile_size y x acc
      = Some (acc ++ row) /\
      Forall (clipped_tile image_width image_height samples tile_size) row /\
      forall px py,
        covering row px py
        = if (x <=? px) && (px <? image_width) && (y <=? py) &&
             (py <? y + Z.min tile_size (image_height - y))
          then 1%nat else 0%nat.
Proof.
  intros Hy0 Hy. induction fuel as [|fuel IH]; intros x acc Hx Hfuel.
  - exists []. simpl. destruct (x <? image_width) eqn:E; [lia|].
    rewrite app_nil_r. repeat split; [constructor|].
    intros px py. destruct (x <=? px) eqn:?, (px <? image_width) eqn:?; simpl; try reflexivity; lia.
  - simpl. destruct (x <? image_width) eqn:E.
    + destruct (IH (x + tile_size)
                  (acc ++ [mkRenderTile x y (Z.min tile_size (image_width - x))
                             (Z.min tile_size (image_height - y)) samples]))
        as (row & Hrow & Hok & Hcov); [lia | lia |].
      exists (mkRenderTile x y (Z.min tile_size (image_width - x))
                (Z.min tile_size (image_height - y)) samples :: row).
      rewrite Hrow, <- app_assoc. repeat split.
      * constructor; [|exact Hok]. unfold clipped_tile. simpl. lia.
      * intros px py. simpl. rewrite Hcov. unfold in_tile. simpl.
        destruct (x <=? px) eqn:?, (px <? image_width) eqn:?,
                 (px <? x + Z.min tile_size (image_width - x)) eqn:?,
                 (x + tile_size <=? px) eqn:?,
                 (y <=? py) eqn:?,
                 (py <? y + Z.min tile_size (image_height - y)) eqn:?;
          simpl; try reflexivity; lia.
    + exists []. rewrite app_nil_r. repeat split; [constructor|].
      intros px py. destruct (x <=? px) eqn:?, (px <? image_width) eqn:?; simpl; try reflexivity; lia.
Qed.

(** The rows: from row [y] on, the tiles appended cover the pixels of the
    image below [y] once. *)
Lemma create_tiles_rows_spec (fuel : nat) :
  forall (y : Z) (acc : list RenderTile),
    0 <= y -> image_height - y <= Z.of_nat fuel ->
    exists rows,
      create_tiles_rows fuel image_width image_height samples tile_size y acc
      = Some (acc ++ rows) /\
      Forall (clipped_tile image_width image_height samples tile_size) rows /\
      forall px py,
        covering rows px py
        = if (0 <=? px) && (px <? image_width) && (y <=? py) && (py <? image_height)
          then 1%nat else 0%nat.
Proof.
  induction fuel as [|fuel IH]; intros y acc Hy Hfuel.
  - exists []. simpl. destruct (y <? image_height) eqn:E; [lia|].
    rewrite app_nil_r. repeat split; [constructor|].
    intros px py.
    destruct (0 <=? px), (px <? image_width), (y <=? py) eqn:?, (py <? image_height) eqn:?;
      simpl; try reflexivity; lia.
  - simpl. destruct (y <? image_height) eqn:E.
    + destruct (create_tiles_row_spec (Z.to_nat image_width) y Hy ltac:(lia) 0 acc)
        as (row & Hrow & Hok & Hcov); [lia | lia |].
      rewrite Hrow.
      destruct (IH (y + tile_size) (acc ++ row)) as (rows & Hrows & Hoks & Hcovs);
        [lia | lia |].
      exists (row ++ rows). rewrite Hrows, <- app_assoc. repeat split.
      * apply Forall_app; split; assumption.
      * intros px py. rewrite covering_app, Hcov, Hcovs.
        destruct (0 <=? px) eqn:?, (px <? image_width) eqn:?,
                 (y <=? py) eqn:?, (py <? image_height) eqn:?,
                 (py <? y + Z.min tile_size (image_height - y)) eqn:?,
                 (y + tile_size <=? py) eqn:?;
          simpl; try reflexivity; lia.
    + exists []. rewrite app_nil_r. repeat split; [constructor|].
      intros px py.
      destruct (0 <=? px), (px <? image_width), (y <=? py) eqn:?, (py <? image_height) eqn:?;
        simpl; try reflexivity; lia.
Qed.

End Tiling.

(** Two different tiles of a list that covers no pixel twice share no
    pixel. *)
Lemma covering_disjoint (tiles : list RenderTile) (px py : Z) :
  (covering tiles px py <= 1)%nat ->
  forall (i j : nat) (t1 t2 : RenderTile),
    i <> j -> tiles !! i = Some t1 -> tiles !! j = Some t2 ->
    in_tile t1 px py = true -> in_tile t2 px py = true -> False.
Proof.
  assert (Hin : forall l (k : nat) (t : RenderTile),
             l !! k = Some t -> in_tile t px py = true ->
             (1 <= covering l px py)%nat).
  { induction l as [|a l IH]; intros [|k] t Hk Ht; simpl in *; try discriminate.
    - injection Hk as ->. rewrite Ht. lia.
    - specialize (IH k t Hk Ht). lia. }
  induction tiles as [|a l IH]; intros Hc i j t1 t2 Hij H1 H2 Hi1 Hi2.
  - discriminate.
  - simpl in Hc. destruct i as [|i], j as [|j]; simpl in *.
    + congruence.
    + injection H1 as ->. rewrite Hi1 in Hc.
      pose proof (Hin l j t2 H2 Hi2). lia.
    + injection H2 as ->. rewrite Hi2 in Hc.
      pose proof (Hin l i t1 H1 Hi1). lia.
    + apply (IH ltac:(lia) i j t1 t2); auto.
Qed.

(** [create_tiles] terminates for a positive tile size, and each pixel
    is in one tile or in none according as it is in the image. *)
Lemma create_tiles_covering (image_width image_height samples tile_size : Z) :
  0 < tile_size ->
  exists tiles,
    create_tiles image_width image_height samples tile_size = Some tiles /\
    (forall px py,
       covering tiles px py
       = if in_image image_width image_height px py then 1%nat else 0%nat) /\
    Forall (clipped_tile image_width image_height samples tile_size) tiles.
Proof.
  intros Hts. unfold create_tiles.
  destruct (create_tiles_rows_spec image_width image_height samples tile_size Hts
              (Z.to_nat image_height) 0 []) as (tiles & Hrun & Hok & Hcov);
    [lia | lia |].
  exists tiles. simpl in Hrun. split; [exact Hrun|]. split; [|exact Hok].
  intros px py. rewrite Hcov. reflexivity.
Qed.



(** ** The tile workers *)

Lemma for_each_app {A S : Type} (body : A -> S -> option (bool * S))
    (l1 l2 : list A) (st : S) :
  for_each body (l1 ++ l2) st
  = match for_each body l1 st with
    | Some (false, st') => for_each body l2 st'
    | r => r
    end.
Proof.
  revert st. induction l1 as [|a l1 IH]; intros st; simpl; [reflexivity|].
  destruct (body a st) as [[[] st']|]; auto.
Qed.

Lemma for_each_fmap {B C S : Type} (g : B -> C)
    (body : C -> S -> option (bool * S)) (l : list B) (st : S) :
  for_each (fun b => body (g b)) l st = for_each body (g <$> l) st.
Proof.
  revert st. induction l as [|b l IH]; intros st; simpl; [reflexivity|].
  destruct (body (g b) st) as [[[] st']|]; auto.
Qed.

(** Two nested loops are one loop over the concatenation. *)
Lemma for_each_bind {A C S : Type} (f : A -> list C)
    (body : C -> S -> option (bool * S)) (l : list A) (st : S) :
  for_each (fun a => for_each body (f a)) l st = for_each body (l ≫= f) st.
Proof.
  revert st. induction l as [|a l IH]; intros st; [reflexivity|].
  rewrite bind_cons, for_each_app. cbn [for_each].
  destruct (for_each body (f a) st) as [[[] st']|]; auto.
Qed.

Lemma for_each_ext {A S : Type} (body1 body2 : A -> S -> option (bool * S))
    (l : list A) (st : S) :
  (forall a s, body1 a s = body2 a s) ->
  for_each body1 l st = for_each body2 l st.
Proof.
  intros E. revert st. induction l as [|a l IH]; intros st; simpl; [reflexivity|].
  rewrite E. destruct (body2 a st) as [[[] st']|]; auto.
Qed.

(** A loop whose body, when it does not return, stores one colour at the
    index of its pixel: if the indices are pairwise different and the loop
    completes, every entry of the buffer that is not a pixel of the list
    is as before, and every pixel of the list holds at the end the colour
    stored for it when the loop reached it. *)
Lemma for_each_stores {J W : Type} (pix : W -> list Vec3) (idx : J -> Z)
    (Q : J -> W -> Vec3 -> Prop) (body : J -> W -> option (bool * W)) :
  (forall a w w', body a w = Some (false, w') ->
     0 <= idx a < Z.of_nat (length (pix w)) /\
     exists col, Q a w col /\ pix w' = <[Z.to_nat (idx a) := col]> (pix w)) ->
  forall js, NoDup (idx <$> js) ->
  forall w w', for_each body js w = Some (false, w') ->
    length (pix w') = length (pix w) /\
    (forall k, 0 <= k -> k ∉ (idx <$> js) ->
       pix w' !! Z.to_nat k = pix w !! Z.to_nat k) /\
    (forall pre a post, js = pre ++ a :: post ->
       exists w0 col,
         for_each body pre w = Some (false, w0) /\
         Q a w0 col /\ pix w' !! Z.to_nat (idx a) = Some col).
Proof.
  intros Hbody. induction js as [|a js IH]; intros Hnd w w' H; simpl in H.
  - injection H as <-. repeat split; auto.
    intros [|x pre] b post E; discriminate E.
  - destruct (body a w) as [[[] w1]|] eqn:Ha; try discriminate.
    destruct (Hbody _ _ _ Ha) as (Hidx & col & HQ & Hw1).
    rewrite fmap_cons in Hnd. apply NoDup_cons in Hnd as [Hnotin Hnd].
    destruct (IH Hnd _ _ H) as (Hlen & Hframe & Hall).
    split; [rewrite Hlen, Hw1; apply length_insert|].
    split.
    + intros k Hk Hnk. rewrite fmap_cons, not_elem_of_cons in Hnk.
      destruct Hnk as [Hne Hnk]. rewrite (Hframe k Hk Hnk), Hw1.
      apply list_lookup_insert_ne. lia.
    + intros [|x pre] b post E; simpl in E; injection E as <- E.
      * exists w, col. split; [reflexivity|]. split; [exact HQ|].
        rewrite (Hframe (idx a) ltac:(lia) Hnotin), Hw1.
        apply list_lookup_insert_eq. lia.
      * destruct (Hall pre b post E) as (w0 & colb & Hrun & Hb & Hpx).
        exists w0, colb. simpl. rewrite Ha. auto.
Qed.

Section WorkerProofs.

Variable RandState : Type.
Variable std_rand : RandState -> Z * RandState.
Variable RAND_MAX : Z.
Variable uninit_rec : HitRecord.
Variable Display : Type.
Variable UpdatePixel : Display -> Z -> Z -> Vec3 -> Display.
Variable control : nat -> Flags.

Variable fuel : nat.
Variables nx ny : Z.
Variable camera : Camera.
Variable world : Hittable.

Local Abbreviation Worker := (Worker RandState Display).
Local Abbreviation sample := (sample RandState std_rand RAND_MAX uninit_rec Display fuel nx ny camera world).
Local Abbreviation sample_loop n := (sample_loop RandState std_rand RAND_MAX uninit_rec Display n fuel nx ny camera world).
Local Abbreviation samples_of n := (samples_of RandState std_rand RAND_MAX uninit_rec Display n fuel nx ny camera world).
Local Abbreviation pixel_colour := (pixel_colour RandState std_rand RAND_MAX uninit_rec Display fuel nx ny camera world).

Lemma sample_pixels (max_depth i j : Z) (w w' : Worker) (c : Vec3) :
  sample max_depth i j w = Some (c, w') ->
  pixels w' = pixels w /\ loads w' = loads w.
Proof.
  unfold sample. intros H.
  destruct (FastRandom_random (fast w)) as [r1 f1].
  destruct (FastRandom_random f1) as [r2 f2].
  destruct (GetRay _ _ _ _ _ _ _ _) as [[ray cr]|]; [|discriminate].
  destruct (ColorOptimized _ _ _ _ _ _) as [c0 f3].
  injection H as <- <-. split; reflexivity.
Qed.

(** The sample loop sums the radiance estimates of [samples_of], left to
    right, on top of the starting colour, and leaves the buffer alone. *)
Lemma sample_loop_sum (max_depth i j : Z) (n : nat) :
  forall (col : Vec3) (w : Worker) (col' : Vec3) (w' : Worker),
    sample_loop n max_depth i j col w = Some (col', w') ->
    pixels w' = pixels w /\ loads w' = loads w /\
    exists cs, samples_of n max_depth i j w = Some cs /\
               length cs = n /\ col' = fold_left vadd cs col.
Proof.
  induction n as [|n IH]; intros col w col' w' H; simpl in H.
  - injection H as <- <-. repeat split. exists []. repeat split.
  - destruct (sample max_depth i j w) as [[c w1]|] eqn:Hs; [|discriminate].
    destruct (sample_pixels _ _ _ _ _ _ Hs) as [Hp1 Hl1].
    destruct (IH _ _ _ _ H) as (Hp & Hl & cs & Hcs & Hlen & ->).
    split; [congruence|]. split; [congruence|].
    exists (c :: cs). simpl. rewrite Hs, Hcs. repeat split. lia.
Qed.

Lemma pixel_colour_average (max_depth samples i j : Z) (w w' : Worker) (c : Vec3) :
  pixel_colour max_depth samples i j w = Some (c, w') ->
  pixels w' = pixels w /\ loads w' = loads w /\
  exists cs, samples_of (Z.to_nat samples) max_depth i j w = Some cs /\
             c = gamma (average cs samples).
Proof.
  unfold pixel_colour. intros H.
  destruct (sample_loop _ _ _ _ _ _) as [[col w1]|] eqn:Hl; [|discriminate].
  injection H as <- <-.
  destruct (sample_loop_sum _ _ _ _ _ _ _ _ Hl) as (Hp & Hld & cs & Hcs & _ & ->).
  repeat split; try assumption. exists cs. split; [exact Hcs | reflexivity].
Qed.

(** The radiance estimates depend on the two random states of the worker
    only. *)
Lemma samples_of_state (max_depth i j : Z) (n : nat) :
  forall w1 w2 : Worker,
    fast w1 = fast w2 -> crand w1 = crand w2 ->
    samples_of n max_depth i j w1 = samples_of n max_depth i j w2.
Proof.
  induction n as [|n IH]; intros w1 w2 Hf Hc; simpl; [reflexivity|].
  unfold sample. rewrite Hf, Hc.
  destruct (FastRandom_random (fast w2)) as [r1 f1].
  destruct (FastRandom_random f1) as [r2 f2].
  destruct (GetRay _ _ _ _ _ _ _ _) as [[ray cr]|]; [|reflexivity].
  destruct (ColorOptimized _ _ _ _ _ _) as [c0 f3].
  rewrite (IH _ (mkWorker RandState Display (pixels w2) f3 cr (rays_traced _ _ w2 + 1)
                   (completed_pixels _ _ w2) (loads w2) (display w2)));
    reflexivity.
Qed.

Local Abbreviation optimized_pixel := (optimized_pixel RandState std_rand RAND_MAX uninit_rec Display fuel).
Local Abbreviation run_jobs := (run_jobs_optimized RandState std_rand RAND_MAX uninit_rec Display fuel nx ny camera world).
Local Abbreviation holds := (holds_gamma_average RandState std_rand RAND_MAX uninit_rec Display fuel nx ny camera world 6).

Lemma optimized_pixel_store (tile : RenderTile) (j i : Z) (w w' : Worker) (b : bool) :
  optimized_pixel tile nx ny camera world j i w = Some (b, w') ->
  b = false /\
  0 <= j * nx + i < Z.of_nat (length (pixels w)) /\
  exists cs,
    samples_of (Z.to_nat (samples_per_pixel tile)) 6 i j w = Some cs /\
    pixels w'
    = <[Z.to_nat (j * nx + i) := gamma (average cs (samples_per_pixel tile))]>
        (pixels w).
Proof.
  unfold optimized_pixel. intros H.
  destruct (pixel_colour _ _ _ _ _) as [[col w1]|] eqn:Hc; [|discriminate].
  destruct (pixel_colour_average _ _ _ _ _ _ _ Hc) as (Hp & _ & cs & Hcs & ->).
  unfold store in H. rewrite Hp in H.
  destruct ((0 <=? j * nx + i) && (j * nx + i <? Z.of_nat (length (pixels w))))
    eqn:Hidx; [|discriminate].
  injection H as <- <-. split; [reflexivity|]. split; [lia|].
  exists cs. split; [exact Hcs | reflexivity].
Qed.

(** The pixel loop of the optimized worker over pixels with pairwise
    different indices: it completes, every entry of the buffer that is not
    a pixel of the list is as before, and every pixel of the list holds the
    gamma-corrected average of the samples drawn when the loop reached it. *)
Lemma run_jobs_optimized_spec (js : list (RenderTile * Z * Z)) :
  NoDup (pixel_index nx <$> js) ->
  forall (w w' : Worker) (b : bool),
    run_jobs js w = Some (b, w') ->
    b = false /\
    length (pixels w') = length (pixels w) /\
    (forall k, 0 <= k -> k ∉ (pixel_index nx <$> js) ->
       pixels w' !! Z.to_nat k = pixels w !! Z.to_nat k) /\
    (forall pre job post, js = pre ++ job :: post ->
       exists w0, run_jobs pre w = Some (false, w0) /\ holds (pixels w') w0 job).
Proof.
  intros Hnd w w' b H.
  assert (b = false) as ->.
  { revert w H. unfold run_jobs_optimized.
    induction js as [|[[tile j] i] js IH]; intros w H; simpl in H.
    - congruence.
    - destruct (optimized_pixel tile nx ny camera world j i w) as [[b1 w1]|] eqn:Hpx;
        [|discriminate].
      destruct (optimized_pixel_store _ _ _ _ _ _ Hpx) as (-> & _).
      apply NoDup_cons in Hnd as [_ Hnd]. eauto. }
  split; [reflexivity|].
  apply (for_each_stores pixels (pixel_index nx)
           (fun '(tile, j, i) (w0 : Worker) col =>
              exists cs,
                samples_of (Z.to_nat (samples_per_pixel tile)) 6 i j w0 = Some cs /\
                col = gamma (average cs (samples_per_pixel tile)))) in H;
    [|intros [[tile j] i] w1 w2 Hpx|exact Hnd].
  - destruct H as (Hlen & Hframe & Hall). repeat split; try assumption.
    intros pre [[tile j] i] post E.
    destruct (Hall pre _ post E) as (w0 & col & Hrun & (cs & Hcs & ->) & Hpx).
    exists w0. split; [exact Hrun|]. exists cs. auto.
  - destruct (optimized_pixel_store _ _ _ _ _ _ Hpx) as (_ & Hidx & cs & Hcs & Hw2).
    split; [exact Hidx|]. eexists. split; [|exact Hw2]. eauto.
Qed.

Local Abbreviation render_tile_optimized := (render_tile_optimized RandState std_rand RAND_MAX uninit_rec Display fuel).
Local Abbreviation render_tiles_optimized := (render_tiles_optimized RandState std_rand RAND_MAX uninit_rec Display fuel).

Lemma render_tile_optimized_jobs (tile : RenderTile) (w : Worker) :
  render_tile_optimized tile nx ny camera world w = run_jobs (jobs_of_tile tile) w.
Proof.
  unfold render_tile_optimized, run_jobs_optimized, jobs_of_tile.
  rewrite <- for_each_bind. apply for_each_ext. intros j s.
  rewrite <- for_each_fmap. reflexivity.
Qed.

Lemma render_tiles_optimized_jobs (tiles : list RenderTile) (w : Worker) :
  render_tiles_optimized tiles nx ny camera world w = run_jobs (jobs tiles) w.
Proof.
  unfold render_tiles_optimized, jobs.
  unfold run_jobs_optimized. rewrite <- for_each_bind.
  apply for_each_ext. intros tile s. apply render_tile_optimized_jobs.
Qed.

End WorkerProofs.

(** *** The pixels of the tiles *)

Lemma elem_of_jobs_of_tile (tile t : RenderTile) (j i : Z) :
  (t, j, i) ∈ jobs_of_tile tile <-> t = tile /\ in_tile tile i j = true.
Proof.
  unfold jobs_of_tile, in_tile. rewrite list_elem_of_bind. split.
  - intros (j' & Hin & Hj). apply list_elem_of_fmap in Hin as (i' & Heq & Hi).
    injection Heq as -> -> ->.
    apply elem_of_seqZ in Hj. apply elem_of_seqZ in Hi.
    split; [reflexivity|].
    repeat (apply andb_true_intro; split); lia.
  - intros [-> H]. repeat (apply andb_prop in H as [H ?]).
    exists j. split.
    + apply list_elem_of_fmap. exists i. split; [reflexivity|].
      apply elem_of_seqZ. lia.
    + apply elem_of_seqZ. lia.
Qed.

Lemma NoDup_jobs_of_tile (tile : RenderTile) : NoDup (jobs_of_tile tile).
Proof.
  unfold jobs_of_tile. apply NoDup_bind.
  - intros j1 j2 [[t j] i] _ _ H1 H2.
    apply list_elem_of_fmap in H1 as (? & H1 & _).
    apply list_elem_of_fmap in H2 as (? & H2 & _). congruence.
  - intros j _. apply NoDup_fmap_2_strong; [|apply NoDup_seqZ].
    intros i1 i2 _ _ H. congruence.
  - apply NoDup_seqZ.
Qed.

Lemma covering_elem (tiles : list RenderTile) (px py : Z) :
  (1 <= covering tiles px py)%nat <->
  exists t, t ∈ tiles /\ in_tile t px py = true.
Proof.
  induction tiles as [|a l IH]; simpl.
  - split; [lia|]. intros (t & Ht & _). inversion Ht.
  - split.
    + destruct (in_tile a px py) eqn:Ha.
      * intros _. exists a. split; [left | exact Ha].
      * intros H. destruct (proj1 IH ltac:(lia)) as (t & Ht & Hin).
        exists t. split; [right; exact Ht | exact Hin].
    + intros (t & Ht & Hin). apply elem_of_cons in Ht as [->|Ht].
      * rewrite Hin. lia.
      * assert (1 <= covering l px py)%nat by (apply IH; eauto). lia.
Qed.

Lemma pixel_index_inj (nx j1 i1 j2 i2 : Z) :
  0 <= i1 < nx -> 0 <= i2 < nx -> j1 * nx + i1 = j2 * nx + i2 ->
  j1 = j2 /\ i1 = i2.
Proof.
  intros H1 H2 H.
  assert (j1 = j2).
  { destruct (Z.lt_trichotomy j1 j2) as [Hlt|[Heq|Hgt]]; [|exact Heq|]; exfalso; nia. }
  subst. lia.
Qed.

(** Tiles that are not empty and cover no pixel twice: the indices
    [j * nx + i] of their pixels are pairwise different when every tile
    lies between the columns 0 and [nx]. *)
Lemma NoDup_pixel_index_jobs (nx : Z) (tiles : list RenderTile) :
  (forall px py, (covering tiles px py <= 1)%nat) ->
  Forall (fun t => 0 <= x_start t /\ x_start t + width t <= nx /\
                   0 < width t /\ 0 < height t) tiles ->
  NoDup (pixel_index nx <$> jobs tiles).
Proof.
  intros Hcov Hok.
  assert (Hnd : NoDup tiles).
  { revert Hcov Hok. induction tiles as [|a l IH]; intros Hcov Hok.
    - constructor.
    - apply Forall_cons in Hok as [Ha Hok]. constructor.
      + intros Hin.
        assert (Hself : in_tile a (x_start a) (y_start a) = true).
        { unfold in_tile. repeat (apply andb_true_intro; split); lia. }
        assert (1 <= covering l (x_start a) (y_start a))%nat
          by (apply covering_elem; eauto).
        specialize (Hcov (x_start a) (y_start a)). simpl in Hcov.
        rewrite Hself in Hcov. lia.
      + apply IH; [|exact Hok]. intros px py.
        specialize (Hcov px py). simpl in Hcov. lia. }
  apply NoDup_fmap_2_strong.
  - intros [[t1 j1] i1] [[t2 j2] i2] H1 H2 Hidx. simpl in Hidx.
    apply list_elem_of_bind in H1 as (a1 & H1 & Ha1).
    apply list_elem_of_bind in H2 as (a2 & H2 & Ha2).
    apply elem_of_jobs_of_tile in H1 as [-> H1].
    apply elem_of_jobs_of_tile in H2 as [-> H2].
    rewrite Forall_forall in Hok.
    pose proof (Hok _ Ha1) as B1. pose proof (Hok _ Ha2) as B2.
    assert (Hi1 : 0 <= i1 < nx).
    { unfold in_tile in H1. repeat (apply andb_prop in H1 as [H1 ?]). lia. }
    assert (Hi2 : 0 <= i2 < nx).
    { unfold in_tile in H2. repeat (apply andb_prop in H2 as [H2 ?]). lia. }
    destruct (pixel_index_inj nx j1 i1 j2 i2 Hi1 Hi2 Hidx) as [-> ->].
    f_equal. f_equal.
    destruct (list_elem_of_lookup_1 _ _ Ha1) as [k1 Hk1].
    destruct (list_elem_of_lookup_1 _ _ Ha2) as [k2 Hk2].
    destruct (decide (k1 = k2)) as [->|Hne]; [congruence|].
    exfalso. apply (covering_disjoint tiles i2 j2 (Hcov i2 j2) k1 k2 a1 a2); auto.
  - unfold jobs. apply NoDup_bind; [| |exact Hnd].
    + intros a1 a2 [[t j] i] _ _ H1 H2.
      apply elem_of_jobs_of_tile in H1 as [-> _].
      apply elem_of_jobs_of_tile in H2 as [-> _]. reflexivity.
    + intros a _. apply NoDup_jobs_of_tile.
Qed.

Lemma main_sample_loop_sum (RandState : Type) (std_rand : RandState -> Z * RandState)
    (RAND_MAX : Z) (u : HitRecord) (c_pow : double -> double -> double) (uv : Vec3)
    (fuel : nat) (nx ny : Z) (camera : Camera) (world : Hittable) (i j : Z) (n : nat) :
  forall (col : Vec3) (st : RandState) (col' : Vec3) (st' : RandState),
    main_sample_loop RandState std_rand RAND_MAX u c_pow uv n fuel nx ny camera world
      i j col st = Some (col', st') ->
    exists cs,
      main_samples_of RandState std_rand RAND_MAX u c_pow uv n fuel nx ny camera world
        i j st = Some cs /\
      length cs = n /\ col' = fold_left vadd cs col.
Proof.
  induction n as [|n IH]; intros col st col' st' H; simpl in H.
  - injection H as <- <-. exists []. repeat split.
  - simpl.
    destruct (main_sample _ _ _ _ _ _ _ _ _ _ _ _ _ _) as [[c st1]|]; [|discriminate].
    destruct (IH _ _ _ _ H) as (cs & -> & Hlen & ->).
    exists (c :: cs). simpl. repeat split. lia.
Qed.




(** *** Cancellation *)

Section ProgressiveProofs.

Variable RandState : Type.
Variable std_rand : RandState -> Z * RandState.
Variable RAND_MAX : Z.
Variable uninit_rec : HitRecord.
Variable Display : Type.
Variable UpdatePixel : Display -> Z -> Z -> Vec3 -> Display.
Variable control : nat -> Flags.

Variable fuel : nat.
Variables nx ny : Z.
Variable camera : Camera.
Variable world : Hittable.

Local Abbreviation Worker := (Worker RandState Display).
Local Abbreviation progressive_pixel :=
  (progressive_pixel RandState std_rand RAND_MAX uninit_rec Display UpdatePixel control fuel).
Local Abbreviation run_jobs :=
  (run_jobs_progressive RandState std_rand RAND_MAX uninit_rec Display UpdatePixel control
     fuel nx ny camera world).
Local Abbreviation render_tile_progressive :=
  (render_tile_progressive RandState std_rand RAND_MAX uninit_rec Display UpdatePixel
     control fuel).
Local Abbreviation holds :=
  (holds_gamma_average RandState std_rand RAND_MAX uninit_rec Display fuel nx ny camera world 8).

(** When the test observes the flag set, the body returns at once: the
    buffer, the random states, the counters and the display are as they
    were. *)
Lemma progressive_pixel_stop (tile : RenderTile) (j i : Z) (w : Worker) (k : nat) :
  check_stop control fuel (loads w) = Some (true, k) ->
  progressive_pixel tile nx ny camera world j i w
  = Some (true, mkWorker RandState Display (pixels w) (fast w) (crand w)
                  (rays_traced _ _ w) (completed_pixels _ _ w) k (display w)).
Proof. unfold progressive_pixel. intros ->. reflexivity. Qed.

(** When the body does not return, it has stored the gamma-corrected
    average of the samples drawn from the state in which it was entered. *)
Lemma progressive_pixel_store (tile : RenderTile) (j i : Z) (w w' : Worker) :
  progressive_pixel tile nx ny camera world j i w = Some (false, w') ->
  0 <= j * nx + i < Z.of_nat (length (pixels w)) /\
  exists col,
    (exists cs,
       samples_of RandState std_rand RAND_MAX uninit_rec Display
         (Z.to_nat (samples_per_pixel tile)) fuel nx ny camera world 8 i j w = Some cs /\
       col = gamma (average cs (samples_per_pixel tile))) /\
    pixels w' = <[Z.to_nat (j * nx + i) := col]> (pixels w).
Proof.
  unfold progressive_pixel. intros H.
  destruct (check_stop control fuel (loads w)) as [[[] k]|]; try discriminate.
  destruct (pixel_colour _ _ _ _ _ _ _ _ _ _ _ _ _ _ _) as [[col w1]|] eqn:Hc;
    [|discriminate].
  destruct (pixel_colour_average _ _ _ _ _ _ _ _ _ _ _ _ _ _ _ _ _ Hc)
    as (Hp & _ & cs & Hcs & ->).
  simpl in Hp. unfold store in H. rewrite Hp in H.
  destruct ((0 <=? j * nx + i) && (j * nx + i <? Z.of_nat (length (pixels w))))
    eqn:Hidx; [|discriminate].
  injection H as <-. split; [lia|].
  eexists. split; [|reflexivity]. exists cs. split; [|reflexivity].
  rewrite <- Hcs. apply samples_of_state; reflexivity.
Qed.

Lemma render_tile_progressive_jobs (tile : RenderTile) (w : Worker) :
  render_tile_progressive tile nx ny camera world w = run_jobs (jobs_of_tile tile) w.
Proof.
  unfold render_tile_progressive, run_jobs_progressive, jobs_of_tile.
  rewrite <- for_each_bind. apply for_each_ext. intros j s.
  rewrite <- for_each_fmap. reflexivity.
Qed.

End ProgressiveProofs.

Lemma in_tile_index_nonneg (nx : Z) (tile : RenderTile) (j i : Z) :
  0 <= x_start tile -> x_start tile + width tile <= nx -> 0 <= y_start tile ->
  in_tile tile i j = true -> 0 <= j * nx + i.
Proof.
  unfold in_tile. intros Hx Hw Hy H.
  repeat (apply andb_prop in H as [H ?]). nia.
Qed.

Lemma NoDup_pixel_index_tile (nx : Z) (tile : RenderTile) :
  0 <= x_start tile -> x_start tile + width tile <= nx ->
  NoDup (pixel_index nx <$> jobs_of_tile tile).
Proof.
  intros Hx Hw. apply NoDup_fmap_2_strong; [|apply NoDup_jobs_of_tile].
  intros [[t1 j1] i1] [[t2 j2] i2] H1 H2 Hidx. simpl in Hidx.
  apply elem_of_jobs_of_tile in H1 as [-> H1].
  apply elem_of_jobs_of_tile in H2 as [-> H2].
  unfold in_tile in H1, H2.
  repeat (apply andb_prop in H1 as [H1 ?]). repeat (apply andb_prop in H2 as [H2 ?]).
  destruct (pixel_index_inj nx j1 i1 j2 i2 ltac:(lia) ltac:(lia) Hidx) as [-> ->].
  reflexivity.
Qed.

(** C5.  A tile inside the image, its pixels in the order of the loops:
    when the pixels before [(i, j)] have been processed and the test made
    before [(i, j)] observes the stop flag set, [render_tile_progressive]
    returns at that point.  The buffer is the one left by the pixels
    processed: [(i, j)] and every later pixel of the tile hold what they
    held when the worker started, and every earlier pixel holds the
    gamma-corrected average of the samples drawn when the worker reached
    it. *)
Theorem C5_stop_leaves_rest_of_tile (RandState : Type)
    (std_rand : RandState -> Z * RandState) (RAND_MAX : Z) (u : HitRecord)
    (Display : Type) (UpdatePixel : Display -> Z -> Z -> Vec3 -> Display)
    (control : nat -> Flags) (fuel : nat) (nx ny : Z) (camera : Camera)
    (world : Hittable) (tile : RenderTile) (j i : Z)
    (pre post : list (RenderTile * Z * Z)) (w w1 : Worker RandState Display)
    (k : nat) :
  0 <= x_start tile -> x_start tile + width tile <= nx -> 0 <= y_start tile ->
  jobs_of_tile tile = pre ++ (tile, j, i) :: post ->
  run_jobs_progressive RandState std_rand RAND_MAX u Display UpdatePixel control
    fuel nx ny camera world pre w = Some (false, w1) ->
  check_stop control fuel (loads w1) = Some (true, k) ->
  exists w',
    render_tile_progressive RandState std_rand RAND_MAX u Display UpdatePixel control
      fuel tile nx ny camera world w = Some (true, w') /\
    pixels w' = pixels w1 /\
    Forall (fun job => pixels w' !! Z.to_nat (pixel_index nx job)
                       = pixels w !! Z.to_nat (pixel_index nx job))
      ((tile, j, i) :: post) /\
    (forall pre1 job post1, pre = pre1 ++ job :: post1 ->
       exists w0,
         run_jobs_progressive RandState std_rand RAND_MAX u Display UpdatePixel
           control fuel nx ny camera world pre1 w = Some (false, w0) /\
         holds_gamma_average RandState std_rand RAND_MAX u Display fuel nx ny
           camera world 8 (pixels w') w0 job).
Proof.
  intros Hx Hw Hy Hjobs Hpre Hstop.
  pose proof (NoDup_pixel_index_tile nx tile Hx Hw) as Hnd.
  rewrite Hjobs, fmap_app in Hnd. apply NoDup_app in Hnd as (Hnd_pre & Hdisj & _).
  exists (mkWorker RandState Display (pixels w1) (fast w1) (crand w1)
            (rays_traced _ _ w1) (completed_pixels _ _ w1) k (display w1)).
  split; [|split; [reflexivity|]].
  - rewrite render_tile_progressive_jobs, Hjobs.
    unfold run_jobs_progressive in *. rewrite for_each_app, Hpre.
    cbn [for_each]. rewrite (progressive_pixel_stop _ _ _ _ _ _ _ _ _ _ _ _ _ _ _ _ _ Hstop).
    reflexivity.
  - cbn [pixels]. unfold run_jobs_progressive in *.
    apply (for_each_stores pixels (pixel_index nx)
             (fun '(tile, j, i) (w0 : Worker RandState Display) col =>
                exists cs,
                  samples_of RandState std_rand RAND_MAX u Display
                    (Z.to_nat (samples_per_pixel tile)) fuel nx ny camera world 8 i j w0
                  = Some cs /\
                  col = gamma (average cs (samples_per_pixel tile)))) in Hpre;
      [|intros [[t' j'] i'] wa wb Hpx;
        exact (progressive_pixel_store _ _ _ _ _ _ _ _ _ _ _ _ _ _ _ _ _ Hpx)
       |exact Hnd_pre].
    destruct Hpre as (_ & Hframe & Hall). split.
    + apply Forall_forall. intros [[t' j'] i'] Hin.
      apply Hframe.
      * assert (Hjob : (t', j', i') ∈ jobs_of_tile tile)
          by (rewrite Hjobs; apply elem_of_app; right; exact Hin).
        apply elem_of_jobs_of_tile in Hjob as [-> Hjob].
        apply (in_tile_index_nonneg nx tile); assumption.
      * intros Hin_pre. apply (Hdisj _ Hin_pre).
        apply list_elem_of_fmap. exists (t', j', i'). split; [reflexivity | exact Hin].
    + intros pre1 [[t' j'] i'] post1 E.
      destruct (Hall pre1 _ post1 E) as (w0 & col & Hrun & (cs & Hcs & ->) & Hpx).
      exists w0. split; [exact Hrun|]. exists cs. auto.
Qed.

(** A tile of two pixels in a 2 by 1 image; the stop flag is seen at the
    test before the second pixel.  The worker returns with the second pixel
    still black and the first holding the colour of the sample drawn from
    the starting state. *)
Lemma C5_witness :
  exists w',
    render_tile_progressive unit rand_half 32767 rec0 unit no_display
      stop_at_fourth_load 1 (mkRenderTile 0 0 2 1 1) 2 1 camera0 empty_world (worker0 2)
    = Some (true, w') /\
    pixels w' !! 1%nat = Some black /\
    holds_gamma_average unit rand_half 32767 rec0 unit 1 2 1 camera0 empty_world 8
      (pixels w') (worker0 2) (mkRenderTile 0 0 2 1 1, 0, 0) /\
    pixels w' !! 0%nat
    = Some (mkVec3 (S754_finite false 14868884 (-24))
                   (S754_finite false 15660147 (-24)) f1_0).
Proof.
  destruct (C5_stop_leaves_rest_of_tile unit rand_half 32767 rec0 unit no_display
              stop_at_fourth_load 1 2 1 camera0 empty_world (mkRenderTile 0 0 2 1 1)
              0 1 [(mkRenderTile 0 0 2 1 1, 0, 0)] [] (worker0 2)
              (mkWorker unit unit
                 [mkVec3 (S754_finite false 14868884 (-24))
                    (S754_finite false 15660147 (-24)) f1_0; black]
                 1586005467 tt 1 0 2%nat tt) 4%nat)
    as (w' & Hrun & Hpix & Hrest & Hdone).
  - simpl. lia.
  - simpl. lia.
  - simpl. lia.
  - reflexivity.
  - vm_compute. reflexivity.
  - reflexivity.
  - exists w'. split; [exact Hrun|]. rewrite Hpix.
    split; [reflexivity|]. split; [|reflexivity].
    destruct (Hdone [] (mkRenderTile 0 0 2 1 1, 0, 0) [] eq_refl) as (w0 & Hw0 & Hh).
    injection Hw0 as <-. rewrite Hpix in Hh. exact Hh.
Defined.

(** ** The aggregate *)

Section Aggregate.

Context {A : Type}.
Variable hit : A -> Ray -> float -> float -> HitRecord -> bool * HitRecord.
Variable ray : Ray.
Variables tMin tMax : float.
Variable q : A -> option HitRecord.

Local Abbreviation consistent_with := (consistent_with hit ray tMin tMax q).
Local Abbreviation bound_ok := (bound_ok tMin tMax).
Local Abbreviation state_ok := (state_ok tMin tMax).

Lemma pick_bound_ok (st : float * option HitRecord) (m : A) :
  consistent_with m -> bound_ok (fst st) -> bound_ok (fst (pick q st m)).
Proof.
  intros [_ Hin] Hst. unfold pick.
  destruct (q m) as [h|] eqn:Hq; [|exact Hst].
  destruct (m_fT h <? fst st)%f32; [|exact Hst].
  right. apply Hin. reflexivity.
Qed.

(** The loop computes the fold of [pick]. *)
Lemma HittableList_loop_pick (l : list A) :
  Forall consistent_with l ->
  forall (temp : HitRecord) (st : float * option HitRecord) (rec : HitRecord),
    bound_ok (fst st) ->
    HittableList_loop hit ray tMin l temp (bool_decide (is_Some (snd st))) (fst st)
      (snd (result (snd st) rec))
    = result (snd (fold_left (pick q) l st)) rec.
Proof.
  induction 1 as [|m l Hm Hl IH]; intros temp [c r] rec Hc; simpl.
  - destruct r; reflexivity.
  - destruct Hm as [Hhit Hin]. rewrite (Hhit c temp Hc).
    unfold pick at 2. simpl.
    destruct (q m) as [h|] eqn:Hq; simpl.
    + destruct (m_fT h <? c)%f32 eqn:Hlt; simpl.
      * apply (IH h (m_fT h, Some h) rec). right. apply Hin. reflexivity.
      * apply (IH temp (c, r) rec Hc).
    + apply (IH temp (c, r) rec Hc).
Qed.


Lemma inside_not_nan (t : float) : inside tMin tMax t = true -> not_nan t.
Proof.
  unfold inside. intros H. apply andb_prop in H as [H _].
  apply ltb_not_nan in H. tauto.
Qed.

Lemma inside_below_tMax (t : float) : inside tMin tMax t = true -> (t <? tMax)%f32 = true.
Proof. unfold inside. intros H. apply andb_prop in H. tauto. Qed.

(** The fold of [pick] keeps a hit of least [t]: nothing is kept exactly
    when no member has a hit, and the hit kept is the hit of a member, not
    above the hit of any member. *)
Lemma fold_pick_least (l : list A) :
  Forall consistent_with l ->
  forall st, state_ok st ->
    let st' := fold_left (pick q) l st in
    state_ok st' /\
    (snd st' = None -> snd st = None /\ Forall (fun m => q m = None) l) /\
    (forall h', snd st' = Some h' ->
       (snd st = Some h' \/ exists m, m ∈ l /\ q m = Some h') /\
       (forall h, snd st = Some h -> (m_fT h' <=? m_fT h)%f32 = true) /\
       Forall (fun m => forall h, q m = Some h -> (m_fT h' <=? m_fT h)%f32 = true) l).
Proof.
  induction 1 as [|m l Hm Hl IH]; intros st Hst; simpl.
  - split; [exact Hst|]. split; [auto|].
    intros h' Hh'. split; [auto|]. split; [|constructor].
    intros h Hh. rewrite Hh in Hh'. injection Hh' as ->.
    unfold state_ok in Hst. rewrite Hh in Hst. destruct Hst as [_ Hin].
    apply leb_refl. eapply inside_not_nan, Hin.
  - assert (Hst1 : state_ok (pick q st m)).
    { unfold pick. destruct (q m) as [h|] eqn:Hq; [|exact Hst].
      destruct (m_fT h <? fst st)%f32; [|exact Hst].
      unfold state_ok. simpl. split; [reflexivity|]. apply Hm. exact Hq. }
    destruct (IH _ Hst1) as (Hok & Hnone & Hsome). clear IH.
    split; [exact Hok|]. split.
    + intros Hn. destruct (Hnone Hn) as [Hp Hall]. unfold pick in Hp.
      destruct (q m) as [h|] eqn:Hq.
      * destruct (m_fT h <? fst st)%f32 eqn:Hlt; [discriminate|].
        exfalso. unfold state_ok in Hst. rewrite Hp in Hst. rewrite Hst in Hlt.
        rewrite (inside_below_tMax (m_fT h)) in Hlt; [discriminate|].
        apply Hm. exact Hq.
      * split; [exact Hp|]. constructor; assumption.
    + intros h' Hh'. destruct (Hsome h' Hh') as (Hfrom & Hle & Hall). clear Hsome.
      unfold pick in Hfrom, Hle, Hst1.
      destruct (q m) as [h|] eqn:Hq.
      * assert (Hh_in : inside tMin tMax (m_fT h) = true) by (apply Hm; exact Hq).
        destruct (m_fT h <? fst st)%f32 eqn:Hlt; simpl in *.
        -- assert (Hh'h : (m_fT h' <=? m_fT h)%f32 = true) by (apply Hle; reflexivity).
           split; [|split].
           ++ right. destruct Hfrom as [Hfrom|(m' & Hm' & Hq')].
              ** injection Hfrom as <-. exists m. split; [left | exact Hq].
              ** exists m'. split; [right; exact Hm' | exact Hq'].
           ++ intros h0 Hh0. unfold state_ok in Hst. rewrite Hh0 in Hst.
              destruct Hst as [Hc _]. rewrite Hc in Hlt.
              apply ltb_leb. eapply leb_ltb_trans; eassumption.
           ++ constructor; [|exact Hall].
              intros h0 Hh0. rewrite Hq in Hh0. injection Hh0 as <-. exact Hh'h.
        -- split; [|split].
           ++ destruct Hfrom as [Hfrom|(m' & Hm' & Hq')]; [left; exact Hfrom|].
              right. exists m'. split; [right; exact Hm' | exact Hq'].
           ++ exact Hle.
           ++ constructor; [|exact Hall].
              intros h0 Hh0. rewrite Hq in Hh0. injection Hh0 as <-.
              unfold state_ok in Hst.
              destruct (snd st) as [hs|] eqn:Hs.
              ** destruct Hst as [Hc Hsin]. rewrite Hc in Hlt.
                 apply leb_trans with (y := m_fT hs); [apply Hle; reflexivity|].
                 apply not_ltb_leb; [eapply inside_not_nan; eassumption..|exact Hlt].
              ** rewrite Hst, (inside_below_tMax _ Hh_in) in Hlt. discriminate.
      * split; [|split].
        -- destruct Hfrom as [Hfrom|(m' & Hm' & Hq')]; [left; exact Hfrom|].
           right. exists m'. split; [right; exact Hm' | exact Hq'].
        -- exact Hle.
        -- constructor; [|exact Hall]. intros h0 Hh0. rewrite Hq in Hh0. discriminate.
Qed.


(** Narrowing the bound of the loop to [c] gives the result of the whole
    interval restricted to the hits below [c]. *)
Lemma fold_pick_restrict (c : float) (l : list A) :
  inside tMin tMax c = true ->
  Forall consistent_with l ->
  forall full, state_ok full ->
    fold_left (pick q) l (if (fst full <? c)%f32 then full else (c, None))
    = if (fst (fold_left (pick q) l full) <? c)%f32
      then fold_left (pick q) l full else (c, None).
Proof.
  intros Hc. induction 1 as [|m l Hm Hl IH]; intros full Hfull; simpl; [reflexivity|].
  assert (Hfull1 : state_ok (pick q full m)).
  { unfold pick. destruct (q m) as [h|] eqn:Hq; [|exact Hfull].
    destruct (m_fT h <? fst full)%f32; [|exact Hfull].
    unfold state_ok. simpl. split; [reflexivity|]. apply Hm. exact Hq. }
  rewrite <- (IH _ Hfull1). f_equal. clear IH.
  assert (Hcn : not_nan c) by (eapply inside_not_nan; exact Hc).
  assert (Hfn : not_nan (fst full)).
  { unfold state_ok in Hfull. destruct (snd full) as [hs|].
    - destruct Hfull as [-> Hin]. eapply inside_not_nan; exact Hin.
    - rewrite Hfull. apply inside_below_tMax, ltb_not_nan in Hc. tauto. }
  unfold pick. destruct (q m) as [h|] eqn:Hq; [|reflexivity].
  destruct (fst full <? c)%f32 eqn:Hfc.
  - destruct (m_fT h <? fst full)%f32 eqn:Hlt; simpl; [|rewrite Hfc; reflexivity].
    rewrite (ltb_trans _ _ _ Hlt Hfc). reflexivity.
  - simpl. pose proof (not_ltb_leb _ _ Hfn Hcn Hfc) as Hle.
    destruct (m_fT h <? c)%f32 eqn:Hhc.
    + rewrite (ltb_leb_trans _ _ _ Hhc Hle). simpl. rewrite Hhc. reflexivity.
    + destruct (m_fT h <? fst full)%f32; simpl; [rewrite Hhc | rewrite Hfc]; reflexivity.
Qed.

End Aggregate.

(** *** Spheres and aggregates as members *)

Lemma inside_narrow (tMin tMax c t : float) :
  c = tMax \/ inside tMin tMax c = true ->
  inside tMin c t = inside tMin tMax t && (t <? c)%f32.
Proof.
  unfold inside. intros [->|Hc].
  - destruct (tMin <? t)%f32, (t <? tMax)%f32; reflexivity.
  - apply andb_prop in Hc as [_ Hc].
    destruct (tMin <? t)%f32; simpl; [|reflexivity].
    destruct (t <? c)%f32 eqn:Htc; [|apply eq_sym, andb_false_r].
    rewrite (ltb_trans _ _ _ Htc Hc). reflexivity.
Qed.

Lemma sphere_consistent (u : HitRecord) (s : Sphere) (ray : Ray) (tMin tMax : float) :
  sphere_roots_ordered ray s = true ->
  consistent_with (Hit u) ray tMin tMax (fun m => hit_in u m ray tMin tMax) (HSphere s).
Proof.
  unfold sphere_roots_ordered, consistent_with, hit_in. cbn [Hit].
  intros Hord. split.
  - intros c rec Hc. rewrite !Sphere_Hit_roots.
    destruct (sphere_roots ray s) as [[t1 t2]|]; [|reflexivity].
    apply negb_true_iff in Hord.
    rewrite !(inside_narrow tMin tMax c) by exact Hc.
    destruct (inside tMin tMax t1) eqn:H1; simpl.
    + cbn [restrict Sphere_record m_fT].
      destruct (t1 <? c)%f32 eqn:H1c; [reflexivity|].
      destruct (inside tMin tMax t2 && (t2 <? c)%f32) eqn:H2; [|reflexivity].
      exfalso. apply andb_prop in H2 as [_ H2c].
      assert (Hle : (c <=? t1)%f32 = true).
      { apply not_ltb_leb; [|apply ltb_not_nan in H2c; tauto|exact H1c].
        unfold inside in H1. apply andb_prop in H1 as [H1 _].
        apply ltb_not_nan in H1. tauto. }
      rewrite (ltb_leb_trans _ _ _ H2c Hle) in Hord. discriminate.
    + destruct (inside tMin tMax t2) eqn:H2; simpl; [|reflexivity].
      cbn [restrict Sphere_record m_fT]. destruct (t2 <? c)%f32; reflexivity.
  - intros h. rewrite Sphere_Hit_roots.
    destruct (sphere_roots ray s) as [[t1 t2]|]; [|discriminate].
    destruct (inside tMin tMax t1) eqn:H1.
    + intros [= <-]. exact H1.
    + destruct (inside tMin tMax t2) eqn:H2; [|discriminate].
      intros [= <-]. exact H2.
Qed.

Section Members.

Variable u : HitRecord.
Variable ray : Ray.
Variables tMin tMax : float.

Local Abbreviation q := (fun m => hit_in u m ray tMin tMax).
Local Abbreviation consistent := (consistent_with (Hit u) ray tMin tMax q).

(** In the whole interval a consistent member reports its hit. *)
Lemma consistent_Hit (m : Hittable) (rec : HitRecord) :
  consistent m -> Hit u m ray tMin tMax rec = result (q m) rec.
Proof.
  intros [Hhit Hin]. rewrite (Hhit tMax rec (or_introl eq_refl)).
  destruct (hit_in u m ray tMin tMax) as [h|] eqn:Hq; [|reflexivity].
  simpl. rewrite (inside_below_tMax tMin tMax _ (Hin h eq_refl)). reflexivity.
Qed.

Lemma consistent_Hit_true (m : Hittable) (rec h : HitRecord) :
  consistent m -> (Hit u m ray tMin tMax rec = (true, h) <-> q m = Some h).
Proof.
  intros Hm. rewrite (consistent_Hit m rec Hm).
  destruct (hit_in u m ray tMin tMax); simpl; split; congruence.
Qed.

Lemma consistent_Hit_false (m : Hittable) (rec : HitRecord) :
  consistent m -> (fst (Hit u m ray tMin tMax rec) = false <-> q m = None).
Proof.
  intros Hm. rewrite (consistent_Hit m rec Hm).
  destruct (hit_in u m ray tMin tMax); simpl; split; congruence.
Qed.

(** The aggregate computes the fold of [pick] over its members. *)
Lemma HittableList_Hit_fold (l : list Hittable) (c : float) (rec : HitRecord) :
  Forall consistent l -> c = tMax \/ inside tMin tMax c = true ->
  HittableList_Hit u l ray tMin c rec
  = result (snd (fold_left (pick q) l (c, None))) rec.
Proof.
  intros Hl Hc. unfold HittableList_Hit, HittableList_Hit_with.
  exact (HittableList_loop_pick (Hit u) ray tMin tMax q l Hl u (c, None) rec Hc).
Qed.

Lemma hit_in_list (l : list Hittable) :
  Forall consistent l ->
  hit_in u (HList l) ray tMin tMax = snd (fold_left (pick q) l (tMax, None)).
Proof.
  intros Hl. unfold hit_in at 1. cbn [Hit].
  change (HittableList_Hit_with u (Hit u) l) with (HittableList_Hit u l).
  rewrite (HittableList_Hit_fold l tMax u Hl (or_introl eq_refl)).
  destruct (snd (fold_left (pick q) l (tMax, None))); reflexivity.
Qed.

Lemma list_consistent (l : list Hittable) :
  Forall consistent l -> consistent (HList l).
Proof.
  intros Hl.
  destruct (fold_pick_least (Hit u) ray tMin tMax q l Hl (tMax, None) eq_refl) as (Hok & _ & _).
  unfold consistent_with. rewrite (hit_in_list l Hl). split.
  - intros c rec Hc. cbn [Hit].
    change (HittableList_Hit_with u (Hit u) l) with (HittableList_Hit u l).
    rewrite (HittableList_Hit_fold l c rec Hl Hc). f_equal.
    unfold state_ok in Hok. destruct Hc as [->|Hc].
    + destruct (snd (fold_left (pick q) l (tMax, None))) as [h|]; [|reflexivity].
      destruct Hok as [_ Hin]. simpl.
      rewrite (inside_below_tMax tMin tMax _ Hin). reflexivity.
    + pose proof (fold_pick_restrict (Hit u) ray tMin tMax q c l Hc Hl (tMax, None) eq_refl) as E.
      cbn [fst] in E.
      rewrite (ltb_asym _ _ (inside_below_tMax tMin tMax _ Hc)) in E. rewrite E.
      destruct (fold_left (pick q) l (tMax, None)) as [c' [h|]]; simpl in *.
      * destruct Hok as [-> _]. destruct (m_fT h <? c)%f32; reflexivity.
      * subst c'. rewrite (ltb_asym _ _ (inside_below_tMax tMin tMax _ Hc)). reflexivity.
  - intros h Hh. unfold state_ok in Hok. rewrite Hh in Hok. tauto.
Qed.

(** Every member whose spheres have their roots in order is consistent. *)
Lemma roots_ordered_consistent (m : Hittable) :
  roots_ordered ray m = true -> consistent m.
Proof.
  induction m as [s|l IH] using Hittable_nested_ind; simpl; intros H.
  - apply sphere_consistent. exact H.
  - apply list_consistent. rewrite forallb_forall in H.
    rewrite Forall_forall in IH |- *. intros x Hx.
    apply IH; [exact Hx|]. apply H. apply list_elem_of_In. exact Hx.
Qed.

End Members.




(** * Further properties *)

(** ** Scenes of nested aggregates *)

Lemma spheres_of_list (l : list Hittable) :
  spheres_of (HList l) = l ≫= spheres_of.
Proof.
  induction l as [|m l IH]; [reflexivity|].
  simpl in *. rewrite IH. reflexivity.
Qed.

Section MembersUninit.

Variable ray : Ray.

Local Abbreviation hit_pure := (hit_pure ray).

Lemma loop_pure (l : list Hittable) :
  Forall hit_pure l ->
  forall u1 u2 tMin t1 t2 hitted c rec,
    HittableList_loop (Hit u1) ray tMin l t1 hitted c rec
    = HittableList_loop (Hit u2) ray tMin l t2 hitted c rec.
Proof.
  induction 1 as [|m l Hm Hl IH]; intros u1 u2 tMin t1 t2 hitted c rec; simpl;
    [reflexivity|].
  destruct (Hm u1 u2 tMin c t1 t2) as (Hb & Ht & Hf).
  destruct (Hit u1 m ray tMin c t1) as [b1 r1], (Hit u2 m ray tMin c t2) as [b2 r2].
  simpl in *. subst b2. destruct b1.
  - rewrite (Ht eq_refl). apply IH.
  - apply IH.
Qed.

(** Once a member has been hit the loop reports a hit. *)
Lemma loop_flag_true (l : list Hittable) :
  forall u tMin temp c rec,
    fst (HittableList_loop (Hit u) ray tMin l temp true c rec) = true.
Proof.
  induction l as [|m l IH]; intros; simpl; [reflexivity|].
  destruct (Hit u m ray tMin c temp) as [[] r]; apply IH.
Qed.

Lemma loop_miss (l : list Hittable) :
  forall u tMin temp c rec,
    fst (HittableList_loop (Hit u) ray tMin l temp false c rec) = false ->
    snd (HittableList_loop (Hit u) ray tMin l temp false c rec) = rec.
Proof.
  induction l as [|m l IH]; intros u tMin temp c rec; simpl; [reflexivity|].
  destruct (Hit u m ray tMin c temp) as [[] r].
  - rewrite loop_flag_true. discriminate.
  - apply IH.
Qed.

(** The record returned does not depend on the flag the loop starts
    with. *)
Lemma loop_hitted (l : list Hittable) :
  forall u tMin temp c rec,
    snd (HittableList_loop (Hit u) ray tMin l temp true c rec)
    = snd (HittableList_loop (Hit u) ray tMin l temp false c rec).
Proof.
  induction l as [|m l IH]; intros; simpl; [reflexivity|].
  destruct (Hit u m ray tMin c temp) as [[] r]; [reflexivity | apply IH].
Qed.

Lemma Hit_pure (h : Hittable) : hit_pure h.
Proof.
  induction h as [s|l IH] using Hittable_nested_ind; intros u1 u2 tMin tMax r1 r2.
  - cbn [Hit]. unfold Sphere_Hit. cbv zeta.
    repeat match goal with
    | |- context [if ?c then _ else _] => destruct c
    end; simpl; repeat split; intros; try reflexivity; try discriminate.
  - cbn [Hit]. unfold HittableList_Hit_with.
    split; [|split].
    + assert (Hflag : forall l u temp hitted c rec rec',
                fst (HittableList_loop (Hit u) ray tMin l temp hitted c rec)
                = fst (HittableList_loop (Hit u) ray tMin l temp hitted c rec')).
      { clear. induction l as [|m l IH]; intros; simpl; [reflexivity|].
        destruct (Hit u m ray tMin c temp) as [[] r]; [reflexivity | apply IH]. }
      rewrite (loop_pure l IH u1 u2 tMin u1 u2 false tMax r1). apply Hflag.
    + intros Hb.
      assert (Hrec : forall l u temp hitted c rec rec',
                fst (HittableList_loop (Hit u) ray tMin l temp hitted c rec) = true ->
                hitted = false ->
                snd (HittableList_loop (Hit u) ray tMin l temp hitted c rec)
                = snd (HittableList_loop (Hit u) ray tMin l temp hitted c rec')).
      { clear. induction l as [|m l IH]; intros u temp hitted c rec rec' Ht Hh; simpl in *.
        - subst. discriminate.
        - destruct (Hit u m ray tMin c temp) as [[] r]; [reflexivity | auto]. }
      rewrite (loop_pure l IH u1 u2 tMin u1 u2 false tMax r1) in Hb |- *.
      apply Hrec; auto.
    + apply loop_miss.
Qed.

Lemma Hit_miss (u : HitRecord) (h : Hittable) (tMin tMax : float) (rec : HitRecord) :
  fst (Hit u h ray tMin tMax rec) = false -> Hit u h ray tMin tMax rec = (false, rec).
Proof.
  intros H. destruct (Hit_pure h u u tMin tMax rec rec) as (_ & _ & Hf).
  destruct (Hit u h ray tMin tMax rec) as [b r]. simpl in *. subst b.
  rewrite (Hf eq_refl). reflexivity.
Qed.

(** The loop over [l1 ++ l2] from any state is the step the loop makes
    for the aggregate of [l1] followed by the loop over [l2]. *)
Lemma loop_app_nested (u : HitRecord) (tMin : float) (l1 l2 : list Hittable) :
  forall temp hitted c rec,
    HittableList_loop (Hit u) ray tMin (l1 ++ l2) temp hitted c rec
    = HittableList_loop (Hit u) ray tMin (HList l1 :: l2) temp hitted c rec.
Proof.
  induction l1 as [|m l1 IH]; intros temp hitted c rec; [reflexivity|].
  assert (Hl1 : Forall hit_pure l1) by (apply Forall_forall; intros; apply Hit_pure).
  rewrite <- app_comm_cons.
  cbn [HittableList_loop Hit]. unfold HittableList_Hit_with. cbn [HittableList_loop].
  destruct (Hit_pure m u u tMin c temp u) as (Hb & Ht & Hf).
  destruct (Hit_pure m u u tMin c u temp) as (_ & _ & Hf').
  destruct (Hit u m ray tMin c temp) as [b t'], (Hit u m ray tMin c u) as [b' t''].
  simpl in Hb, Ht, Hf, Hf'. subst b'. destruct b.
  - rewrite <- (Ht eq_refl). rewrite IH.
    cbn [HittableList_loop Hit]. unfold HittableList_Hit_with.
    pose proof (loop_flag_true l1 u tMin t' (m_fT t') t') as Hflag.
    pose proof (loop_hitted l1 u tMin t' (m_fT t') t') as Hh.
    rewrite (loop_pure l1 Hl1 u u tMin t' u false (m_fT t') t') in Hh.
    pose proof (loop_miss l1 u tMin u (m_fT t') t') as Hmiss.
    destruct (HittableList_loop (Hit u) ray tMin l1 t' true (m_fT t') t') as [b1 r1].
    destruct (HittableList_loop (Hit u) ray tMin l1 u false (m_fT t') t') as [b2 r2].
    simpl in Hflag, Hh, Hmiss. subst b1 r1. destruct b2; [reflexivity|].
    rewrite (Hmiss eq_refl). reflexivity.
  - rewrite (Hf eq_refl), (Hf' eq_refl), IH. reflexivity.
Qed.

End MembersUninit.

(** X2.  A test that reports no hit returns the caller's record as it was
    given: the out-parameter is written on a hit only, also through nested
    aggregates. *)
Theorem Hit_miss_leaves_record (u : HitRecord) (h : Hittable) (ray : Ray)
    (tMin tMax : float) (rec : HitRecord) :
  fst (Hit u h ray tMin tMax rec) = true \/ Hit u h ray tMin tMax rec = (false, rec).
Proof.
  destruct (fst (Hit u h ray tMin tMax rec)) eqn:H; [left; reflexivity|].
  right. apply Hit_miss. exact H.
Qed.

Section MemberRecord.

Variable ray : Ray.

Lemma member_record_narrow (S : list Sphere) (tMin tMax c : float) (r : HitRecord) :
  bound_ok tMin tMax c -> member_record S ray tMin c r -> member_record S ray tMin tMax r.
Proof.
  intros Hc (s & t & Hs & Hr & Hin). exists s, t. split; [exact Hs|]. split; [exact Hr|].
  rewrite (inside_narrow tMin tMax c t Hc) in Hin. apply andb_prop in Hin. tauto.
Qed.

Lemma loop_member (tMin tMax : float) (S : list Sphere) (l : list Hittable) :
  Forall (fun m => forall u a b rec r,
            Hit u m ray a b rec = (true, r) -> member_record (spheres_of m) ray a b r) l ->
  Forall (fun m => spheres_of m ⊆ S) l ->
  forall u temp hitted c rec r,
    bound_ok tMin tMax c ->
    (hitted = true -> member_record S ray tMin tMax rec) ->
    HittableList_loop (Hit u) ray tMin l temp hitted c rec = (true, r) ->
    member_record S ray tMin tMax r.
Proof.
  induction 1 as [|m l Hm Hl IH]; intros HS u temp hitted c rec r Hc Hrec H; simpl in H.
  - injection H as -> <-. auto.
  - apply Forall_cons in HS as [HmS HS].
    destruct (Hit u m ray tMin c temp) as [[] r'] eqn:Hhit.
    + assert (Hr' : member_record S ray tMin tMax r').
      { apply (member_record_narrow S tMin tMax c r' Hc).
        destruct (Hm u tMin c temp r' Hhit) as (s & t & Hs & Hr & Hin).
        exists s, t. auto. }
      apply (IH HS u r' true (m_fT r') r' r); auto.
      destruct Hr' as (s & t & _ & -> & Hin). right. exact Hin.
    + apply (IH HS u r' hitted c rec r); auto.
Qed.

Lemma Hit_member (h : Hittable) :
  forall u tMin tMax rec r,
    Hit u h ray tMin tMax rec = (true, r) ->
    member_record (spheres_of h) ray tMin tMax r.
Proof.
  induction h as [s|l IH] using Hittable_nested_ind; intros u tMin tMax rec r H.
  - cbn [Hit] in H. destruct (Sphere_Hit_true _ _ _ _ _ _ H) as (t & -> & Hin).
    exists s, t. split; [left|]. auto.
  - cbn [Hit] in H. unfold HittableList_Hit_with in H.
    apply (loop_member tMin tMax (spheres_of (HList l)) l IH) in H; auto.
    + rewrite spheres_of_list. apply Forall_forall. intros m Hm s Hs.
      apply list_elem_of_bind. eauto.
    + left. reflexivity.
    + discriminate.
Qed.

End MemberRecord.

(** X3.  Every hit that [Hit] reports, for a sphere or for aggregates
    nested to any depth, is the record [Sphere::Hit] writes for one sphere
    of the scene at a parameter strictly inside [(tMin, tMax)]: the
    parameter, the point on the ray, the normal and the material all belong
    to that sphere. *)
Theorem Hit_reports_a_sphere_of_the_scene (u : HitRecord) (h : Hittable) (ray : Ray)
    (tMin tMax : float) (rec r : HitRecord) :
  Hit u h ray tMin tMax rec = (true, r) ->
  exists s, s ∈ spheres_of h /\
    inside tMin tMax (m_fT r) = true /\
    m_oPoint r = PointAtParamenter ray (m_fT r) /\
    m_oNormal r = ((m_oPoint r - m_oCenter s) /^ m_fRadius s)%v3 /\
    m_oMaterial r = m_oSphereMaterial s.
Proof.
  intros H. destruct (Hit_member ray h u tMin tMax rec r H) as (s & t & Hs & -> & Hin).
  exists s. auto.
Qed.

Lemma Hit_reports_a_sphere_of_the_scene_witness :
  exists s, s ∈ spheres_of (HList [grey_ball; HList [near_ball]]) /\
    inside f0_001 F32.FLT_MAX (F32.of_Z 3 / F32.of_Z 2)%f32 = true /\
    m_oSphereMaterial s = glass.
Proof.
  destruct (Hit_reports_a_sphere_of_the_scene rec0 (HList [grey_ball; HList [near_ball]])
              ray_z f0_001 F32.FLT_MAX rec0
              (Sphere_record (mkSphere (v3 0 0 (-2)) f0_5 glass) ray_z
                 (F32.of_Z 3 / F32.of_Z 2)%f32))
    as (s & Hs & Hin & _ & _ & Hm).
  - vm_compute. reflexivity.
  - exists s. split; [exact Hs|]. split; [exact Hin|]. symmetry. exact Hm.
Defined.

(** X4.  When [tMin < tMax] does not hold (the interval is empty or
    inverted, or a bound is a NaN) no scene reports a hit, and the record is
    returned as given. *)
Theorem Hit_empty_interval (u : HitRecord) (h : Hittable) (ray : Ray)
    (tMin tMax : float) (rec : HitRecord) :
  (tMin <? tMax)%f32 = false -> Hit u h ray tMin tMax rec = (false, rec).
Proof.
  intros Hlt. destruct (Hit u h ray tMin tMax rec) as [b r] eqn:H.
  destruct b; [|rewrite <- H; apply Hit_miss; rewrite H; reflexivity].
  exfalso.
  destruct (Hit_member ray h u tMin tMax rec r H) as (s & t & _ & _ & Hin).
  unfold inside in Hin. apply andb_prop in Hin as [H1 H2].
  rewrite (ltb_trans _ _ _ H1 H2) in Hlt. discriminate.
Qed.

Lemma Hit_empty_interval_witness :
  Hit rec0 (HList [grey_ball; near_ball]) ray_z (F32.of_Z 5) (F32.of_Z 5) rec0 = (false, rec0) /\
  Hit rec0 (HList [grey_ball; near_ball]) ray_z f0_001 S754_nan rec0 = (false, rec0).
Proof.
  split.
  - apply Hit_empty_interval. reflexivity.
  - apply Hit_empty_interval. reflexivity.
Defined.

(** X5.  An aggregate stored as a member of an aggregate answers as its
    members stored in its place: nesting changes nothing.  In particular the
    aggregate of one member answers as that member. *)
Theorem HittableList_Hit_flatten (u : HitRecord) (l0 l1 l2 : list Hittable)
    (h : Hittable) (ray : Ray) (tMin tMax : float) (rec : HitRecord) :
  Hit u (HList (l0 ++ HList l1 :: l2)) ray tMin tMax rec
  = Hit u (HList (l0 ++ l1 ++ l2)) ray tMin tMax rec /\
  Hit u (HList [h]) ray tMin tMax rec = Hit u h ray tMin tMax rec.
Proof.
  split.
  - cbn [Hit]. unfold HittableList_Hit_with.
    rewrite (loop_app_nested ray u tMin l0 (HList l1 :: l2)).
    rewrite (loop_app_nested ray u tMin l0 (l1 ++ l2)).
    cbn [HittableList_loop].
    destruct (Hit u (HList l0) ray tMin tMax u) as [[] r];
      rewrite (loop_app_nested ray u tMin l1 l2); reflexivity.
  - cbn [Hit]. unfold HittableList_Hit_with. cbn [HittableList_loop].
    destruct (Hit_pure ray h u u tMin tMax u rec) as (Hb & Ht & _).
    pose proof (Hit_miss ray u h tMin tMax rec) as Hmiss.
    destruct (Hit u h ray tMin tMax u) as [b r], (Hit u h ray tMin tMax rec) as [b' r'].
    simpl in *. subst b'. destruct b.
    + rewrite (Ht eq_refl). reflexivity.
    + symmetry. apply Hmiss. reflexivity.
Qed.

(** *** Longer lists *)

(** From a state that keeps a hit the loop returns that hit or one with a
    smaller [t]. *)
Lemma loop_nearer (ray : Ray) (u : HitRecord) (tMin : float) (l : list Hittable) :
  forall temp rec,
    exists r,
      HittableList_loop (Hit u) ray tMin l temp true (m_fT rec) rec = (true, r) /\
      (r = rec \/ (m_fT r <? m_fT rec)%f32 = true).
Proof.
  induction l as [|m l IH]; intros temp rec; simpl.
  - exists rec. auto.
  - destruct (Hit u m ray tMin (m_fT rec) temp) as [[] r'] eqn:Hhit.
    + destruct (Hit_member ray m u tMin (m_fT rec) temp r' Hhit) as (s & t & _ & -> & Hin).
      unfold inside in Hin. apply andb_prop in Hin as [_ Hlt].
      destruct (IH (Sphere_record s ray t) (Sphere_record s ray t)) as (r & Hr & Hnear).
      exists r. split; [exact Hr|]. right.
      destruct Hnear as [->|Hnear]; [exact Hlt|].
      exact (ltb_trans _ _ _ Hnear Hlt).
    + apply IH.
Qed.

(** X22.  Members added at the end of an aggregate never lose a hit
    and never move it away: when the aggregate of [l1] reports a hit, the
    aggregate of [l1 ++ l2] reports that hit or one with a strictly smaller
    [t]. *)
Theorem longer_list_hits_nearer (u : HitRecord) (l1 l2 : list Hittable) (ray : Ray)
    (tMin tMax : float) (rec r1 : HitRecord) :
  Hit u (HList l1) ray tMin tMax rec = (true, r1) ->
  exists r2,
    Hit u (HList (l1 ++ l2)) ray tMin tMax rec = (true, r2) /\
    (r2 = r1 \/ (m_fT r2 <? m_fT r1)%f32 = true).
Proof.
  intros H1. cbn [Hit]. unfold HittableList_Hit_with.
  rewrite (loop_app_nested ray u tMin l1 l2). cbn [HittableList_loop].
  destruct (Hit_pure ray (HList l1) u u tMin tMax rec u) as (Hb & Ht & _).
  rewrite H1 in Hb, Ht. cbn [fst snd] in Hb, Ht.
  destruct (Hit u (HList l1) ray tMin tMax u) as [b r] eqn:E.
  cbn [fst snd] in Hb, Ht. subst b. rewrite <- (Ht eq_refl). apply loop_nearer.
Qed.

Lemma longer_list_hits_nearer_witness :
  exists r2,
    Hit rec0 (HList ([grey_ball] ++ [near_ball])) ray_z f0_001 F32.FLT_MAX rec0 = (true, r2) /\
    (r2 = Sphere_record unit_sphere_ahead ray_z (F32.of_Z 4) \/
     (m_fT r2 <? m_fT (Sphere_record unit_sphere_ahead ray_z (F32.of_Z 4)))%f32 = true).
Proof.
  apply (longer_list_hits_nearer rec0 [grey_ball] [near_ball] ray_z f0_001 F32.FLT_MAX rec0).
  vm_compute. reflexivity.
Defined.

(** ** The integrators and the scene *)

Section Retarget.

Variable f : Sphere -> Material.
Variable ray : Ray.

Lemma loop_retarget (l : list Hittable) :
  Forall (fun m => forall u1 u2 tMin tMax r1 r2,
            fst (Hit u1 (retarget f m) ray tMin tMax r1) = fst (Hit u2 m ray tMin tMax r2) /\
            (fst (Hit u2 m ray tMin tMax r2) = true ->
             same_surface (snd (Hit u1 (retarget f m) ray tMin tMax r1))
                          (snd (Hit u2 m ray tMin tMax r2)))) l ->
  forall u1 u2 tMin t1 t2 hitted c rec1 rec2,
    (hitted = true -> same_surface rec1 rec2) ->
    fst (HittableList_loop (Hit u1) ray tMin (List.map (retarget f) l) t1 hitted c rec1)
    = fst (HittableList_loop (Hit u2) ray tMin l t2 hitted c rec2) /\
    (fst (HittableList_loop (Hit u2) ray tMin l t2 hitted c rec2) = true ->
     same_surface
       (snd (HittableList_loop (Hit u1) ray tMin (List.map (retarget f) l) t1 hitted c rec1))
       (snd (HittableList_loop (Hit u2) ray tMin l t2 hitted c rec2))).
Proof.
  induction 1 as [|m l Hm Hl IH]; intros u1 u2 tMin t1 t2 hitted c rec1 rec2 Hrec; simpl.
  - split; [reflexivity | exact Hrec].
  - destruct (Hm u1 u2 tMin c t1 t2) as (Hb & Hs).
    destruct (Hit u1 (retarget f m) ray tMin c t1) as [b1 r1],
             (Hit u2 m ray tMin c t2) as [b2 r2].
    simpl in Hb, Hs. subst b2. destruct b1.
    + specialize (Hs eq_refl). pose proof Hs as (Ht & _). rewrite Ht.
      apply IH. intros _. exact Hs.
    + apply IH. exact Hrec.
Qed.

Lemma Hit_retarget (h : Hittable) :
  forall u1 u2 tMin tMax r1 r2,
    fst (Hit u1 (retarget f h) ray tMin tMax r1) = fst (Hit u2 h ray tMin tMax r2) /\
    (fst (Hit u2 h ray tMin tMax r2) = true ->
     same_surface (snd (Hit u1 (retarget f h) ray tMin tMax r1))
                  (snd (Hit u2 h ray tMin tMax r2))).
Proof.
  induction h as [s|l IH] using Hittable_nested_ind; intros u1 u2 tMin tMax r1 r2.
  - cbn [Hit retarget]. unfold Sphere_Hit. cbn [m_oCenter m_fRadius]. cbv zeta.
    repeat match goal with
    | |- context [if ?c then _ else _] => destruct c
    end; simpl; split; intros; try reflexivity; try discriminate;
      unfold same_surface, Sphere_record; simpl; auto.
  - cbn [Hit retarget]. unfold HittableList_Hit_with.
    apply loop_retarget; [exact IH | discriminate].
Qed.

End Retarget.

Lemma ColorOptimized_rec_retarget (f : Sphere -> Material) (world : Hittable)
    (max_depth : Z) (n : nat) :
  forall u1 u2 ray depth st,
    ColorOptimized_rec u1 n ray (retarget f world) depth max_depth st
    = ColorOptimized_rec u2 n ray world depth max_depth st.
Proof.
  induction n as [|n IH]; intros u1 u2 ray depth st; simpl; [reflexivity|].
  destruct (depth >=? max_depth); [reflexivity|].
  destruct (Hit_retarget f ray world u1 u2 f0_001 F32.FLT_MAX u1 u2) as (Hb & Hs).
  destruct (Hit u1 (retarget f world) ray f0_001 F32.FLT_MAX u1) as [b1 r1],
           (Hit u2 world ray f0_001 F32.FLT_MAX u2) as [b2 r2].
  simpl in Hb, Hs. subst b2. destruct b1; [|reflexivity].
  destruct (Hs eq_refl) as (_ & Hp & Hn). rewrite Hp, Hn.
  destruct (FastRandom_vec3 st) as [rnd st'].
  rewrite (IH u1 u2). reflexivity.
Qed.

(** X6.  [ColorOptimized] never looks at a material: the scene with
    the material of every sphere replaced, in any way, gets the same colour
    and leaves the random state the same. *)
Theorem ColorOptimized_ignores_materials (f : Sphere -> Material) (u : HitRecord)
    (ray : Ray) (world : Hittable) (depth max_depth st : Z) :
  ColorOptimized u ray (retarget f world) depth max_depth st
  = ColorOptimized u ray world depth max_depth st.
Proof. unfold ColorOptimized. apply ColorOptimized_rec_retarget. Qed.

Lemma ColorOptimized_rec_uninit (world : Hittable) (max_depth : Z) (n : nat) :
  forall u1 u2 ray depth st,
    ColorOptimized_rec u1 n ray world depth max_depth st
    = ColorOptimized_rec u2 n ray world depth max_depth st.
Proof.
  induction n as [|n IH]; intros u1 u2 ray depth st; simpl; [reflexivity|].
  destruct (depth >=? max_depth); [reflexivity|].
  destruct (Hit_pure ray world u1 u2 f0_001 F32.FLT_MAX u1 u2) as (Hb & Ht & _).
  destruct (Hit u1 world ray f0_001 F32.FLT_MAX u1) as [b1 r1],
           (Hit u2 world ray f0_001 F32.FLT_MAX u2) as [b2 r2].
  simpl in Hb, Ht. subst b2. destruct b1; [|reflexivity].
  rewrite (Ht eq_refl). destruct (FastRandom_vec3 st) as [rnd st'].
  rewrite (IH u1 u2). reflexivity.
Qed.

Lemma Color_uninit (RandState : Type) (std_rand : RandState -> Z * RandState)
    (RAND_MAX : Z) (c_pow : double -> double -> double) (uv : Vec3)
    (world : Hittable) (fuel : nat) :
  forall u1 u2 ray depth rst,
    Color RandState std_rand RAND_MAX c_pow u1 uv fuel ray world depth rst
    = Color RandState std_rand RAND_MAX c_pow u2 uv fuel ray world depth rst.
Proof.
  induction fuel as [|fuel IH]; intros u1 u2 ray depth rst; simpl; [reflexivity|].
  destruct (Hit_pure ray world u1 u2 f0_001 F32.FLT_MAX u1 u2) as (Hb & Ht & _).
  destruct (Hit u1 world ray f0_001 F32.FLT_MAX u1) as [b1 r1],
           (Hit u2 world ray f0_001 F32.FLT_MAX u2) as [b2 r2].
  simpl in Hb, Ht. subst b2. destruct b1; [|reflexivity].
  rewrite (Ht eq_refl). destruct (depth <? 50); [|reflexivity].
  destruct (Scatter _ _ _ _ _ _ _ _ _ _) as [[sc st']|]; [|reflexivity].
  destruct (scattered sc); [|reflexivity].
  rewrite (IH u1 u2). reflexivity.
Qed.

(** X1.  Nothing depends on what the uninitialised [HitRecord] locals
    hold: the answer of [Hit], for a sphere, an aggregate or aggregates
    nested in aggregates, is the same whatever [_tempRecord] of
    [HittableList::Hit] contains, and [Color] and [ColorOptimized], which
    pass their own uninitialised record to [Hit], return the same colour
    and random state. *)
Theorem uninitialised_records_do_not_show (RandState : Type)
    (std_rand : RandState -> Z * RandState) (RAND_MAX : Z)
    (c_pow : double -> double -> double) (uv : Vec3) (u1 u2 : HitRecord)
    (h : Hittable) (ray : Ray) (tMin tMax : float) (rec : HitRecord)
    (fuel : nat) (depth max_depth st : Z) (rst : RandState) :
  Hit u1 h ray tMin tMax rec = Hit u2 h ray tMin tMax rec /\
  Color RandState std_rand RAND_MAX c_pow u1 uv fuel ray h depth rst
  = Color RandState std_rand RAND_MAX c_pow u2 uv fuel ray h depth rst /\
  ColorOptimized u1 ray h depth max_depth st = ColorOptimized u2 ray h depth max_depth st.
Proof.
  split; [|split].
  - destruct (Hit_pure ray h u1 u2 tMin tMax rec rec) as (Hb & Ht & Hf).
    destruct (Hit_pure ray h u2 u1 tMin tMax rec rec) as (_ & _ & Hf').
    destruct (Hit u1 h ray tMin tMax rec) as [b1 r1], (Hit u2 h ray tMin tMax rec) as [b2 r2].
    simpl in *. subst b2. destruct b1.
    + rewrite (Ht eq_refl). reflexivity.
    + rewrite (Hf eq_refl), (Hf' eq_refl). reflexivity.
  - apply Color_uninit.
  - unfold ColorOptimized. apply ColorOptimized_rec_uninit.
Qed.

(** *** A ray without direction *)

Lemma Sphere_Hit_zero_direction (s : Sphere) (o : Vec3) (sx sy sz : bool)
    (tMin tMax : float) (rec : HitRecord) :
  Sphere_Hit s (mkRay o (mkVec3 (S754_zero sx) (S754_zero sy) (S754_zero sz)))
    tMin tMax rec = (false, rec).
Proof.
  unfold Sphere_Hit. cbn [Origin Direction].
  rewrite zero_or_nan_not_pos; [reflexivity|].
  apply sub_zero_or_nan; apply mul_zero_or_nan_l; apply Dot_zero_r.
Qed.

Lemma Hit_zero_direction (o : Vec3) (sx sy sz : bool) (h : Hittable) :
  forall u tMin tMax rec,
    Hit u h (mkRay o (mkVec3 (S754_zero sx) (S754_zero sy) (S754_zero sz)))
      tMin tMax rec = (false, rec).
Proof.
  induction h as [s|l IH] using Hittable_nested_ind; intros u tMin tMax rec.
  - apply Sphere_Hit_zero_direction.
  - cbn [Hit]. unfold HittableList_Hit_with. generalize u at 2 as temp.
    induction IH as [|m l Hm Hl IHl]; intros temp; simpl; [reflexivity|].
    rewrite Hm. apply IHl.
Qed.

Lemma sky_zero_direction (o : Vec3) (sx sy sz : bool) :
  sky (mkRay o (mkVec3 (S754_zero sx) (S754_zero sy) (S754_zero sz))) = nan_colour.
Proof. destruct sx, sy, sz; vm_compute; reflexivity. Qed.

(** X7.  A ray whose direction is the zero vector (zeros of either
    sign) hits nothing in any scene, and its unit direction is 0/0: the sky
    gradient is NaN in every component.  So [Color] returns the NaN colour
    for it at every depth, and [ColorOptimized] below the depth limit,
    without drawing a random number. *)
Theorem zero_direction_gives_nan (RandState : Type)
    (std_rand : RandState -> Z * RandState) (RAND_MAX : Z)
    (c_pow : double -> double -> double) (u : HitRecord) (uv : Vec3)
    (o : Vec3) (sx sy sz : bool) (world : Hittable) (tMin tMax : float)
    (rec : HitRecord) (fuel : nat) (depth max_depth st : Z) (rst : RandState) :
  let ray := mkRay o (mkVec3 (S754_zero sx) (S754_zero sy) (S754_zero sz)) in
  Hit u world ray tMin tMax rec = (false, rec) /\
  Unit_Vector (Direction ray) = nan_colour /\
  Color RandState std_rand RAND_MAX c_pow u uv (S fuel) ray world depth rst
  = Some (nan_colour, rst) /\
  ColorOptimized u ray world depth max_depth st
  = if depth >=? max_depth then (black, st) else (nan_colour, st).
Proof.
  intros ray. subst ray. split; [apply Hit_zero_direction|].
  split; [destruct sx, sy, sz; vm_compute; reflexivity|].
  split.
  - simpl. rewrite Hit_zero_direction, sky_zero_direction. reflexivity.
  - rewrite ColorOptimized_unfold. destruct (depth >=? max_depth); [reflexivity|].
    rewrite Hit_zero_direction, sky_zero_direction. reflexivity.
Qed.

(** ** The grid of tiles *)

Section Grid.

Variables image_width image_height samples tile_size : Z.
Hypothesis tile_size_pos : 0 < tile_size.

Lemma ceil_div_step (a : Z) :
  (a + tile_size - 1) / tile_size = (a - tile_size + tile_size - 1) / tile_size + 1.
Proof.
  replace (a + tile_size - 1) with (a - tile_size + tile_size - 1 + 1 * tile_size) by lia.
  rewrite Z.div_add by lia. reflexivity.
Qed.

Lemma ceil_div_nonpos (a : Z) : a <= 0 -> (a + tile_size - 1) / tile_size <= 0.
Proof.
  intros Ha. assert ((a + tile_size - 1) / tile_size < 1); [|lia].
  apply Z.div_lt_upper_bound; lia.
Qed.

Lemma ceil_div_pos (a : Z) : 0 < a -> 0 < (a + tile_size - 1) / tile_size.
Proof.
  intros Ha. apply Z.div_str_pos. lia.
Qed.

Lemma seqZ_0_succ (n : Z) : 0 <= n -> seqZ 0 (n + 1) = 0 :: (Z.add 1 <$> seqZ 0 n).
Proof.
  intros Hn. rewrite seqZ_cons by lia.
  replace (Z.pred (n + 1)) with n by lia.
  rewrite (fmap_add_seqZ 1 0 n). reflexivity.
Qed.

(** The inner loop from column [x] on. *)
Lemma create_tiles_row_grid (fuel : nat) (y : Z) :
  forall (x : Z) (acc : list RenderTile),
    image_width - x <= Z.of_nat fuel ->
    create_tiles_row fuel image_width image_height samples tile_size y x acc
    = Some (acc ++ ((fun c => mkRenderTile (x + c * tile_size) y
                               (Z.min tile_size (image_width - (x + c * tile_size)))
                               (Z.min tile_size (image_height - y)) samples)
                      <$> seqZ 0 ((image_width - x + tile_size - 1) / tile_size))).
Proof.
  induction fuel as [|fuel IH]; intros x acc Hfuel; simpl.
  - destruct (x <? image_width) eqn:E; [lia|].
    rewrite seqZ_nil by (apply ceil_div_nonpos; lia).
    rewrite app_nil_r. reflexivity.
  - destruct (x <? image_width) eqn:E.
    + rewrite IH by lia. f_equal. rewrite <- app_assoc. f_equal.
      rewrite (ceil_div_step (image_width - x)).
      replace (image_width - x - tile_size) with (image_width - (x + tile_size)) by lia.
      assert (Hn : 0 <= (image_width - (x + tile_size) + tile_size - 1) / tile_size).
      { apply Z.div_pos; lia. }
      rewrite (seqZ_0_succ _ Hn). simpl.
      replace (x + 0 * tile_size) with x by lia. f_equal.
      rewrite <- list_fmap_compose. apply list_fmap_ext. intros _ c _. simpl.
      replace (x + (1 + c) * tile_size) with (x + tile_size + c * tile_size) by lia.
      reflexivity.
    + rewrite seqZ_nil by (apply ceil_div_nonpos; lia).
      rewrite app_nil_r. reflexivity.
Qed.

(** The outer loop from row [y] on. *)
Lemma create_tiles_rows_grid (fuel : nat) :
  forall (y : Z) (acc : list RenderTile),
    image_height - y <= Z.of_nat fuel ->
    create_tiles_rows fuel image_width image_height samples tile_size y acc
    = Some (acc ++ (r ← seqZ 0 ((image_height - y + tile_size - 1) / tile_size);
                    (fun c => mkRenderTile (c * tile_size) (y + r * tile_size)
                                (Z.min tile_size (image_width - c * tile_size))
                                (Z.min tile_size (image_height - (y + r * tile_size)))
                                samples)
                      <$> seqZ 0 ((image_width + tile_size - 1) / tile_size))).
Proof.
  induction fuel as [|fuel IH]; intros y acc Hfuel; simpl.
  - destruct (y <? image_height) eqn:E; [lia|].
    rewrite (seqZ_nil 0 ((image_height - y + tile_size - 1) / tile_size))
      by (apply ceil_div_nonpos; lia).
    rewrite app_nil_r. reflexivity.
  - destruct (y <? image_height) eqn:E.
    + rewrite (create_tiles_row_grid (Z.to_nat image_width) y 0 acc) by lia.
      rewrite IH by lia. f_equal. rewrite <- app_assoc. f_equal.
      rewrite (ceil_div_step (image_height - y)).
      replace (image_height - y - tile_size) with (image_height - (y + tile_size)) by lia.
      assert (Hn : 0 <= (image_height - (y + tile_size) + tile_size - 1) / tile_size).
      { apply Z.div_pos; lia. }
      rewrite (seqZ_0_succ _ Hn). rewrite bind_cons. f_equal.
      * replace (image_width - 0) with image_width by lia.
        apply list_fmap_ext. intros _ c _. simpl.
        replace (0 + c * tile_size) with (c * tile_size) by lia.
        replace (y + 0 * tile_size) with y by lia. reflexivity.
      * rewrite list_fmap_bind. apply list_bind_ext; [|reflexivity]. intros r.
        simpl. apply list_fmap_ext. intros _ c _. simpl.
        replace (y + (1 + r) * tile_size) with (y + tile_size + r * tile_size) by lia.
        reflexivity.
    + rewrite (seqZ_nil 0 ((image_height - y + tile_size - 1) / tile_size))
      by (apply ceil_div_nonpos; lia).
      rewrite app_nil_r. reflexivity.
Qed.

Lemma length_tile_grid :
  length (tile_grid image_width image_height samples tile_size)
  = (Z.to_nat ((image_height + tile_size - 1) / tile_size)
     * Z.to_nat ((image_width + tile_size - 1) / tile_size))%nat.
Proof.
  unfold tile_grid.
  assert (H : forall rs : list Z,
             length (rs ≫= (fun r =>
                       (fun c => mkRenderTile (c * tile_size) (r * tile_size)
                                   (Z.min tile_size (image_width - c * tile_size))
                                   (Z.min tile_size (image_height - r * tile_size)) samples)
                         <$> seqZ 0 ((image_width + tile_size - 1) / tile_size)))
             = (length rs * Z.to_nat ((image_width + tile_size - 1) / tile_size))%nat).
  { induction rs as [|r rs IH]; [reflexivity|].
    rewrite bind_cons, length_app, IH, length_fmap, length_seqZ. simpl. lia. }
  rewrite H, length_seqZ. reflexivity.
Qed.

End Grid.



(** X9.  With a tile size of zero the column loop of [create_tiles]
    makes no progress: from a column left of the right edge it never ends,
    however many iterations it is given, and [create_tiles] returns nothing
    for an image that has a pixel. *)
Theorem create_tiles_zero_tile_size (image_width image_height samples : Z) :
  (forall (fuel : nat) (y x : Z) (acc : list RenderTile),
     x < image_width ->
     create_tiles_row fuel image_width image_height samples 0 y x acc = None) /\
  (0 < image_width -> 0 < image_height ->
   create_tiles image_width image_height samples 0 = None).
Proof.
  assert (Hrow : forall (fuel : nat) (y x : Z) (acc : list RenderTile),
             x < image_width ->
             create_tiles_row fuel image_width image_height samples 0 y x acc = None).
  { induction fuel as [|fuel IH]; intros y x acc Hx; simpl;
      destruct (x <? image_width) eqn:E; try lia; [reflexivity|].
    apply IH. lia. }
  split; [exact Hrow|].
  intros Hw Hh. unfold create_tiles.
  destruct (Z.to_nat image_height) as [|n] eqn:E; [lia|]. simpl.
  destruct (0 <? image_height) eqn:E0; [|lia].
  rewrite Hrow by lia. reflexivity.
Qed.



(** ** What a tile worker touches *)

(** A loop that returned from inside did so at one element, after the
    elements before it had run to their end. *)
Lemma for_each_returned {A S : Type} (body : A -> S -> option (bool * S))
    (l : list A) :
  forall st st',
    for_each body l st = Some (true, st') ->
    exists pre a post st1,
      l = pre ++ a :: post /\ for_each body pre st = Some (false, st1) /\
      body a st1 = Some (true, st').
Proof.
  induction l as [|a l IH]; intros st st' H; simpl in H; [discriminate|].
  destruct (body a st) as [[[] st1]|] eqn:Ha; try discriminate.
  - injection H as <-. exists [], a, l, st. auto.
  - destruct (IH _ _ H) as (pre & b & post & st2 & -> & Hpre & Hb).
    exists (a :: pre), b, post, st2. simpl. rewrite Ha. auto.
Qed.

Lemma length_jobs_of_tile (tile : RenderTile) :
  Z.of_nat (length (jobs_of_tile tile))
  = Z.max 0 (width tile) * Z.max 0 (height tile).
Proof.
  unfold jobs_of_tile.
  assert (H : forall rows : list Z,
             length (rows ≫= (fun j => (fun i => (tile, j, i))
                                          <$> seqZ (x_start tile) (width tile)))
             = (length rows * Z.to_nat (width tile))%nat).
  { induction rows as [|r rows IH]; [reflexivity|].
    rewrite bind_cons, length_app, IH, length_fmap, length_seqZ. simpl. lia. }
  rewrite H, length_seqZ. lia.
Qed.

(** A pixel outside the tile has an index that no pixel of the tile
    has. *)
Lemma outside_tile_index (nx : Z) (tile : RenderTile) (i j : Z) :
  0 <= x_start tile -> x_start tile + width tile <= nx ->
  0 <= i < nx -> in_tile tile i j = false ->
  j * nx + i ∉ (pixel_index nx <$> jobs_of_tile tile).
Proof.
  intros Hx Hw Hi Hout Hin.
  apply list_elem_of_fmap in Hin as ([[t j'] i'] & Hidx & Hjob). simpl in Hidx.
  apply elem_of_jobs_of_tile in Hjob as [-> Hjob].
  assert (Hi' : 0 <= i' < nx).
  { unfold in_tile in Hjob. repeat (apply andb_prop in Hjob as [Hjob ?]). lia. }
  destruct (pixel_index_inj nx j i j' i' Hi Hi' Hidx) as [-> ->]. congruence.
Qed.

Section TileWorkers.

Variable RandState : Type.
Variable std_rand : RandState -> Z * RandState.
Variable RAND_MAX : Z.
Variable uninit_rec : HitRecord.
Variable Display : Type.
Variable UpdatePixel : Display -> Z -> Z -> Vec3 -> Display.
Variable control : nat -> Flags.

Variable fuel : nat.
Variables nx ny : Z.
Variable camera : Camera.
Variable world : Hittable.

Local Abbreviation Worker := (Worker RandState Display).
Local Abbreviation sample :=
  (sample RandState std_rand RAND_MAX uninit_rec Display fuel nx ny camera world).
Local Abbreviation sample_loop n :=
  (sample_loop RandState std_rand RAND_MAX uninit_rec Display n fuel nx ny camera world).
Local Abbreviation pixel_colour :=
  (pixel_colour RandState std_rand RAND_MAX uninit_rec Display fuel nx ny camera world).
Local Abbreviation optimized_pixel :=
  (optimized_pixel RandState std_rand RAND_MAX uninit_rec Display fuel).
Local Abbreviation progressive_pixel :=
  (progressive_pixel RandState std_rand RAND_MAX uninit_rec Display UpdatePixel control fuel).
Local Abbreviation run_jobs_optimized :=
  (run_jobs_optimized RandState std_rand RAND_MAX uninit_rec Display fuel nx ny camera world).
Local Abbreviation run_jobs_progressive :=
  (run_jobs_progressive RandState std_rand RAND_MAX uninit_rec Display UpdatePixel control
     fuel nx ny camera world).

Lemma sample_counters (max_depth i j : Z) (w w' : Worker) (c : Vec3) :
  sample max_depth i j w = Some (c, w') ->
  rays_traced _ _ w' = rays_traced _ _ w + 1 /\
  completed_pixels _ _ w' = completed_pixels _ _ w.
Proof.
  unfold sample. intros H.
  destruct (FastRandom_random (fast w)) as [r1 f1].
  destruct (FastRandom_random f1) as [r2 f2].
  destruct (GetRay _ _ _ _ _ _ _ _) as [[ray cr]|]; [|discriminate].
  destruct (ColorOptimized _ _ _ _ _ _) as [c0 f3].
  injection H as <- <-. split; reflexivity.
Qed.

Lemma sample_loop_counters (max_depth i j : Z) (n : nat) :
  forall (col : Vec3) (w : Worker) (col' : Vec3) (w' : Worker),
    sample_loop n max_depth i j col w = Some (col', w') ->
    rays_traced _ _ w' = rays_traced _ _ w + Z.of_nat n /\
    completed_pixels _ _ w' = completed_pixels _ _ w.
Proof.
  induction n as [|n IH]; intros col w col' w' H; simpl in H.
  - injection H as <- <-. split; [lia | reflexivity].
  - destruct (sample max_depth i j w) as [[c w1]|] eqn:Hs; [|discriminate].
    destruct (sample_counters _ _ _ _ _ _ Hs) as [Hr Hc].
    destruct (IH _ _ _ _ H) as [Hr' Hc']. split; lia.
Qed.

Lemma optimized_pixel_counters (tile : RenderTile) (j i : Z) (w w' : Worker) (b : bool) :
  optimized_pixel tile nx ny camera world j i w = Some (b, w') ->
  rays_traced _ _ w' = rays_traced _ _ w + Z.max 0 (samples_per_pixel tile) /\
  completed_pixels _ _ w' = completed_pixels _ _ w + 1.
Proof.
  unfold optimized_pixel, pixel_colour. intros H.
  destruct (sample_loop _ _ _ _ _ _) as [[col w1]|] eqn:Hl; [|discriminate].
  destruct (sample_loop_counters _ _ _ _ _ _ _ _ Hl) as [Hr Hc].
  destruct (store _ _ _) as [p|]; [|discriminate].
  injection H as <- <-. simpl. split; lia.
Qed.

Lemma run_jobs_optimized_counters (ns : Z) (js : list (RenderTile * Z * Z)) :
  Forall (fun job => samples_per_pixel job.1.1 = ns) js ->
  forall (w w' : Worker) (b : bool),
    run_jobs_optimized js w = Some (b, w') ->
    rays_traced _ _ w' = rays_traced _ _ w + Z.of_nat (length js) * Z.max 0 ns /\
    completed_pixels _ _ w' = completed_pixels _ _ w + Z.of_nat (length js).
Proof.
  unfold run_jobs_optimized.
  induction 1 as [|[[tile j] i] js Ht Hjs IH]; intros w w' b H; simpl in H.
  - injection H as <- <-. simpl. split; lia.
  - simpl in Ht. subst ns.
    destruct (optimized_pixel tile nx ny camera world j i w) as [[b1 w1]|] eqn:Hpx;
      [|discriminate].
    destruct (optimized_pixel_counters _ _ _ _ _ _ Hpx) as [Hr Hc].
    destruct (optimized_pixel_store _ _ _ _ _ _ _ _ _ _ _ _ _ _ _ _ Hpx) as (-> & _).
    destruct (IH _ _ _ H) as [Hr' Hc']. rewrite length_cons. split; lia.
Qed.

Lemma progressive_pixel_returned (tile : RenderTile) (j i : Z) (w w' : Worker) :
  progressive_pixel tile nx ny camera world j i w = Some (true, w') ->
  pixels w' = pixels w.
Proof.
  unfold progressive_pixel. intros H.
  destruct (check_stop control fuel (loads w)) as [[[] k]|]; try discriminate.
  - injection H as <-. reflexivity.
  - destruct (pixel_colour _ _ _ _ _) as [[col w1]|];
      [|discriminate].
    destruct (store _ _ _); discriminate.
Qed.

End TileWorkers.

(** X11.  A tile worker writes inside its tile only.  When
    [render_tile_optimized] has run, or [render_tile_progressive] has run
    or has been stopped, on a tile that lies between the columns 0 and
    [nx], the buffer has the length it had and every pixel of the image
    outside the tile holds what it held. *)
Theorem tile_workers_write_inside_tile (RandState : Type)
    (std_rand : RandState -> Z * RandState) (RAND_MAX : Z) (u : HitRecord)
    (Display : Type) (UpdatePixel : Display -> Z -> Z -> Vec3 -> Display)
    (control : nat -> Flags) (fuel : nat) (nx ny : Z) (camera : Camera)
    (world : Hittable) (tile : RenderTile) (w w' : Worker RandState Display)
    (b : bool) :
  0 <= x_start tile -> x_start tile + width tile <= nx ->
  render_tile_optimized RandState std_rand RAND_MAX u Display fuel tile nx ny
    camera world w = Some (b, w') \/
  render_tile_progressive RandState std_rand RAND_MAX u Display UpdatePixel control
    fuel tile nx ny camera world w = Some (b, w') ->
  length (pixels w') = length (pixels w) /\
  forall i j, 0 <= i < nx -> 0 <= j -> in_tile tile i j = false ->
    pixels w' !! Z.to_nat (j * nx + i) = pixels w !! Z.to_nat (j * nx + i).
Proof.
  intros Hx Hw Hrun.
  pose proof (NoDup_pixel_index_tile nx tile Hx Hw) as Hnd.
  assert (Hgoal : length (pixels w') = length (pixels w) /\
            forall k, 0 <= k -> k ∉ (pixel_index nx <$> jobs_of_tile tile) ->
              pixels w' !! Z.to_nat k = pixels w !! Z.to_nat k).
  { destruct Hrun as [Hrun|Hrun].
    - rewrite render_tile_optimized_jobs in Hrun.
      apply run_jobs_optimized_spec in Hrun as (_ & Hlen & Hframe & _); auto.
    - rewrite render_tile_progressive_jobs in Hrun.
      unfold run_jobs_progressive in Hrun.
      set (Q := fun (job : RenderTile * Z * Z) (w0 : Worker RandState Display) col =>
                  let '(tile, j, i) := job in
                  exists cs,
                    samples_of RandState std_rand RAND_MAX u Display
                      (Z.to_nat (samples_per_pixel tile)) fuel nx ny camera world 8 i j w0
                    = Some cs /\
                    col = gamma (average cs (samples_per_pixel tile))).
      assert (Hbody : forall a wa wb,
                (let '(tile, j, i) := a in
                 progressive_pixel RandState std_rand RAND_MAX u Display UpdatePixel control
                   fuel tile nx ny camera world j i) wa = Some (false, wb) ->
                0 <= pixel_index nx a < Z.of_nat (length (pixels wa)) /\
                exists col, Q a wa col /\
                  pixels wb = <[Z.to_nat (pixel_index nx a) := col]> (pixels wa)).
      { intros [[t' j'] i'] wa wb Hpx.
        exact (progressive_pixel_store _ _ _ _ _ _ _ _ _ _ _ _ _ _ _ _ _ Hpx). }
      destruct b.
      + apply for_each_returned in Hrun
          as (pre & [[t' j'] i'] & post & w1 & Hsplit & Hpre & Hret).
        apply progressive_pixel_returned in Hret.
        rewrite Hsplit, fmap_app in Hnd. apply NoDup_app in Hnd as (Hnd_pre & _ & _).
        apply (for_each_stores pixels (pixel_index nx) Q _ Hbody pre Hnd_pre) in Hpre
          as (Hlen & Hframe & _).
        rewrite Hret. split; [exact Hlen|]. intros k Hk Hnot. apply Hframe; [exact Hk|].
        intros Hin. apply Hnot. rewrite Hsplit, fmap_app. apply elem_of_app. left. exact Hin.
      + apply (for_each_stores pixels (pixel_index nx) Q _ Hbody _ Hnd) in Hrun
          as (Hlen & Hframe & _). auto. }
  destruct Hgoal as [Hlen Hframe]. split; [exact Hlen|].
  intros i j Hi Hj Hout. apply Hframe; [nia|].
  apply outside_tile_index; assumption.
Qed.

(** A 2 by 1 buffer and the tile of its first pixel: after the worker has
    run the second pixel is still black. *)
Lemma tile_workers_write_inside_tile_witness :
  exists (b : bool) (w' : Worker unit unit),
    render_tile_optimized unit rand_half 32767 rec0 unit 1
      (mkRenderTile 0 0 1 1 1) 2 1 camera0 empty_world (worker0 2) = Some (b, w') /\
    pixels w' !! 1%nat = Some black.
Proof.
  destruct (render_tile_optimized unit rand_half 32767 rec0 unit 1
              (mkRenderTile 0 0 1 1 1) 2 1 camera0 empty_world (worker0 2))
    as [[b w']|] eqn:E; [|vm_compute in E; discriminate E].
  exists b, w'. split; [reflexivity|].
  destruct (tile_workers_write_inside_tile unit rand_half 32767 rec0 unit no_display
              stop_at_fourth_load 1 2 1 camera0 empty_world (mkRenderTile 0 0 1 1 1)
              (worker0 2) w' b) as [_ Hframe].
  - simpl. lia.
  - simpl. lia.
  - left. exact E.
  - apply (Hframe 1 0); [lia | lia | reflexivity].
Defined.



(** *** The pause loop *)

Lemma wait_while_paused_exit (control : nat -> Flags) (fuel : nat) :
  forall k k' : nat,
    wait_while_paused control fuel k = Some k' ->
    exists n : nat,
      (forall m : nat, (m < n)%nat ->
         pause_rendering (control (k + 2 * m)%nat) = true /\
         stop_rendering (control (k + 2 * m + 1)%nat) = false) /\
      ((k' = (k + 2 * n + 1)%nat /\ pause_rendering (control (k + 2 * n)%nat) = false) \/
       (k' = (k + 2 * n + 2)%nat /\ pause_rendering (control (k + 2 * n)%nat) = true /\
        stop_rendering (control (k + 2 * n + 1)%nat) = true)).
Proof.
  induction fuel as [|fuel IH]; intros k k' H; simpl in H; [discriminate|].
  destruct (pause_rendering (control k)) eqn:Hp.
  - destruct (stop_rendering (control (S k))) eqn:Hs.
    + injection H as <-. exists 0%nat. split; [lia|]. right.
      replace (k + 2 * 0)%nat with k by lia. replace (k + 1)%nat with (S k) by lia.
      split; [lia | auto].
    + destruct (IH _ _ H) as (n & Hbefore & Hexit). exists (S n). split.
      * intros [|m] Hm.
        -- replace (k + 2 * 0)%nat with k by lia.
           replace (k + 1)%nat with (S k) by lia. auto.
        -- replace (k + 2 * S m)%nat with (S (S k) + 2 * m)%nat by lia.
           apply Hbefore. lia.
      * replace (k + 2 * S n)%nat with (S (S k) + 2 * n)%nat by lia. exact Hexit.
  - injection H as <-. exists 0%nat. split; [lia|]. left.
    replace (k + 2 * 0)%nat with k by lia. split; [lia | exact Hp].
Qed.

Lemma wait_while_paused_forever (control : nat -> Flags) (fuel : nat) :
  forall k : nat,
    (forall n : nat, (k <= n)%nat ->
       pause_rendering (control n) = true /\ stop_rendering (control n) = false) ->
    wait_while_paused control fuel k = None.
Proof.
  induction fuel as [|fuel IH]; intros k H; simpl; [reflexivity|].
  destruct (H k ltac:(lia)) as [-> _]. destruct (H (S k) ltac:(lia)) as [_ ->].
  apply IH. intros n Hn. apply H. lia.
Qed.

(** X13.  The pause loop of [render_tile_progressive] reads the pause
    flag and, when that is set, the stop flag, again and again.  It ends at
    the first reading at which the pause flag is clear or the stop flag is
    set, all the readings before having seen the worker paused and not
    stopped; and while the controller keeps the worker paused and does not
    stop it the loop never ends, so the worker stores no pixel. *)
Theorem pause_loop_waits (RandState : Type)
    (std_rand : RandState -> Z * RandState) (RAND_MAX : Z) (u : HitRecord)
    (Display : Type) (UpdatePixel : Display -> Z -> Z -> Vec3 -> Display)
    (control : nat -> Flags) (fuel : nat) (nx ny : Z) (camera : Camera)
    (world : Hittable) (tile : RenderTile) (j i : Z) (w : Worker RandState Display)
    (k : nat) :
  (forall k' : nat,
     wait_while_paused control fuel k = Some k' ->
     exists n : nat,
       (forall m : nat, (m < n)%nat ->
          pause_rendering (control (k + 2 * m)%nat) = true /\
          stop_rendering (control (k + 2 * m + 1)%nat) = false) /\
       ((k' = (k + 2 * n + 1)%nat /\ pause_rendering (control (k + 2 * n)%nat) = false) \/
        (k' = (k + 2 * n + 2)%nat /\ pause_rendering (control (k + 2 * n)%nat) = true /\
         stop_rendering (control (k + 2 * n + 1)%nat) = true))) /\
  ((forall n : nat, (loads w <= n)%nat ->
      pause_rendering (control n) = true /\ stop_rendering (control n) = false) ->
   wait_while_paused control fuel (loads w) = None /\
   progressive_pixel RandState std_rand RAND_MAX u Display UpdatePixel control fuel
     tile nx ny camera world j i w = None).
Proof.
  split; [apply wait_while_paused_exit|].
  intros H. pose proof (wait_while_paused_forever control fuel (loads w) H) as Hw.
  split; [exact Hw|]. unfold progressive_pixel, check_stop. rewrite Hw. reflexivity.
Qed.

(** The pixels of the tiles of [create_tiles] are the pixels of the image,
    each once: there are [nx * ny] of them. *)
Lemma length_jobs_create_tiles (nx ny ns tile_size : Z) (tiles : list RenderTile) :
  0 < tile_size -> 0 <= nx -> 0 <= ny ->
  create_tiles nx ny ns tile_size = Some tiles ->
  Z.of_nat (length (jobs tiles)) = nx * ny.
Proof.
  intros Hts Hnx Hny Htiles.
  destruct (create_tiles_covering nx ny ns tile_size Hts) as (tiles' & Hrun & Hcov & Hok).
  rewrite Htiles in Hrun. injection Hrun as <-.
  assert (Hnd : NoDup (pixel_index nx <$> jobs tiles)).
  { apply NoDup_pixel_index_jobs.
    - intros px py. rewrite Hcov. destruct (in_image nx ny px py); lia.
    - eapply Forall_impl; [exact Hok|]. unfold clipped_tile. intros t Ht. lia. }
  assert (Hperm : pixel_index nx <$> jobs tiles ≡ₚ seqZ 0 (nx * ny)).
  { apply NoDup_Permutation; [exact Hnd | apply NoDup_seqZ|].
    intros k. rewrite elem_of_seqZ, list_elem_of_fmap. split.
    - intros ([[t j] i] & -> & Hjob). simpl.
      unfold jobs in Hjob. apply list_elem_of_bind in Hjob as (t' & Hjob & Ht').
      apply elem_of_jobs_of_tile in Hjob as [-> Hin].
      assert (Hone : (1 <= covering tiles i j)%nat) by (apply covering_elem; eauto).
      rewrite Hcov in Hone. destruct (in_image nx ny i j) eqn:Him; [|lia].
      unfold in_image in Him. repeat (apply andb_prop in Him as [Him ?]). nia.
    - intros Hk. assert (Hnx0 : 0 < nx) by nia.
      pose proof (Z.mod_pos_bound k nx Hnx0) as Hmod.
      pose proof (Z.div_mod k nx ltac:(lia)) as Hdm.
      assert (Hdiv : 0 <= k / nx < ny).
      { split; [apply Z.div_pos; lia|]. apply Z.div_lt_upper_bound; lia. }
      assert (Him : in_image nx ny (k mod nx) (k / nx) = true).
      { unfold in_image. repeat (apply andb_true_intro; split); lia. }
      assert (Hone : (1 <= covering tiles (k mod nx) (k / nx))%nat)
        by (rewrite Hcov, Him; lia).
      apply covering_elem in Hone as (t & Ht & Hin).
      exists (t, k / nx, k mod nx). split; [simpl; lia|].
      unfold jobs. apply list_elem_of_bind. exists t.
      split; [apply elem_of_jobs_of_tile; auto | exact Ht]. }
  apply Permutation_length in Hperm.
  rewrite length_fmap, length_seqZ in Hperm. lia.
Qed.



(** ** What the display is sent *)

Section DisplayCalls.

Variable RandState : Type.
Variable std_rand : RandState -> Z * RandState.
Variable RAND_MAX : Z.
Variable uninit_rec : HitRecord.
Variable Display : Type.
Variable UpdatePixel : Display -> Z -> Z -> Vec3 -> Display.
Variable control : nat -> Flags.

Variable fuel : nat.
Variables nx ny : Z.
Variable camera : Camera.
Variable world : Hittable.

Local Abbreviation Worker := (Worker RandState Display).
Local Abbreviation pixel_colour :=
  (pixel_colour RandState std_rand RAND_MAX uninit_rec Display fuel nx ny camera world).
Local Abbreviation progressive_pixel :=
  (progressive_pixel RandState std_rand RAND_MAX uninit_rec Display UpdatePixel control fuel).
Local Abbreviation run_jobs_progressive :=
  (run_jobs_progressive RandState std_rand RAND_MAX uninit_rec Display UpdatePixel control
     fuel nx ny camera world).

Local Abbreviation sample :=
  (sample RandState std_rand RAND_MAX uninit_rec Display fuel nx ny camera world).
Local Abbreviation sample_loop n :=
  (sample_loop RandState std_rand RAND_MAX uninit_rec Display n fuel nx ny camera world).

(** Sampling sends the display nothing. *)
Lemma sample_display (max_depth i j : Z) (w w' : Worker) (c : Vec3) :
  sample max_depth i j w = Some (c, w') -> display w' = display w.
Proof.
  unfold sample. intros H.
  destruct (FastRandom_random (fast w)) as [r1 f1].
  destruct (FastRandom_random f1) as [r2 f2].
  destruct (GetRay _ _ _ _ _ _ _ _) as [[ray cr]|]; [|discriminate].
  destruct (ColorOptimized _ _ _ _ _ _) as [c' f3].
  injection H as _ <-. reflexivity.
Qed.

Lemma sample_loop_display (max_depth i j : Z) (n : nat) :
  forall col w c w',
    sample_loop n max_depth i j col w = Some (c, w') -> display w' = display w.
Proof.
  induction n as [|n IH]; intros col w c w' H; simpl in H.
  - injection H as _ <-. reflexivity.
  - destruct (sample max_depth i j w) as [[c1 w1]|] eqn:Hs; [|discriminate].
    rewrite (IH _ _ _ _ H). exact (sample_display _ _ _ _ _ _ Hs).
Qed.

Lemma pixel_colour_display (max_depth samples i j : Z) (w w' : Worker) (c : Vec3) :
  pixel_colour max_depth samples i j w = Some (c, w') -> display w' = display w.
Proof.
  unfold pixel_colour. intros H.
  destruct (sample_loop _ _ _ _ _ _) as [[col w1]|] eqn:Hl; [|discriminate].
  injection H as _ <-. exact (sample_loop_display _ _ _ _ _ _ _ _ Hl).
Qed.

(** A body that does not return stores one colour and sends the display
    that colour for that pixel. *)
Lemma progressive_pixel_shows (tile : RenderTile) (j i : Z) (w w' : Worker) :
  progressive_pixel tile nx ny camera world j i w = Some (false, w') ->
  0 <= j * nx + i < Z.of_nat (length (pixels w)) /\
  exists col,
    pixels w' = <[Z.to_nat (j * nx + i) := col]> (pixels w) /\
    display w' = UpdatePixel (display w) i j col.
Proof.
  unfold progressive_pixel. intros H.
  destruct (check_stop control fuel (loads w)) as [[[] k]|]; try discriminate.
  destruct (pixel_colour _ _ _ _ _) as [[col w1]|] eqn:Hc; [|discriminate].
  destruct (pixel_colour_average _ _ _ _ _ _ _ _ _ _ _ _ _ _ _ _ _ Hc)
    as (Hp & _ & cs & Hcs & ->).
  apply pixel_colour_display in Hc. simpl in Hp, Hc.
  unfold store in H. rewrite Hp in H.
  destruct ((0 <=? j * nx + i) && (j * nx + i <? Z.of_nat (length (pixels w))))
    eqn:Hidx; [|discriminate].
  injection H as <-. split; [lia|].
  eexists. split; [reflexivity|]. cbn [display]. rewrite Hc. reflexivity.
Qed.

(** A body that returns sends the display nothing. *)
Lemma progressive_pixel_returned_display (tile : RenderTile) (j i : Z) (w w' : Worker) :
  progressive_pixel tile nx ny camera world j i w = Some (true, w') ->
  display w' = display w.
Proof.
  unfold progressive_pixel. intros H.
  destruct (check_stop control fuel (loads w)) as [[[] k]|]; try discriminate.
  - injection H as <-. reflexivity.
  - destruct (pixel_colour _ _ _ _ _) as [[col w1]|]; [|discriminate].
    destruct (store _ _ _); discriminate.
Qed.

(** The pixels of a list that has been run to its end: the display has
    been sent one call for each, in order, with the colour the buffer
    holds for it at the end. *)
Lemma run_jobs_progressive_shown (js : list (RenderTile * Z * Z)) :
  NoDup (pixel_index nx <$> js) ->
  forall w w',
    run_jobs_progressive js w = Some (false, w') ->
    exists cols,
      Forall2 (fun job col => pixels w' !! Z.to_nat (pixel_index nx job) = Some col)
        js cols /\
      display w' = shown UpdatePixel (display w) (zip js cols).
Proof.
  unfold run_jobs_progressive.
  induction js as [|[[t j] i] js IH]; intros Hnd w w' H.
  - injection H as <-. exists []. split; [constructor | reflexivity].
  - cbn [for_each] in H.
    destruct (progressive_pixel t nx ny camera world j i w) as [[[] w1]|] eqn:Ha;
      try discriminate.
    destruct (progressive_pixel_shows _ _ _ _ _ Ha) as (Hidx & col & Hw1 & Hd1).
    rewrite fmap_cons in Hnd. apply NoDup_cons in Hnd as [Hnotin Hnd].
    destruct (IH Hnd _ _ H) as (cols & Hall & Hshown).
    exists (col :: cols). split.
    + constructor; [|exact Hall].
      apply (for_each_stores pixels (pixel_index nx) (fun _ _ _ => True)) in H;
        [|intros [[t' j'] i'] wa wb Hpx;
          destruct (progressive_pixel_shows _ _ _ _ _ Hpx) as (? & c & ? & _);
          split; [assumption|]; exists c; auto
         |exact Hnd].
      destruct H as (_ & Hframe & _).
      rewrite (Hframe (pixel_index nx (t, j, i))); [|simpl; lia|exact Hnotin].
      rewrite Hw1. apply list_lookup_insert_eq. simpl. lia.
    + rewrite Hshown, Hd1. reflexivity.
Qed.

End DisplayCalls.

(** The pixels of a tile split into those processed and those left; the
    display has been sent the colours of the first, in order. *)
Lemma progressive_calls (RandState : Type)
    (std_rand : RandState -> Z * RandState) (RAND_MAX : Z) (u : HitRecord)
    (Display : Type) (UpdatePixel : Display -> Z -> Z -> Vec3 -> Display)
    (control : nat -> Flags) (fuel : nat) (nx ny : Z) (camera : Camera)
    (world : Hittable) (tile : RenderTile) (w w' : Worker RandState Display)
    (b : bool) :
  0 <= x_start tile -> x_start tile + width tile <= nx ->
  render_tile_progressive RandState std_rand RAND_MAX u Display UpdatePixel control
    fuel tile nx ny camera world w = Some (b, w') ->
  exists done rest cols,
    jobs_of_tile tile = done ++ rest /\
    (if b then rest <> [] else rest = []) /\
    Forall2 (fun job col => pixels w' !! Z.to_nat (pixel_index nx job) = Some col)
      done cols /\
    display w' = shown UpdatePixel (display w) (zip done cols).
Proof.
  intros Hx Hw H.
  pose proof (NoDup_pixel_index_tile nx tile Hx Hw) as Hnd.
  rewrite render_tile_progressive_jobs in H.
  destruct b.
  - unfold run_jobs_progressive in H.
    apply for_each_returned in H as (pre & [[t j] i] & post & w1 & Hjobs & Hpre & Hret).
    rewrite Hjobs, fmap_app in Hnd. apply NoDup_app in Hnd as (Hnd & _ & _).
    destruct (run_jobs_progressive_shown RandState std_rand RAND_MAX u Display UpdatePixel
                control fuel nx ny camera world pre Hnd w w1 Hpre) as (cols & Hall & Hshown).
    exists pre, ((t, j, i) :: post), cols.
    split; [exact Hjobs|]. split; [discriminate|].
    rewrite (progressive_pixel_returned _ _ _ _ _ _ _ _ _ _ _ _ _ _ _ _ _ Hret).
    rewrite (progressive_pixel_returned_display _ _ _ _ _ _ _ _ _ _ _ _ _ _ _ _ _ Hret).
    auto.
  - destruct (run_jobs_progressive_shown RandState std_rand RAND_MAX u Display UpdatePixel
                control fuel nx ny camera world _ Hnd w w' H) as (cols & Hall & Hshown).
    exists (jobs_of_tile tile), [], cols. rewrite app_nil_r.
    split; [reflexivity|]. split; [reflexivity|]. auto.
Qed.

(** X23.  The display follows the buffer.  When
    [render_tile_progressive] ends, with the tile finished or stopped on the
    way, the display has been sent exactly one [UpdatePixel] for each pixel
    processed, in the order of the loops, with the colour the buffer holds
    for that pixel; it has been sent nothing for the pixels left.  A
    finished tile leaves no pixel; a stopped one leaves at least one. *)
Theorem progressive_display_follows_buffer (RandState : Type)
    (std_rand : RandState -> Z * RandState) (RAND_MAX : Z) (u : HitRecord)
    (Display : Type) (UpdatePixel : Display -> Z -> Z -> Vec3 -> Display)
    (control : nat -> Flags) (fuel : nat) (nx ny : Z) (camera : Camera)
    (world : Hittable) (tile : RenderTile) (w w' : Worker RandState Display)
    (b : bool) :
  0 <= x_start tile -> x_start tile + width tile <= nx ->
  render_tile_progressive RandState std_rand RAND_MAX u Display UpdatePixel control
    fuel tile nx ny camera world w = Some (b, w') ->
  exists done rest cols,
    jobs_of_tile tile = done ++ rest /\
    (b = false -> rest = []) /\
    (b = true -> rest <> []) /\
    Forall2 (fun job col => pixels w' !! Z.to_nat (pixel_index nx job) = Some col)
      done cols /\
    display w' = shown UpdatePixel (display w) (zip done cols).
Proof.
  intros Hx Hw H.
  destruct (progressive_calls _ _ _ _ _ _ _ _ _ _ _ _ _ _ _ _ Hx Hw H)
    as (done & rest & cols & Hjobs & Hrest & Hall & Hshown).
  exists done, rest, cols. split; [exact Hjobs|].
  split; [intros ->; exact Hrest|]. split; [intros ->; exact Hrest|].
  split; [exact Hall | exact Hshown].
Qed.

(** A tile of two pixels in a 2 by 1 image and a display that records its
    calls; the stop flag is seen at the test before the second pixel.  The
    display has recorded one call, for the first pixel. *)
Lemma progressive_display_follows_buffer_witness :
  exists (b : bool) (w' : Worker unit (list (Z * Z * Vec3))),
    render_tile_progressive unit rand_half 32767 rec0 (list (Z * Z * Vec3)) log_display
      stop_at_fourth_load 1 (mkRenderTile 0 0 2 1 1) 2 1 camera0 empty_world
      (logging_worker 2) = Some (b, w') /\
    exists done rest cols,
      jobs_of_tile (mkRenderTile 0 0 2 1 1) = done ++ rest /\
      (b = false -> rest = []) /\
      (b = true -> rest <> []) /\
      Forall2 (fun job col => pixels w' !! Z.to_nat (pixel_index 2 job) = Some col)
        done cols /\
      display w' = shown log_display [] (zip done cols).
Proof.
  destruct (render_tile_progressive unit rand_half 32767 rec0 (list (Z * Z * Vec3))
              log_display stop_at_fourth_load 1 (mkRenderTile 0 0 2 1 1) 2 1 camera0
              empty_world (logging_worker 2))
    as [[b w']|] eqn:E; [|vm_compute in E; discriminate E].
  exists b, w'. split; [reflexivity|].
  apply (progressive_display_follows_buffer unit rand_half 32767 rec0
           (list (Z * Z * Vec3)) log_display stop_at_fourth_load 1 2 1 camera0
           empty_world (mkRenderTile 0 0 2 1 1) (logging_worker 2) w' b).
  - simpl. lia.
  - simpl. lia.
  - exact E.
Defined.

(** ** Random numbers *)

Lemma leb_false_ltb_or_nan (x y : float) :
  (x <=? y)%f32 = false -> not_nan x -> not_nan y -> (y <? x)%f32 = true.
Proof.
  intros Hle Hx Hy. destruct (y <? x)%f32 eqn:Hlt; [reflexivity|].
  rewrite (not_ltb_leb y x Hy Hx Hlt) in Hle. discriminate.
Qed.

(** X14.  The two rejection samplers return only candidates that
    passed their test: the point of [RandomInUnitSphere] does not have a
    squared length [>= 1] (it is below 1, or a NaN), and the point of
    [Camera::RandomUnitInDisk] does not have [Dot(p, p) >= 1] and lies in
    the plane [z = 0]. *)
Theorem rejection_samplers_accept_inside (RandState : Type)
    (std_rand : RandState -> Z * RandState) (RAND_MAX : Z) (fuel : nat)
    (st st' : RandState) (p : Vec3) :
  (RandomInUnitSphere RandState std_rand RAND_MAX fuel st = Some (p, st') ->
   (f1_0 <=? SquaredLength p)%f32 = false /\
   (not_nan (SquaredLength p) -> (SquaredLength p <? f1_0)%f32 = true)) /\
  (RandomUnitInDisk RandState std_rand RAND_MAX fuel st = Some (p, st') ->
   (f1_0 <=? Dot p p)%f32 = false /\
   (not_nan (Dot p p) -> (Dot p p <? f1_0)%f32 = true) /\
   GetZ p = f0_0).
Proof.
  split.
  - revert st. induction fuel as [|n IH]; intros st H; simpl in H; [discriminate|].
    destruct (rand01 _ _ _ st) as [x st1].
    destruct (rand01 _ _ _ st1) as [y st2].
    destruct (rand01 _ _ _ st2) as [z st3].
    match type of H with (if ?c then _ else _) = _ => destruct c eqn:E end;
      [exact (IH _ H)|].
    injection H as <- <-. split; [exact E|].
    intros Hn. apply leb_false_ltb_or_nan; [exact E | discriminate | exact Hn].
  - revert st. induction fuel as [|n IH]; intros st H; simpl in H; [discriminate|].
    destruct (rand01 _ _ _ st) as [x st1].
    destruct (rand01 _ _ _ st1) as [y st2].
    match type of H with (if ?c then _ else _) = _ => destruct c eqn:E end;
      [exact (IH _ H)|].
    injection H as <- <-. split; [exact E|]. split; [|reflexivity].
    intros Hn. apply leb_false_ltb_or_nan; [exact E | discriminate | exact Hn].
Qed.

(** X15.  The state of [FastRandom] stays a 32-bit value, and the step
    is one-to-one on 32-bit states: two different states never lead to the
    same state, so the generator cannot run into a shorter cycle from
    outside it. *)
Theorem FastRandom_step_is_one_to_one (s1 s2 : Z) :
  0 <= snd (FastRandom_random s1) < 2 ^ 32 /\
  (0 <= s1 < 2 ^ 32 -> 0 <= s2 < 2 ^ 32 ->
   snd (FastRandom_random s1) = snd (FastRandom_random s2) -> s1 = s2).
Proof.
  unfold FastRandom_random. cbn [snd]. split; [apply Z.mod_pos_bound; lia|].
  intros H1 H2 H.
  assert (Hdiv : (2 ^ 32 | 1664525 * (s1 - s2))).
  { apply Z.mod_divide; [lia|].
    replace (1664525 * (s1 - s2))
      with ((s1 * 1664525 + 1013904223) - (s2 * 1664525 + 1013904223)) by lia.
    rewrite Zminus_mod, H, Z.sub_diag. reflexivity. }
  apply Z.gauss in Hdiv; [|reflexivity].
  destruct Hdiv as [q Hq].
  assert (q = 0) by nia. lia.
Qed.

(** *** The value of FastRandom::random *)

Lemma digits2_pos_size (p : positive) : digits2_pos p = Pos.size p.
Proof. induction p as [p IH|p IH|]; simpl; congruence. Qed.

Lemma digits2_pos_bound (p : positive) (n : Z) :
  0 <= n -> Z.pos p < 2 ^ n -> Z.pos (digits2_pos p) <= n.
Proof.
  intros Hn Hp. rewrite digits2_pos_size.
  pose proof (Pos.size_le p) as Hle.
  assert (H : 2 ^ Z.pos (Pos.size p) <= 2 * Z.pos p).
  { rewrite <- Pos2Z.inj_pow. change (2 * Z.pos p) with (Z.pos p~0).
    apply Pos2Z.pos_le_pos. exact Hle. }
  assert (H2 : 2 ^ Z.pos (Pos.size p) < 2 ^ (n + 1)).
  { rewrite Z.pow_add_r by lia. lia. }
  apply Z.pow_lt_mono_r_iff in H2; lia.
Qed.

Lemma digits2_pos_iter_xO (p n : positive) :
  digits2_pos (Pos.iter xO p n) = (digits2_pos p + n)%positive.
Proof.
  induction n as [|n IH] using Pos.peano_ind.
  - simpl. lia.
  - rewrite Pos.iter_succ. simpl. rewrite IH. lia.
Qed.

Lemma Zpos_iter_xO (p n : positive) :
  Z.pos (Pos.iter xO p n) = Z.pos p * 2 ^ Z.pos n.
Proof.
  induction n as [|n IH] using Pos.peano_ind.
  - simpl. lia.
  - rewrite Pos.iter_succ, Pos2Z.inj_xO, IH, Pos2Z.inj_succ, Z.pow_succ_r by lia. lia.
Qed.

(** A mantissa of 24 bits with an exponent in range is kept as it is. *)
Lemma shr_fexp_kept (m : positive) (e : Z) :
  Z.pos (digits2_pos m) = 24 -> -149 <= e ->
  shr_fexp F32.prec F32.emax (Z.pos m) e loc_Exact
  = ({| shr_m := Z.pos m; shr_r := false; shr_s := false |}, e).
Proof.
  intros Hd He.
  unfold shr_fexp, fexp, emin, F32.prec, F32.emax. cbn [Zdigits2]. rewrite Hd.
  replace (Z.max (24 + e - 24) (3 - 128 - 24) - e) with 0 by lia. reflexivity.
Qed.

Lemma binary_round_aux_kept (s : bool) (m : positive) (e : Z) :
  Z.pos (digits2_pos m) = 24 -> -149 <= e <= 104 ->
  binary_round_aux F32.prec F32.emax s (Z.pos m) e loc_Exact = S754_finite s m e.
Proof.
  intros Hd He.
  pose proof (shr_fexp_kept m e Hd ltac:(lia)) as Hshr.
  unfold binary_round_aux. rewrite Hshr. cbn [shr_m loc_of_shr_record round_nearest_even].
  rewrite Hshr. cbn [shr_m].
  replace (e <=? F32.emax - F32.prec) with true; [reflexivity|].
  symmetry. apply Z.leb_le. unfold F32.emax, F32.prec. lia.
Qed.

(** The conversion of an integer below [2^24] is exact: the mantissa is
    the integer shifted to 24 bits. *)
Lemma of_Z_small (p : positive) :
  Z.pos p < 2 ^ 24 ->
  exists m : positive,
    Z.pos (digits2_pos m) = 24 /\
    Z.pos m = Z.pos p * 2 ^ (24 - Z.pos (digits2_pos p)) /\
    F32.of_Z (Z.pos p) = S754_finite false m (Z.pos (digits2_pos p) - 24).
Proof.
  intros Hp. pose proof (digits2_pos_bound p 24 ltac:(lia) Hp) as Hd.
  unfold F32.of_Z, binary_normalize, binary_round.
  assert (Hfexp : fexp F32.prec F32.emax (Z.pos (digits2_pos p) + 0)
                  = Z.pos (digits2_pos p) - 24).
  { unfold fexp, emin, F32.prec, F32.emax. lia. }
  rewrite Hfexp. unfold shl_align.
  destruct (Z.pos (digits2_pos p) - 24 - 0) as [|q|q] eqn:E; try lia.
  - exists p. split; [lia|]. split.
    + replace (24 - Z.pos (digits2_pos p)) with 0 by lia. lia.
    + replace (Z.pos (digits2_pos p) - 24) with 0 by lia.
      apply binary_round_aux_kept; lia.
  - exists (Pos.iter xO p q).
    assert (Hdq : Z.pos (digits2_pos (Pos.iter xO p q)) = 24).
    { rewrite digits2_pos_iter_xO. lia. }
    split; [exact Hdq|]. split.
    + rewrite Zpos_iter_xO. f_equal. f_equal. lia.
    + apply binary_round_aux_kept; [exact Hdq | lia].
Qed.

(** The product with [2^-24] is exact as well. *)
Lemma mul_2_pow_m24 (m : positive) (e : Z) :
  Z.pos (digits2_pos m) = 24 -> -23 <= e <= 0 ->
  (S754_finite false m e * (f1_0 / F32.of_Z 16777216))%f32
  = S754_finite false m (e - 24).
Proof.
  intros Hd He.
  change (f1_0 / F32.of_Z 16777216)%f32 with (S754_finite false 8388608 (-47)).
  unfold F32.mul, SFmul. cbn [xorb].
  rewrite Pos.mul_comm.
  change (8388608 * m)%positive
    with (m~0~0~0~0~0~0~0~0~0~0~0~0~0~0~0~0~0~0~0~0~0~0~0)%positive.
  set (mm := (m~0~0~0~0~0~0~0~0~0~0~0~0~0~0~0~0~0~0~0~0~0~0~0)%positive).
  assert (Hdm : Z.pos (digits2_pos mm) = 47).
  { subst mm. cbn [digits2_pos]. lia. }
  assert (Hshr : shr_fexp F32.prec F32.emax (Z.pos mm) (e + -47) loc_Exact
                 = ({| shr_m := Z.pos m; shr_r := false; shr_s := false |}, e - 24)).
  { unfold shr_fexp, fexp, emin, F32.prec, F32.emax. cbn [Zdigits2]. rewrite Hdm.
    replace (Z.max (47 + (e + -47) - 24) (3 - 128 - 24) - (e + -47)) with 23 by lia.
    unfold shr. replace (e + -47 + 23) with (e - 24) by lia. subst mm. reflexivity. }
  unfold binary_round_aux. rewrite Hshr.
  cbn [shr_m loc_of_shr_record round_nearest_even].
  rewrite (shr_fexp_kept m (e - 24) Hd) by lia. cbn [shr_m].
  replace (e - 24 <=? F32.emax - F32.prec) with true; [reflexivity|].
  symmetry. apply Z.leb_le. unfold F32.emax, F32.prec. lia.
Qed.

(** X18.  [FastRandom::random] returns a value in [[0, 1)]: for every
    state the result is at least 0 and strictly below 1.  It is the exact
    quotient [k / 2^24] for the upper 24 bits [k] of the new state: the
    conversion of [k] and the product round nothing. *)
Theorem FastRandom_random_in_unit_interval (state : Z) :
  let r := fst (FastRandom_random state) in
  let k := Z.shiftr (snd (FastRandom_random state)) 8 in
  (f0_0 <=? r)%f32 = true /\
  (r <? f1_0)%f32 = true /\
  0 <= k < 2 ^ 24 /\
  ((k = 0 /\ r = f0_0) \/
   (exists (m : positive) (e : Z),
      r = S754_finite false m e /\ -48 <= e /\ Z.pos m * 2 ^ (e + 48) = k * 2 ^ 24)).
Proof.
  unfold FastRandom_random. cbn [fst snd].
  set (s := (state * 1664525 + 1013904223) mod 2 ^ 32).
  assert (Hs : 0 <= s < 2 ^ 32) by (apply Z.mod_pos_bound; lia).
  assert (Hk : 0 <= Z.shiftr s 8 < 2 ^ 24).
  { rewrite Z.shiftr_div_pow2 by lia. split.
    - apply Z.div_pos; lia.
    - apply Z.div_lt_upper_bound; lia. }
  destruct (Z.shiftr s 8) as [|p|p] eqn:E; [|clear E|lia].
  { split; [reflexivity|]. split; [reflexivity|]. split; [lia|]. left. split; reflexivity. }
  destruct (of_Z_small p ltac:(lia)) as (m & Hm & Hval & ->).
  pose proof (digits2_pos_bound p 24 ltac:(lia) ltac:(lia)) as Hd.
  rewrite (mul_2_pow_m24 m _ Hm) by lia.
  split; [reflexivity|]. split; [|split; [lia|]].
  - unfold F32.ltb, SFltb, SFcompare, f1_0, F32.one.
    change (F32.of_Z 1) with (S754_finite false 8388608 (-23)).
    cbv beta iota.
    match goal with
    | |- context [Z.compare ?a ?b] => destruct (Z.compare_spec a b)
    end; [lia | reflexivity | lia].
  - right. exists m, (Z.pos (digits2_pos p) - 24 - 24).
    split; [reflexivity|]. split; [lia|].
    rewrite Hval.
    replace (Z.pos (digits2_pos p) - 24 - 24 + 48) with (Z.pos (digits2_pos p)) by lia.
    rewrite <- Z.mul_assoc, <- Z.pow_add_r by lia.
    f_equal. f_equal. lia.
Qed.

(** ** The display *)

(** *** Rounding keeps 24 bits *)

Lemma shr_1_m (mrs : shr_record) :
  0 <= shr_m mrs -> shr_m (shr_1 mrs) = shr_m mrs / 2.
Proof.
  destruct mrs as [[|[p|p|]|p] r s]; cbn [shr_1 shr_m]; intros H; try reflexivity; try lia.
  - rewrite Pos2Z.inj_xI. apply (Z.div_unique _ 2 _ 1); lia.
  - rewrite Pos2Z.inj_xO. apply (Z.div_unique _ 2 _ 0); lia.
Qed.

Lemma iter_pos_shr_1_m (p : positive) :
  forall mrs, 0 <= shr_m mrs ->
    shr_m (SpecFloat.iter_pos shr_1 p mrs) = shr_m mrs / 2 ^ Z.pos p.
Proof.
  assert (Hnn : forall m k, 0 <= m -> 0 <= m / 2 ^ Z.pos k)
    by (intros; apply Z.div_pos; lia).
  induction p as [p IH|p IH|]; intros mrs H; cbn [SpecFloat.iter_pos].
  - assert (H1 : 0 <= shr_m (shr_1 mrs))
      by (rewrite shr_1_m by exact H; apply Z.div_pos; lia).
    rewrite IH; rewrite IH by exact H1; [|apply Hnn; exact H1].
    rewrite shr_1_m by exact H.
    rewrite !Z.div_div by lia. f_equal.
    assert (E : Z.pos p~1 = 1 + Z.pos p + Z.pos p) by lia.
    rewrite E, !Z.pow_add_r by lia. rewrite Z.pow_1_r. ring.
  - rewrite IH; rewrite IH by exact H; [|apply Hnn; exact H].
    rewrite Z.div_div by lia. f_equal.
    assert (E : Z.pos p~0 = Z.pos p + Z.pos p) by lia.
    rewrite E, Z.pow_add_r by lia. reflexivity.
  - rewrite shr_1_m by exact H. reflexivity.
Qed.

Lemma Zdigits2_bound (m : Z) : 0 <= m -> m < 2 ^ Zdigits2 m /\ 0 <= Zdigits2 m.
Proof.
  intros H. destruct m as [|p|p]; [simpl; lia| |lia].
  cbn [Zdigits2]. rewrite digits2_pos_size. split; [|lia].
  pose proof (Pos.size_gt p) as Hgt.
  apply Pos2Z.pos_lt_pos in Hgt. rewrite Pos2Z.inj_pow in Hgt. exact Hgt.
Qed.

(** The mantissa [shr_fexp] returns has at most 24 bits. *)
Lemma shr_fexp_bound (m e : Z) (l : location) :
  0 <= m ->
  0 <= shr_m (fst (shr_fexp F32.prec F32.emax m e l)) < 2 ^ 24.
Proof.
  intros Hm. destruct (Zdigits2_bound m Hm) as [Hd Hd0].
  unfold shr_fexp, shr, fexp, emin, F32.prec, F32.emax.
  assert (Hrec : shr_m (shr_record_of_loc m l) = m) by (destruct l as [|[]]; reflexivity).
  destruct (Z.max (Zdigits2 m + e - 24) (3 - 128 - 24) - e) as [|p|p] eqn:En; cbn [fst].
  - rewrite Hrec. split; [exact Hm|].
    apply (Z.lt_le_trans _ _ _ Hd). apply Z.pow_le_mono_r; lia.
  - rewrite iter_pos_shr_1_m by (rewrite Hrec; exact Hm). rewrite Hrec.
    split; [apply Z.div_pos; lia|].
    apply Z.div_lt_upper_bound; [lia|].
    rewrite <- Z.pow_add_r by lia.
    apply (Z.lt_le_trans _ _ _ Hd). apply Z.pow_le_mono_r; lia.
  - rewrite Hrec. split; [exact Hm|].
    apply (Z.lt_le_trans _ _ _ Hd). apply Z.pow_le_mono_r; lia.
Qed.

(** What [binary_round_aux] returns for a mantissa that is not negative:
    a zero, an infinity, or a finite value whose mantissa has at most 24
    bits, all of the sign given. *)
Lemma binary_round_aux_bound (s : bool) (m e : Z) (l : location) :
  0 <= m ->
  let r := binary_round_aux F32.prec F32.emax s m e l in
  r = S754_zero s \/ r = S754_infinity s \/
  exists m' e', r = S754_finite s m' e' /\ Z.pos m' < 2 ^ 24.
Proof.
  intros Hm. cbv zeta. unfold binary_round_aux.
  pose proof (shr_fexp_bound m e l Hm) as H1.
  destruct (shr_fexp F32.prec F32.emax m e l) as [mrs' e'].
  cbn [fst] in H1.
  assert (Hr : 0 <= round_nearest_even (shr_m mrs') (loc_of_shr_record mrs')).
  { unfold round_nearest_even.
    destruct (loc_of_shr_record mrs') as [|[]]; try lia.
    destruct (Z.even _); lia. }
  pose proof (shr_fexp_bound _ e' loc_Exact Hr) as H2.
  destruct (shr_fexp F32.prec F32.emax _ e' loc_Exact) as [mrs'' e''].
  cbn [fst] in H2.
  destruct (shr_m mrs'') as [|m''|m''] eqn:Em; [left; reflexivity| |lia].
  destruct (e'' <=? F32.emax - F32.prec); [|right; left; reflexivity].
  right. right. exists m'', e''. split; [reflexivity | lia].
Qed.

(** *** The bytes of a colour *)

Lemma sqrtrem_nonneg (n : Z) : 0 <= fst (Z.sqrtrem n).
Proof.
  destruct n as [|n|n]; cbn [Z.sqrtrem fst]; try lia.
  destruct (Pos.sqrtrem n) as [sq []]; cbn [fst]; lia.
Qed.

(** A square root is a NaN, plus infinity, a zero or a positive finite
    value. *)
Lemma sqrtf_cases (x : float) :
  F32.sqrtf x = S754_nan \/ F32.sqrtf x = S754_infinity false \/
  (exists s, F32.sqrtf x = S754_zero s) \/
  exists m e, F32.sqrtf x = S754_finite false m e.
Proof.
  unfold F32.sqrtf, SFsqrt.
  destruct x as [s| [] | |[] m e]; eauto 10.
  destruct (SFsqrt_core_binary F32.prec F32.emax (Z.pos m) e) as [[mz ez] lz] eqn:Hcore.
  assert (Hmz : 0 <= mz).
  { unfold SFsqrt_core_binary in Hcore. cbv zeta in Hcore.
    destruct (Z.sqrtrem _) as [q r] eqn:Hq. injection Hcore as <- _ _.
    pose proof (f_equal fst Hq) as Hq1. cbn [fst] in Hq1. rewrite <- Hq1.
    apply sqrtrem_nonneg. }
  destruct (binary_round_aux_bound false mz ez lz Hmz) as [->|[->|(m' & e' & -> & _)]];
    eauto 10.
Qed.

Lemma f255_0_value : f255_0 = S754_finite false 16711680 (-16).
Proof. reflexivity. Qed.

(** The byte of a component after the square root: always one of
    0 .. 255. *)
Lemma byte_of_root (g : float) :
  g = S754_nan \/ g = S754_infinity false \/ (exists s, g = S754_zero s) \/
  (exists m e, g = S754_finite false m e) ->
  exists t, to_unsigned_char (std_min f255_0 (g * f255_0)%f32) = Some t /\
            0 <= t <= 255 /\
            (g = S754_nan \/ g = S754_infinity false -> t = 255) /\
            ((exists s, g = S754_zero s) -> t = 0).
Proof.
  rewrite f255_0_value.
  intros [->|[->|[[s ->]|(m & e & ->)]]].
  - exists 255. vm_compute. repeat split; try discriminate; auto.
    intros [? [=]].
  - exists 255. vm_compute. repeat split; try discriminate; auto.
    intros [? [=]].
  - exists 0. destruct s; vm_compute; repeat split; try discriminate; auto;
      intros [[=]|[=]].
  - assert (Hnot : forall t, 0 <= t <= 255 ->
               0 <= t <= 255 /\
               (S754_finite false m e = S754_nan \/
                S754_finite false m e = S754_infinity false -> t = 255) /\
               ((exists s, S754_finite false m e = S754_zero s) -> t = 0)).
    { intros t Ht. split; [exact Ht|]. split; [intros [[=]|[=]] | intros [? [=]]]. }
    unfold F32.mul, SFmul. cbn [xorb].
    destruct (binary_round_aux_bound false (Z.pos (m * 16711680)) (e + -16) loc_Exact
                ltac:(lia)) as [->|[->|(m' & e' & -> & Hm')]].
    + exists 0. split; [reflexivity|]. apply Hnot. lia.
    + exists 255. split; [reflexivity|]. apply Hnot. lia.
    + unfold std_min, F32.ltb, SFltb, SFcompare.
      destruct (Z.compare_spec e' (-16)) as [->|Hlt|Hgt].
      * destruct (Pos.compare_cont Eq m' 16711680) eqn:Hc.
        -- exists 255. split; [reflexivity|]. apply Hnot. lia.
        -- change (Pos.compare_cont Eq m' 16711680) with (Pos.compare m' 16711680) in Hc.
           apply Pos.compare_lt_iff in Hc.
           exists (Z.shiftl (Z.pos m') (-16)).
           assert (Hb : 0 <= Z.shiftl (Z.pos m') (-16) <= 255).
           { change (Z.shiftl (Z.pos m') (-16)) with (Z.shiftr (Z.pos m') 16).
             rewrite Z.shiftr_div_pow2 by lia. split; [apply Z.div_pos; lia|].
             apply Z.lt_succ_r. apply Z.div_lt_upper_bound; lia. }
           split; [|apply Hnot; exact Hb].
           unfold to_unsigned_char, truncate. cbv zeta.
           destruct Hb as [H0 H1]. apply Z.leb_le in H0, H1. rewrite H0, H1. reflexivity.
        -- exists 255. split; [reflexivity|]. apply Hnot. lia.
      * exists (Z.shiftl (Z.pos m') e').
        assert (Hb : 0 <= Z.shiftl (Z.pos m') e' <= 255).
        { rewrite <- (Z.opp_involutive e') at 1 2. rewrite <- !Z.shiftr_opp_r.
          rewrite Z.shiftr_div_pow2 by lia. split; [apply Z.div_pos; lia|].
          apply Z.lt_succ_r. apply Z.div_lt_upper_bound; [lia|].
          apply (Z.lt_le_trans _ _ _ Hm').
          replace (2 ^ 24) with (2 ^ 17 * 128) by reflexivity.
          apply Z.mul_le_mono_nonneg; try lia.
          apply Z.pow_le_mono_r; lia. }
        split; [|apply Hnot; exact Hb].
        unfold to_unsigned_char, truncate. cbv zeta.
        destruct Hb as [H0 H1]. apply Z.leb_le in H0, H1. rewrite H0, H1. reflexivity.
      * exists 255. split; [reflexivity|]. apply Hnot. lia.
Qed.

Lemma byte_of_component (x : float) :
  exists t, to_unsigned_char (std_min f255_0 (F32.sqrtf x * f255_0)%f32) = Some t /\
            0 <= t <= 255 /\
            (negative_or_nan x = true -> t = 255) /\
            (x = S754_infinity false -> t = 255) /\
            ((exists s, x = S754_zero s) -> t = 0).
Proof.
  destruct (byte_of_root (F32.sqrtf x) (sqrtf_cases x)) as (t & Ht & Hb & Hnan & Hzero).
  exists t. split; [exact Ht|]. split; [exact Hb|]. split; [|split].
  - intros Hx. apply Hnan. left.
    destruct x as [s|[]| |[] m e]; try discriminate; reflexivity.
  - intros ->. apply Hnan. right. reflexivity.
  - intros [s ->]. apply Hzero. exists s. reflexivity.
Qed.

Lemma display_bytes_defined_aux (color : Vec3) :
  exists c : RaylibColor, to_RaylibColor color = Some c.
Proof.
  destruct (byte_of_component (GetX color)) as (r & Hr & _).
  destruct (byte_of_component (GetY color)) as (g & Hg & _).
  destruct (byte_of_component (GetZ color)) as (b & Hb & _).
  exists (Raylib.mkRaylibColor r g b 255).
  unfold to_RaylibColor. cbv zeta. cbn [GetX GetY GetZ]. rewrite Hr, Hg, Hb. reflexivity.
Qed.

(** X24.  The bytes the display makes of a colour are defined for
    every colour: whatever the three components are (NaN, infinite and
    negative values included), the conversion to [unsigned char] is given a
    value between 0 and 255, and alpha is 255.  A component that is a NaN,
    negative or plus infinity gives the byte 255; a zero of either sign
    gives 0. *)
Theorem display_bytes_always_defined (color : Vec3) :
  exists c : RaylibColor,
    to_RaylibColor color = Some c /\
    0 <= Raylib.r c <= 255 /\ 0 <= Raylib.g c <= 255 /\ 0 <= Raylib.b c <= 255 /\
    Raylib.a c = 255 /\
    (forall x byte,
       (x, byte) ∈ [(GetX color, Raylib.r c); (GetY color, Raylib.g c);
                    (GetZ color, Raylib.b c)] ->
       (negative_or_nan x = true -> byte = 255) /\
       (x = S754_infinity false -> byte = 255) /\
       ((exists s, x = S754_zero s) -> byte = 0)).
Proof.
  destruct (byte_of_component (GetX color)) as (r & Hr & Hrb & Hr').
  destruct (byte_of_component (GetY color)) as (g & Hg & Hgb & Hg').
  destruct (byte_of_component (GetZ color)) as (b & Hb & Hbb & Hb').
  exists (Raylib.mkRaylibColor r g b 255).
  split; [unfold to_RaylibColor; cbv zeta; cbn [GetX GetY GetZ]; rewrite Hr, Hg, Hb;
          reflexivity|].
  cbn [Raylib.r Raylib.g Raylib.b Raylib.a].
  repeat (split; [assumption || reflexivity|]).
  intros x byte Hin.
  repeat (apply elem_of_cons in Hin as [[= -> ->]|Hin]; [assumption|]).
  apply elem_of_nil in Hin. contradiction.
Qed.

Lemma vector_set_defined {A : Type} (v : list A) (idx : Z) (x : A) :
  0 <= idx < Z.of_nat (length v) ->
  vector_set v idx x = Some (<[Z.to_nat idx := x]> v).
Proof.
  intros H. unfold vector_set.
  destruct (Z.leb_spec 0 idx); [|lia]. destruct (Z.ltb_spec idx (Z.of_nat (length v))); [|lia].
  reflexivity.
Qed.

Lemma set_display_pixel_defined (d : InteractiveDisplay) (index : Z) (color : Vec3) :
  display_ok d -> 0 <= index < render_width d * render_height d ->
  exists c,
    to_RaylibColor color = Some c /\
    set_display_pixel d index color
    = Some (mkInteractiveDisplay (render_width d) (render_height d)
              (<[Z.to_nat index := c]> (pixel_buffer d))
              (<[Z.to_nat index := color]> (render_buffer d))).
Proof.
  intros (_ & _ & Hp & Hr) Hidx.
  destruct (display_bytes_defined_aux color) as (c & Hc).
  exists c. split; [exact Hc|]. unfold set_display_pixel.
  rewrite vector_set_defined by lia. rewrite Hc.
  rewrite vector_set_defined by lia. reflexivity.
Qed.

(** X25.  [UpdatePixel] is defined for every pixel and every colour on
    a display whose buffers have the size of the image.  Coordinates outside
    the image leave the display as it is.  Inside, the colour is stored in
    the render buffer and its bytes in the pixel buffer at [y * width + x],
    every other pixel of the image keeps what both buffers held, and the
    buffers keep their size. *)
Theorem UpdatePixel_always_defined (d : InteractiveDisplay) (x y : Z) (color : Vec3) :
  display_ok d ->
  exists d',
    InteractiveDisplay_UpdatePixel d x y color = Some d' /\
    display_ok d' /\
    render_width d' = render_width d /\ render_height d' = render_height d /\
    (~ (0 <= x < render_width d /\ 0 <= y < render_height d) -> d' = d) /\
    (0 <= x < render_width d -> 0 <= y < render_height d ->
     render_buffer d' !! Z.to_nat (y * render_width d + x) = Some color /\
     pixel_buffer d' !! Z.to_nat (y * render_width d + x) = to_RaylibColor color /\
     forall x' y',
       0 <= x' < render_width d -> 0 <= y' < render_height d -> (x', y') <> (x, y) ->
       render_buffer d' !! Z.to_nat (y' * render_width d + x')
       = render_buffer d !! Z.to_nat (y' * render_width d + x') /\
       pixel_buffer d' !! Z.to_nat (y' * render_width d + x')
       = pixel_buffer d !! Z.to_nat (y' * render_width d + x')).
Proof.
  intros Hok. unfold InteractiveDisplay_UpdatePixel.
  destruct ((x <? 0) || (x >=? render_width d) || (y <? 0) || (y >=? render_height d))
    eqn:Hout.
  - exists d. split; [reflexivity|]. split; [exact Hok|].
    split; [reflexivity|]. split; [reflexivity|]. split; [reflexivity|].
    intros Hx Hy. exfalso.
    repeat (apply orb_prop in Hout as [Hout|Hout]); lia.
  - repeat (apply orb_false_elim in Hout as [Hout ?]).
    assert (Hx : 0 <= x < render_width d) by lia.
    assert (Hy : 0 <= y < render_height d) by lia.
    assert (Hidx : 0 <= y * render_width d + x < render_width d * render_height d) by nia.
    destruct (set_display_pixel_defined d _ color Hok Hidx) as (c & Hc & ->).
    destruct Hok as (Hw & Hh & Hp & Hr).
    eexists. split; [reflexivity|]. cbn [render_width render_height].
    split.
    { unfold display_ok. cbn [render_width render_height pixel_buffer render_buffer].
      rewrite !length_insert. auto. }
    split; [reflexivity|]. split; [reflexivity|]. split; [intros Hn; exfalso; auto|].
    intros _ _. cbn [render_buffer pixel_buffer].
    split; [apply list_lookup_insert_eq; lia|].
    split; [rewrite Hc; apply list_lookup_insert_eq; lia|].
    intros x' y' Hx' Hy' Hne.
    assert (Hidx' : Z.to_nat (y * render_width d + x) <> Z.to_nat (y' * render_width d + x')).
    { intros E. apply Hne.
      assert (E' : y' * render_width d + x' = y * render_width d + x) by nia.
      destruct (pixel_index_inj _ _ _ _ _ Hx' Hx E') as [-> ->]. reflexivity. }
    split; apply list_lookup_insert_ne; exact Hidx'.
Qed.

Lemma UpdatePixel_always_defined_witness :
  exists d',
    InteractiveDisplay_UpdatePixel display_2x1 1 0 (v3 4 1 0) = Some d' /\
    render_buffer d' !! 1%nat = Some (v3 4 1 0) /\
    pixel_buffer d' !! 1%nat = Some (Raylib.mkRaylibColor 255 255 0 255) /\
    render_buffer d' !! 0%nat = Some black.
Proof.
  assert (Hok : display_ok display_2x1) by (unfold display_ok; simpl; lia).
  destruct (UpdatePixel_always_defined display_2x1 1 0 (v3 4 1 0) Hok)
    as (d' & Hrun & _ & _ & _ & _ & Hin).
  exists d'. split; [exact Hrun|].
  destruct (Hin ltac:(simpl; lia) ltac:(simpl; lia)) as (Hr & Hp & Hrest).
  split; [exact Hr|]. split; [exact (eq_trans Hp eq_refl)|].
  destruct (Hrest 0 0 ltac:(simpl; lia) ltac:(simpl; lia) ltac:(discriminate)) as [Hr0 _].
  exact Hr0.
Defined.

(** *** Regions *)

Lemma for_each_ext_in {A S : Type} (body1 body2 : A -> S -> option (bool * S))
    (l : list A) (st : S) :
  (forall a s, a ∈ l -> body1 a s = body2 a s) ->
  for_each body1 l st = for_each body2 l st.
Proof.
  revert st. induction l as [|a l IH]; intros st E; simpl; [reflexivity|].
  rewrite E by left. destruct (body2 a st) as [[[] st']|]; auto.
  apply IH. intros b s Hb. apply E. right. exact Hb.
Qed.

Lemma elem_of_region (width height y x : Z) :
  (y, x) ∈ region width height -> 0 <= y < height /\ 0 <= x < width.
Proof.
  unfold region. intros H. apply list_elem_of_bind in H as (y' & H & Hy).
  apply list_elem_of_fmap in H as (x' & [= -> ->] & Hx).
  apply elem_of_seqZ in Hy, Hx. lia.
Qed.

(** X26.  For a region that starts inside the image or beyond it
    ([start_x] and [start_y] not negative) [UpdateRegion] does what
    [UpdatePixel] does when called for the pixels of the region in row-major
    order, each with the colour at [y * width + x] of [colors]; pixels for
    which [colors] is too short are skipped. *)
Theorem UpdateRegion_is_UpdatePixel_each (d : InteractiveDisplay)
    (start_x start_y width height : Z) (colors : list Vec3) :
  0 <= start_x -> 0 <= start_y ->
  InteractiveDisplay_UpdateRegion d start_x start_y width height colors
  = snd <$> for_each (UpdatePixel_of_region start_x start_y width colors)
              (region width height) d.
Proof.
  intros Hsx Hsy. unfold InteractiveDisplay_UpdateRegion, region. f_equal.
  rewrite <- for_each_bind. apply for_each_ext_in. intros y s Hy.
  rewrite <- for_each_fmap. apply for_each_ext_in. intros x s' Hx.
  apply elem_of_seqZ in Hy, Hx.
  unfold UpdateRegion_body, UpdatePixel_of_region, InteractiveDisplay_UpdatePixel.
  cbv zeta. cbn [fst snd].
  destruct (Z.ltb_spec (start_x + x) 0); [lia|].
  destruct (Z.ltb_spec (start_y + y) 0); [lia|].
  rewrite orb_false_r. cbn [orb].
  destruct (start_x + x >=? render_width s') eqn:Ex; cbn [orb].
  { destruct (colors !! Z.to_nat (y * width + x)); reflexivity. }
  destruct (start_y + y >=? render_height s') eqn:Ey; cbn [orb].
  { destruct (colors !! Z.to_nat (y * width + x)); reflexivity. }
  destruct (Z.ltb_spec (y * width + x) (Z.of_nat (length colors))) as [Hlt|Hge].
  - destruct (colors !! Z.to_nat (y * width + x)) as [color|] eqn:El; [reflexivity|].
    apply lookup_ge_None in El. nia.
  - rewrite (proj2 (lookup_ge_None colors (Z.to_nat (y * width + x)))); [reflexivity|].
    nia.
Qed.

Lemma UpdateRegion_is_UpdatePixel_each_witness :
  InteractiveDisplay_UpdateRegion display_2x1 1 0 2 1 [v3 4 1 0; v3 1 1 1]
  = snd <$> for_each (UpdatePixel_of_region 1 0 2 [v3 4 1 0; v3 1 1 1]) (region 2 1)
              display_2x1.
Proof.
  apply (UpdateRegion_is_UpdatePixel_each display_2x1 1 0 2 1 [v3 4 1 0; v3 1 1 1]); lia.
Defined.

(** X27.  [UpdateRegion] has no test for coordinates below zero.  A
    region that is not empty, is given a colour, and whose first pixel lies
    before the buffer ([start_y * render_width + start_x < 0], as with
    [start_y = 0] and [start_x < 0]) makes it store outside the buffers,
    where [UpdatePixel] for that pixel leaves the display as it is. *)
Theorem UpdateRegion_negative_start (d : InteractiveDisplay)
    (start_x start_y width height : Z) (color : Vec3) (colors : list Vec3) :
  0 <= render_width d ->
  0 < width -> 0 < height ->
  start_x < render_width d -> start_y < render_height d ->
  start_y * render_width d + start_x < 0 ->
  InteractiveDisplay_UpdateRegion d start_x start_y width height (color :: colors) = None /\
  InteractiveDisplay_UpdatePixel d start_x start_y color = Some d.
Proof.
  intros Hrw Hw Hh Hx Hy Hneg. split.
  - unfold InteractiveDisplay_UpdateRegion.
    rewrite (seqZ_cons 0 height) by lia. cbn [for_each].
    rewrite (seqZ_cons 0 width) by lia. cbn [for_each].
    unfold UpdateRegion_body at 1. cbv zeta.
    rewrite !Z.add_0_r, Z.mul_0_l. cbn [Z.add].
    destruct (Z.geb_spec start_x (render_width d)); [lia|].
    destruct (Z.geb_spec start_y (render_height d)); [lia|]. cbn [orb].
    change (0 <? Z.of_nat (length (color :: colors))) with true. cbv iota.
    change ((color :: colors) !! Z.to_nat 0) with (Some color).
    unfold set_display_pixel, vector_set.
    destruct (Z.leb_spec 0 (start_y * render_width d + start_x)); [lia|]. reflexivity.
  - unfold InteractiveDisplay_UpdatePixel.
    destruct (Z.ltb_spec start_x 0) as [|Hx0]; [reflexivity|].
    destruct (Z.ltb_spec start_y 0) as [|Hy0]; [rewrite orb_true_r; reflexivity|].
    nia.
Qed.

Lemma UpdateRegion_negative_start_witness :
  InteractiveDisplay_UpdateRegion display_2x1 (-1) 0 2 1 [v3 1 1 1] = None /\
  InteractiveDisplay_UpdatePixel display_2x1 (-1) 0 (v3 1 1 1) = Some display_2x1.
Proof.
  apply (UpdateRegion_negative_start display_2x1 (-1) 0 2 1 (v3 1 1 1) []); simpl; lia.
Defined.

(** *** Keys *)

(** X28.  What the keys do over any number of frames.  The stop flag is
    set from the first frame with ESC on and is never cleared; the pause
    flag and the two switches of the display change once for every frame in
    which P, S or C is seen pressed, so the pause flag ends as it started
    exactly when P was seen an even number of times.  No key other than P
    changes the pause flag: stopping a paused render leaves it paused. *)
Theorem HandleInput_over_frames (frames : list Keys) (c : Controls) :
  let c' := HandleInput_frames frames c in
  stop_rendering (flags c')
  = stop_rendering (flags c) || existsb KEY_ESCAPE frames /\
  pause_rendering (flags c')
  = xorb (pause_rendering (flags c)) (Nat.odd (length (List.filter KEY_P frames))) /\
  show_stats c' = xorb (show_stats c) (Nat.odd (length (List.filter KEY_S frames))) /\
  show_controls c'
  = xorb (show_controls c) (Nat.odd (length (List.filter KEY_C frames))).
Proof.
  cbv zeta. unfold HandleInput_frames. revert c.
  induction frames as [|[s cc p esc] frames IH]; intros c.
  - simpl. rewrite orb_false_r, !xorb_false_r. auto.
  - assert (Hodd : forall (f : Keys -> bool) k,
               Nat.odd (length (List.filter f (k :: frames)))
               = xorb (f k) (Nat.odd (length (List.filter f frames)))).
    { intros f k. cbn [List.filter]. destruct (f k); [|reflexivity].
      cbn [length]. rewrite Nat.odd_succ, <- Nat.negb_odd.
      destruct (Nat.odd _); reflexivity. }
    rewrite !Hodd. cbn [fold_left existsb KEY_S KEY_C KEY_P KEY_ESCAPE].
    destruct (IH (HandleInput (mkKeys s cc p esc) c)) as (-> & -> & -> & ->).
    generalize (Nat.odd (length (List.filter KEY_P frames))),
               (Nat.odd (length (List.filter KEY_S frames))),
               (Nat.odd (length (List.filter KEY_C frames))),
               (existsb KEY_ESCAPE frames).
    intros oP oS oC anyEsc.
    destruct c as [st ct [pa so]].
    destruct s, cc, p, esc, st, ct, pa, so, oP, oS, oC, anyEsc; repeat split; reflexivity.
Qed.

(** *** The worker and the display *)

(** A call for a pixel of the image stores the colour at the index of
    the pixel. *)
Lemma UpdatePixel_inside (d : InteractiveDisplay) (x y : Z) (color : Vec3) :
  display_ok d -> 0 <= x < render_width d -> 0 <= y < render_height d ->
  exists d',
    InteractiveDisplay_UpdatePixel d x y color = Some d' /\
    display_ok d' /\
    render_width d' = render_width d /\ render_height d' = render_height d /\
    render_buffer d' = <[Z.to_nat (y * render_width d + x) := color]> (render_buffer d).
Proof.
  intros Hok Hx Hy. unfold InteractiveDisplay_UpdatePixel.
  destruct (Z.ltb_spec x 0); [lia|]. destruct (Z.geb_spec x (render_width d)); [lia|].
  destruct (Z.ltb_spec y 0); [lia|]. destruct (Z.geb_spec y (render_height d)); [lia|].
  cbn [orb].
  assert (Hidx : 0 <= y * render_width d + x < render_width d * render_height d) by nia.
  destruct (set_display_pixel_defined d _ color Hok Hidx) as (c & _ & ->).
  eexists. split; [reflexivity|]. destruct Hok as (Hw & Hh & Hp & Hr).
  unfold display_ok. cbn [render_width render_height pixel_buffer render_buffer].
  rewrite !length_insert. auto 10.
Qed.

(** Calls for different pixels of the image: all are defined, and at the
    end the render buffer holds the colour of each call at its pixel. *)
Lemma UpdatePixel_calls_inside (nx : Z) (calls : list (RenderTile * Z * Z * Vec3)) :
  NoDup (pixel_index nx <$> calls.*1) ->
  forall d,
    display_ok d -> render_width d = nx ->
    Forall (fun call => 0 <= call.1.2 < nx /\ 0 <= call.1.1.2 < render_height d) calls ->
    UpdatePixel_calls calls d = Some (shown UpdatePixel_call d calls) /\
    display_ok (shown UpdatePixel_call d calls) /\
    render_width (shown UpdatePixel_call d calls) = nx /\
    render_height (shown UpdatePixel_call d calls) = render_height d /\
    (forall k, k ∉ pixel_index nx <$> calls.*1 -> 0 <= k ->
       render_buffer (shown UpdatePixel_call d calls) !! Z.to_nat k
       = render_buffer d !! Z.to_nat k) /\
    Forall (fun call =>
              render_buffer (shown UpdatePixel_call d calls)
                !! Z.to_nat (pixel_index nx call.1) = Some call.2) calls.
Proof.
  induction calls as [|[[[t j] i] col] calls IH]; intros Hnd d Hok Hrw Hin.
  - destruct Hok as (? & ? & ? & ?).
    cbn [shown fold_left UpdatePixel_calls].
    repeat split; auto; try lia.
  - rewrite !fmap_cons in Hnd. cbn [fst] in Hnd.
    apply NoDup_cons in Hnd as [Hnotin Hnd].
    apply Forall_cons in Hin as [[Hi Hj] Hin]. cbn [fst snd] in Hi, Hj.
    destruct (UpdatePixel_inside d i j col Hok ltac:(lia) Hj)
      as (d1 & Hcall & Hok1 & Hrw1 & Hrh1 & Hrb1).
    assert (Hstep : shown UpdatePixel_call d ((t, j, i, col) :: calls)
                    = shown UpdatePixel_call d1 calls).
    { unfold shown. cbn [fold_left]. unfold UpdatePixel_call at 2. rewrite Hcall.
      reflexivity. }
    rewrite Hstep. cbn [UpdatePixel_calls]. rewrite Hcall.
    rewrite <- Hrh1 in Hin.
    destruct (IH Hnd d1 Hok1 ltac:(lia) Hin) as (Hdef & Hok' & Hrw' & Hrh' & Hframe & Hall).
    split; [exact Hdef|]. split; [exact Hok'|]. split; [exact Hrw'|].
    split; [lia|]. split; [|apply Forall_cons; split; [|exact Hall]].
    + intros k Hk Hk0. rewrite !fmap_cons in Hk. cbn [fst] in Hk.
      apply not_elem_of_cons in Hk as [Hne Hk].
      rewrite (Hframe k Hk Hk0), Hrb1. apply list_lookup_insert_ne.
      cbn [pixel_index] in Hne. rewrite Hrw. nia.
    + cbn [fst snd]. destruct Hok as (Hw & Hh & Hp & Hr).
      assert (H0 : 0 <= pixel_index nx (t, j, i)) by (cbn [pixel_index]; nia).
      rewrite (Hframe _ Hnotin H0), Hrb1. cbn [pixel_index]. rewrite Hrw.
      apply list_lookup_insert_eq. nia.
Qed.

(** X29.  The display mirrors the buffer.  A display made for the image
    ([nx] by [ny], buffers of that size) and a tile inside the image: when
    [render_tile_progressive] ends, finished or stopped, every call of
    [UpdatePixel] it made was defined, the buffers of the display still
    have their size, and for every pixel processed the render buffer of the
    display holds the colour the pixel buffer holds. *)
Theorem progressive_display_mirrors_buffer (RandState : Type)
    (std_rand : RandState -> Z * RandState) (RAND_MAX : Z) (u : HitRecord)
    (control : nat -> Flags) (fuel : nat) (nx ny : Z) (camera : Camera)
    (world : Hittable) (tile : RenderTile)
    (w w' : Worker RandState InteractiveDisplay) (b : bool) :
  display_ok (display w) ->
  render_width (display w) = nx -> render_height (display w) = ny ->
  0 <= x_start tile -> x_start tile + width tile <= nx ->
  0 <= y_start tile -> y_start tile + height tile <= ny ->
  render_tile_progressive RandState std_rand RAND_MAX u InteractiveDisplay
    UpdatePixel_call control fuel tile nx ny camera world w = Some (b, w') ->
  exists done rest cols,
    jobs_of_tile tile = done ++ rest /\
    (b = false -> rest = []) /\
    UpdatePixel_calls (zip done cols) (display w) = Some (display w') /\
    display_ok (display w') /\
    Forall (fun job =>
              is_Some (pixels w' !! Z.to_nat (pixel_index nx job)) /\
              render_buffer (display w') !! Z.to_nat (pixel_index nx job)
              = pixels w' !! Z.to_nat (pixel_index nx job)) done.
Proof.
  intros Hok Hrw Hrh Hx Hw Hy Hh H.
  destruct (progressive_calls _ _ _ _ _ _ _ _ _ _ _ _ _ _ _ _ Hx Hw H)
    as (done & rest & cols & Hjobs & Hrest & Hall & Hshown).
  pose proof (NoDup_pixel_index_tile nx tile Hx Hw) as Hnd.
  rewrite Hjobs, fmap_app in Hnd. apply NoDup_app in Hnd as (Hnd & _ & _).
  pose proof (Forall2_length _ _ _ Hall) as Hlen.
  assert (Hfst : (zip done cols).*1 = done) by (apply fst_zip; lia).
  destruct (UpdatePixel_calls_inside nx (zip done cols) ltac:(rewrite Hfst; exact Hnd)
              (display w) Hok Hrw) as (Hdef & Hok' & _ & _ & _ & Hmirror).
  { apply Forall_forall. intros [[[t j] i] col] Hin. cbn [fst snd].
    assert (Hjob : (t, j, i) ∈ jobs_of_tile tile).
    { rewrite Hjobs. apply elem_of_app. left. rewrite <- Hfst.
      apply list_elem_of_fmap. exists (t, j, i, col). split; [reflexivity | exact Hin]. }
    apply elem_of_jobs_of_tile in Hjob as [_ Hjob]. unfold in_tile in Hjob.
    repeat (apply andb_prop in Hjob as [Hjob ?]). lia. }
  exists done, rest, cols. split; [exact Hjobs|].
  split; [intros ->; exact Hrest|].
  rewrite Hshown. split; [exact Hdef|]. split; [exact Hok'|].
  apply Forall_forall. intros job Hjob.
  apply list_elem_of_lookup in Hjob as [n Hn].
  destruct (Forall2_lookup_l _ _ _ _ _ Hall Hn) as (col & Hcol & Hpix).
  rewrite Forall_forall in Hmirror.
  specialize (Hmirror (job, col)). cbn [fst snd] in Hmirror.
  rewrite Hpix. split; [eauto|]. apply Hmirror.
  apply list_elem_of_lookup. exists n. apply lookup_zip_with_Some. eauto.
Qed.

(** A tile of two pixels in a 2 by 1 image shown on a 2 by 1 display; the
    stop flag is seen at the test before the second pixel. *)
Lemma progressive_display_mirrors_buffer_witness :
  exists (b : bool) (w' : Worker unit InteractiveDisplay),
    render_tile_progressive unit rand_half 32767 rec0 InteractiveDisplay UpdatePixel_call
      stop_at_fourth_load 1 (mkRenderTile 0 0 2 1 1) 2 1 camera0 empty_world
      (display_worker 2) = Some (b, w') /\
    exists done rest cols,
      jobs_of_tile (mkRenderTile 0 0 2 1 1) = done ++ rest /\
      (b = false -> rest = []) /\
      UpdatePixel_calls (zip done cols) display_2x1 = Some (display w') /\
      display_ok (display w') /\
      Forall (fun job =>
                is_Some (pixels w' !! Z.to_nat (pixel_index 2 job)) /\
                render_buffer (display w') !! Z.to_nat (pixel_index 2 job)
                = pixels w' !! Z.to_nat (pixel_index 2 job)) done.
Proof.
  destruct (render_tile_progressive unit rand_half 32767 rec0 InteractiveDisplay
              UpdatePixel_call stop_at_fourth_load 1 (mkRenderTile 0 0 2 1 1) 2 1 camera0
              empty_world (display_worker 2))
    as [[b w']|] eqn:E; [|vm_compute in E; discriminate E].
  exists b, w'. split; [reflexivity|].
  apply (progressive_display_mirrors_buffer unit rand_half 32767 rec0 stop_at_fourth_load
           1 2 1 camera0 empty_world (mkRenderTile 0 0 2 1 1) (display_worker 2) w' b).
  - unfold display_ok. simpl. lia.
  - reflexivity.
  - reflexivity.
  - simpl. lia.
  - simpl. lia.
  - simpl. lia.
  - simpl. lia.
  - exact E.
Defined.

(** ** Vec3 *)

Lemma F32_mul_comm (x y : float) : (x * y)%f32 = (y * x)%f32.
Proof.
  unfold F32.mul.
  destruct x as [sx|sx| |sx mx ex], y as [sy|sy| |sy my ey]; simpl;
    try reflexivity; try (rewrite xorb_comm; reflexivity).
  rewrite xorb_comm, Pos.mul_comm, Z.add_comm. reflexivity.
Qed.

Lemma F32_add_comm (x y : float) : (x + y)%f32 = (y + x)%f32.
Proof.
  unfold F32.add.
  destruct x as [sx|sx| |sx mx ex], y as [sy|sy| |sy my ey]; simpl;
    try reflexivity; try (destruct sx, sy; reflexivity).
  rewrite Z.min_comm, Z.add_comm. reflexivity.
Qed.

Lemma F32_sub_add_neg (x y : float) : (x - y)%f32 = (x + - y)%f32.
Proof.
  unfold F32.sub, F32.add, F32.neg.
  destruct x as [sx|sx| |sx mx ex], y as [sy|sy| |sy my ey]; simpl;
    try reflexivity; try (destruct sx, sy; reflexivity).
Qed.

Lemma F32_neg_neg (x : float) : (- - x)%f32 = x.
Proof. destruct x as [s|s| |s m e]; simpl; try rewrite negb_involutive; reflexivity. Qed.

Lemma F32_mul_neg_both (x y : float) : (- x * - y)%f32 = (x * y)%f32.
Proof.
  unfold F32.mul, F32.neg.
  destruct x as [sx|sx| |sx mx ex], y as [sy|sy| |sy my ey]; simpl;
    try reflexivity; destruct sx, sy; reflexivity.
Qed.

(** X16.  The algebra of [Vec3] that holds exactly in binary32, for
    all values, NaN and infinities included: the sum, the component-wise
    product and [Dot] do not depend on the order of their arguments, the
    two scalar products [k * v] and [v * k] agree, a difference is the sum
    with the negated vector, negation undoes itself, and negating both
    arguments leaves [Dot] and the lengths as they are. *)
Theorem Vec3_exact_algebra (a b : Vec3) (k : float) :
  (a + b = b + a)%v3 /\
  (a * b = b * a)%v3 /\
  Dot a b = Dot b a /\
  (k *^ a)%v3 = vmuls a k /\
  (a - b = a + - b)%v3 /\
  (- - a = a)%v3 /\
  Dot (- a) (- b) = Dot a b /\
  SquaredLength (- a) = SquaredLength a /\
  Length (- a) = Length a.
Proof.
  destruct a as [ax ay az], b as [bx byy bz].
  unfold vadd, vmul, Dot, smul, vmuls, vsub, vneg, SquaredLength, Length.
  cbn [GetX GetY GetZ].
  repeat split.
  - rewrite (F32_add_comm ax), (F32_add_comm ay), (F32_add_comm az). reflexivity.
  - rewrite (F32_mul_comm ax), (F32_mul_comm ay), (F32_mul_comm az). reflexivity.
  - rewrite (F32_mul_comm ax), (F32_mul_comm ay), (F32_mul_comm az). reflexivity.
  - rewrite (F32_mul_comm k ax), (F32_mul_comm k ay), (F32_mul_comm k az). reflexivity.
  - rewrite !F32_sub_add_neg. reflexivity.
  - rewrite !F32_neg_neg. reflexivity.
  - rewrite !F32_mul_neg_both. reflexivity.
  - rewrite !F32_mul_neg_both. reflexivity.
  - rewrite !F32_mul_neg_both. reflexivity.
Qed.

(** ** ThreadPool *)

Lemma worker_sections_from {Task : Type} (n : nat) :
  forall p : ThreadPool Task,
    (next_task p <= length (tasks p))%nat ->
    worker_sections n p
    = Some ((Runs <$> take n (drop (next_task p) (tasks p)))
              ++ replicate (n - (length (tasks p) - next_task p))
                   (if stop p then Returns else Waits),
            mkThreadPool (tasks p) (Nat.min (next_task p + n) (length (tasks p))) (stop p)).
Proof.
  induction n as [|n IH]; intros [l k s] Hk; cbn [tasks next_task stop worker_sections] in *.
  - rewrite Nat.add_0_r, Nat.min_l by lia. reflexivity.
  - unfold worker_section. cbn [tasks next_task stop].
    destruct (decide (k < length l)%nat) as [Hlt|Hge].
    + destruct (lookup_lt_is_Some_2 l k Hlt) as [task Htask].
      rewrite Htask.
      replace (k <? length l)%nat with true by (symmetry; apply Nat.ltb_lt; lia).
      replace (length l <=? k)%nat with false by (symmetry; apply Nat.leb_gt; lia).
      rewrite orb_true_r, andb_false_r.
      rewrite (IH (mkThreadPool l (S k) s)) by (simpl; lia). cbn [tasks next_task stop].
      rewrite (drop_S l task k Htask).
      change (take (S n) (task :: drop (S k) l)) with (task :: take n (drop (S k) l)).
      rewrite fmap_cons, <- app_comm_cons.
      replace (n - (length l - S k))%nat with (S n - (length l - k))%nat by lia.
      replace (S k + n)%nat with (k + S n)%nat by lia. reflexivity.
    + assert (k = length l) by lia. subst k.
      rewrite Nat.ltb_irrefl, Nat.leb_refl, orb_false_r, andb_true_r.
      rewrite drop_all, Nat.sub_diag, Nat.sub_0_r, take_nil, fmap_nil, app_nil_l.
      rewrite Nat.min_r by lia. cbn [replicate].
      destruct s.
      * rewrite (IH (mkThreadPool l (length l) true)) by (simpl; lia).
        cbn [tasks next_task stop].
        rewrite drop_all, Nat.sub_diag, Nat.sub_0_r, take_nil, fmap_nil, app_nil_l.
        rewrite Nat.min_r by lia. reflexivity.
      * rewrite (IH (mkThreadPool l (length l) false)) by (simpl; lia).
        cbn [tasks next_task stop].
        rewrite drop_all, Nat.sub_diag, Nat.sub_0_r, take_nil, fmap_nil, app_nil_l.
        rewrite Nat.min_r by lia. reflexivity.
Qed.

(** X17.  The queue of the thread pool.  After [enqueue_tasks] the
    workers' critical sections, in whatever order the threads enter them,
    hand out the tasks of the list one by one in the order of the list, each
    exactly once and with an index inside the vector; every section after
    the last task finds the worker waiting, or returning when the pool is
    being destroyed, in which case the tasks still queued are handed out
    first.  The test of [wait_all] succeeds from the section that hands out
    the last task on, whether that task has run or not. *)
Theorem ThreadPool_hands_out_each_task_once (Task : Type) (p : ThreadPool Task)
    (task_list : list Task) (n : nat) :
  worker_sections n (enqueue_tasks p task_list)
  = Some ((Runs <$> take n task_list)
            ++ replicate (n - length task_list) (if stop p then Returns else Waits),
          mkThreadPool task_list (Nat.min n (length task_list)) (stop p)) /\
  (forall q ts, worker_sections n (enqueue_tasks p task_list) = Some (ts, q) ->
     wait_all_done q = (length task_list <=? n)%nat) /\
  worker_sections n (ThreadPool_destroy (enqueue_tasks p task_list))
  = Some ((Runs <$> take n task_list) ++ replicate (n - length task_list) Returns,
          mkThreadPool task_list (Nat.min n (length task_list)) true).
Proof.
  assert (H : worker_sections n (enqueue_tasks p task_list)
              = Some ((Runs <$> take n task_list)
                        ++ replicate (n - length task_list)
                             (if stop p then Returns else Waits),
                      mkThreadPool task_list (Nat.min n (length task_list)) (stop p))).
  { rewrite worker_sections_from by (simpl; lia). unfold enqueue_tasks.
    cbn [tasks next_task stop]. rewrite drop_0, Nat.sub_0_r. reflexivity. }
  split; [exact H|]. split.
  - intros q ts Hq. rewrite H in Hq. injection Hq as _ <-.
    unfold wait_all_done. cbn [tasks next_task].
    destruct (length task_list <=? n)%nat eqn:E.
    + apply Nat.leb_le in E. rewrite Nat.min_r by lia. apply Nat.leb_refl.
    + apply Nat.leb_gt in E. rewrite Nat.min_l by lia. apply Nat.leb_gt. lia.
  - rewrite worker_sections_from by (simpl; lia). unfold ThreadPool_destroy, enqueue_tasks.
    cbn [tasks next_task stop]. rewrite drop_0, Nat.sub_0_r. reflexivity.
Qed.

(** ** The scene builders *)

Lemma scene_ok_weaken {S : Type} (size k k' : Z) (s : list (option Hittable) * Z * S) :
  scene_ok size k s -> k <= k' -> scene_ok size k' s.
Proof. destruct s as [[lst i] st]. unfold scene_ok. intros (? & ? & ?) ?. repeat split; auto; lia. Qed.

(** A store at [i] inside the array succeeds and keeps the state sound. *)
Lemma array_set_ok {S : Type} (size k : Z) (lst : list (option Hittable)) (i : Z)
    (st st' : S) (h : Hittable) :
  scene_ok size k (lst, i, st) -> i < size ->
  exists lst', array_set lst i h = Some lst' /\ scene_ok size (i + 1) (lst', i + 1, st').
Proof.
  unfold scene_ok, array_set. intros (Hlen & Hi & Hset) Hlt.
  exists (<[Z.to_nat i := Some h]> lst). split.
  - destruct ((0 <=? i) && (i <? Z.of_nat (length lst))) eqn:E; [reflexivity|].
    apply andb_false_iff in E as [E|E]; lia.
  - rewrite length_insert. split; [exact Hlen|]. split; [lia|].
    intros j Hj. destruct (decide (j = Z.to_nat i)) as [->|Hne].
    + exists h. apply list_lookup_insert_eq. lia.
    + rewrite list_lookup_insert_ne by auto. apply Hset. lia.
Qed.

(** A store at or beyond the end of the array is undefined. *)
Lemma array_set_outside (lst : list (option Hittable)) (i : Z) (h : Hittable) :
  Z.of_nat (length lst) <= i -> array_set lst i h = None.
Proof.
  unfold array_set. intros H.
  destruct ((0 <=? i) && (i <? Z.of_nat (length lst))) eqn:E; [|reflexivity].
  apply andb_prop in E as [_ E]. lia.
Qed.

Lemma array_set_length (lst lst' : list (option Hittable)) (i : Z) (h : Hittable) :
  array_set lst i h = Some lst' -> length lst' = length lst.
Proof.
  unfold array_set. destruct (_ && _); [|discriminate].
  intros [= <-]. apply length_insert.
Qed.

Lemma HittableList_new_ok {S : Type} (size k : Z) (lst : list (option Hittable)) (i : Z)
    (st : S) :
  scene_ok size k (lst, i, st) ->
  exists l, HittableList_new lst i = Some (HList l) /\ Z.of_nat (length l) = i.
Proof.
  unfold scene_ok, HittableList_new. intros (Hlen & Hi & Hset).
  assert (Hin : (Z.to_nat i <= length lst)%nat).
  { destruct (Hset (Z.to_nat i - 1)%nat ltac:(lia)) as [h Hh].
    apply lookup_lt_Some in Hh. lia. }
  destruct (mapM id (take (Z.to_nat i) lst)) as [l|] eqn:E.
  - exists l. split; [reflexivity|].
    apply length_mapM in E. rewrite length_take in E. lia.
  - exfalso. apply eq_None_not_Some in E. apply E. apply mapM_is_Some.
    apply Forall_forall. intros x Hx. apply list_elem_of_lookup in Hx as [j Hj].
    apply lookup_take_Some in Hj as [Hj Hlt].
    destruct (Hset j Hlt) as [h Hh]. rewrite Hh in Hj. injection Hj as <-.
    simpl. eauto.
Qed.

(** The end of a builder: defined exactly when the three stores fit. *)
Lemma finish_scene_ok {S : Type} (size k : Z) (lst : list (option Hittable)) (i : Z)
    (st : S) :
  scene_ok size k (lst, i, st) ->
  (i + 3 <= size ->
   exists l, finish_scene lst i = Some (HList l) /\ Z.of_nat (length l) = i + 3) /\
  (size < i + 3 -> finish_scene lst i = None).
Proof.
  intros Hok. split.
  - intros Hfit. unfold finish_scene.
    destruct (array_set_ok size k lst i st st big_glass_sphere Hok ltac:(lia))
      as (l1 & -> & H1).
    destruct (array_set_ok size _ l1 (i + 1) st st big_matte_sphere H1 ltac:(lia))
      as (l2 & -> & H2).
    destruct (array_set_ok size _ l2 (i + 1 + 1) st st big_metal_sphere H2 ltac:(lia))
      as (l3 & H3' & H3).
    replace (i + 1 + 1) with (i + 2) in * by lia. rewrite H3'.
    replace (i + 2 + 1) with (i + 3) in * by lia.
    exact (HittableList_new_ok size _ l3 (i + 3) st H3).
  - intros Hover. unfold finish_scene.
    pose proof Hok as (Hlen & _ & _).
    destruct (array_set lst i big_glass_sphere) as [l1|] eqn:E1; [|reflexivity].
    apply array_set_length in E1.
    destruct (array_set l1 (i + 1) big_matte_sphere) as [l2|] eqn:E2; [|reflexivity].
    apply array_set_length in E2.
    rewrite array_set_outside; [reflexivity | lia].
Qed.

(** A loop whose body keeps an invariant keeps it. *)
Lemma for_each_invariant {A S : Type} (I : S -> Prop)
    (body : A -> S -> option (bool * S)) (l : list A) :
  (forall a s, I s -> exists b s', body a s = Some (b, s') /\ I s') ->
  forall s, I s -> exists b s', for_each body l s = Some (b, s') /\ I s'.
Proof.
  intros Hbody. induction l as [|a l IH]; intros s Hs; simpl; [eauto|].
  destruct (Hbody a s Hs) as (b & s' & -> & Hs').
  destruct b; [eauto | apply IH; exact Hs'].
Qed.

(** The same with an invariant that counts the iterations. *)
Lemma for_each_counting {A S : Type} (I : Z -> S -> Prop) (d K : Z)
    (body : A -> S -> option (bool * S)) (l : list A) :
  0 <= d ->
  (forall k k' s, I k s -> k <= k' -> I k' s) ->
  (forall a k s, I k s -> k + d <= K -> exists b s', body a s = Some (b, s') /\ I (k + d) s') ->
  forall k s, I k s -> k + d * Z.of_nat (length l) <= K ->
    exists b s', for_each body l s = Some (b, s') /\ I (k + d * Z.of_nat (length l)) s'.
Proof.
  intros Hd Hmono Hbody. induction l as [|a l IH]; intros k s Hs HK; cbn [for_each].
  - exists false, s. split; [reflexivity|]. eapply Hmono; [exact Hs | simpl; lia].
  - rewrite length_cons in HK |- *.
    destruct (Hbody a k s Hs ltac:(nia)) as (b & s' & -> & Hs').
    destruct b.
    + exists true, s'. split; [reflexivity|]. eapply Hmono; [exact Hs' | nia].
    + destruct (IH (k + d) s' Hs' ltac:(nia)) as (b' & s'' & -> & Hs'').
      exists b', s''. split; [reflexivity|].
      eapply Hmono; [exact Hs'' | nia].
Qed.

Lemma CreateOptimizedScene_body_ok (a b : Z) (s : list (option Hittable) * Z * Z) :
  scene_ok 51 50 s ->
  exists r s', CreateOptimizedScene_body 50 a b s = Some (r, s') /\ scene_ok 51 50 s'.
Proof.
  destruct s as [[lst i] st]. intros Hok. unfold CreateOptimizedScene_body.
  destruct (i >=? 50) eqn:Hi; [eauto|].
  repeat match goal with
  | |- context [FastRandom_random ?x] =>
      let r := fresh "r" in let t := fresh "t" in
      destruct (FastRandom_random x) as [r t]
  end.
  assert (Hstore : forall (h : Hittable) (t' : Z),
            exists lst', array_set lst i h = Some lst' /\ scene_ok 51 50 (lst', i + 1, t')).
  { intros h t'. destruct (array_set_ok 51 50 lst i st t' h Hok ltac:(lia)) as (l' & E & H).
    exists l'. split; [exact E|]. eapply scene_ok_weaken; [exact H | lia]. }
  assert (Hkeep : forall t' : Z, scene_ok 51 50 (lst, i, t')) by (intros t'; exact Hok).
  repeat match goal with
  | |- context [if ?c then _ else _] => destruct c
  end;
  try (match goal with
       | |- context [match array_set lst i ?h with _ => _ end] =>
           match goal with
           | |- context [Some (false, (_, _, ?t'))] =>
               destruct (Hstore h t') as (l' & -> & H)
           end
       end);
  eauto.
Qed.

Lemma CreateOptimizedScene_loops_ok (s : list (option Hittable) * Z * Z) :
  scene_ok 51 50 s ->
  exists r s', CreateOptimizedScene_loops 50 s = Some (r, s') /\ scene_ok 51 50 s'.
Proof.
  unfold CreateOptimizedScene_loops.
  apply (for_each_invariant (scene_ok 51 50)). clear s. intros a s Hs.
  destruct (for_each_invariant (scene_ok 51 50) (CreateOptimizedScene_body 50 a)
              (seqZ (-5) 10) (CreateOptimizedScene_body_ok a) s Hs)
    as (r & s' & -> & Hs').
  eauto.
Qed.

Lemma first_store_ok {S : Type} (n : Z) (st : S) :
  0 < n ->
  exists lst, array_set (new_array n) 0 ground_sphere = Some lst /\
              scene_ok n 1 (lst, 1, st).
Proof.
  intros Hn. unfold array_set, new_array. rewrite length_replicate.
  replace ((0 <=? 0) && (0 <? Z.of_nat (Z.to_nat n))) with true
    by (symmetry; apply andb_true_intro; split; [apply Z.leb_le | apply Z.ltb_lt]; lia).
  eexists. split; [reflexivity|]. unfold scene_ok.
  rewrite length_insert, length_replicate. split; [lia|]. split; [lia|].
  intros j Hj. assert (j = 0%nat) as -> by lia.
  exists ground_sphere. apply list_lookup_insert_eq. rewrite length_replicate. lia.
Qed.

(** X19.  [CreateOptimizedScene] allocates [n + 1 = 51] entries and
    fills them through two loops that stop at [i = n = 50].  The stores of
    the loops are always inside the array; the three stores after the loops
    go to [i], [i + 1] and [i + 2], so they fit exactly when the loops ended
    with [i <= 48], that is with at most 47 small spheres, and the scene
    then has [i + 3] members.  From the state 1 in which [FastRandom]
    starts the loops end with [i = 50], and the last two stores fall
    outside the array. *)
Theorem CreateOptimizedScene_overruns_its_array (st : Z) :
  (exists (lst0 lst : list (option Hittable)) (i st' : Z) (b : bool),
     array_set (new_array 51) 0 ground_sphere = Some lst0 /\
     CreateOptimizedScene_loops 50 (lst0, 1, st) = Some (b, (lst, i, st')) /\
     length lst = 51%nat /\ 1 <= i <= 50 /\
     (49 <= i -> CreateOptimizedScene st = None) /\
     (i <= 48 ->
      exists l, CreateOptimizedScene st = Some (HList l, st') /\
                Z.of_nat (length l) = i + 3)) /\
  CreateOptimizedScene 1 = None.
Proof.
  split; [|vm_compute; reflexivity].
  destruct (first_store_ok 51 st ltac:(lia)) as (lst0 & E0 & H0).
  destruct (CreateOptimizedScene_loops_ok (lst0, 1, st)) as (b & [[lst i] st'] & El & Hl).
  { eapply scene_ok_weaken; [exact H0 | lia]. }
  exists lst0, lst, i, st', b. split; [exact E0|]. split; [exact El|].
  pose proof Hl as (Hlen & Hi & _). split; [lia|]. split; [exact Hi|].
  destruct (finish_scene_ok 51 50 lst i st' Hl) as [Hfit Hover].
  unfold CreateOptimizedScene. cbv zeta. change (50 + 1) with 51. rewrite E0, El. split.
  - intros H. rewrite Hover by lia. reflexivity.
  - intros H. destruct (Hfit ltac:(lia)) as (l & -> & Hlenl). eauto.
Qed.

Section RandomSceneProofs.

Variable RandState : Type.
Variable std_rand : RandState -> Z * RandState.
Variable RAND_MAX : Z.

Lemma RandomScene_body_ok (a b k : Z) (s : list (option Hittable) * Z * RandState) :
  scene_ok 501 k s -> k + 1 <= 500 ->
  exists r s', RandomScene_body RandState std_rand RAND_MAX a b s = Some (r, s') /\
               scene_ok 501 (k + 1) s'.
Proof.
  destruct s as [[lst i] st]. intros Hok Hk. unfold RandomScene_body.
  pose proof Hok as (_ & Hi & _).
  repeat match goal with
  | |- context [rand01 _ _ _ ?x] =>
      let r := fresh "d" in let t := fresh "t" in
      destruct (rand01 RandState std_rand RAND_MAX x) as [r t]
  end.
  assert (Hstore : forall (h : Hittable) (t' : RandState),
            exists lst', array_set lst i h = Some lst' /\
                         scene_ok 501 (k + 1) (lst', i + 1, t')).
  { intros h t'. destruct (array_set_ok 501 k lst i st t' h Hok ltac:(lia)) as (l' & E & H).
    exists l'. split; [exact E|]. eapply scene_ok_weaken; [exact H | lia]. }
  assert (Hkeep : forall t' : RandState, scene_ok 501 (k + 1) (lst, i, t')).
  { intros t'. apply (scene_ok_weaken 501 k); [exact Hok | lia]. }
  repeat match goal with
  | |- context [if ?c then _ else _] => destruct c
  end;
  try (match goal with
       | |- context [match array_set lst i ?h with _ => _ end] =>
           match goal with
           | |- context [Some (false, (_, _, ?t'))] =>
               destruct (Hstore h t') as (l' & -> & H)
           end
       end);
  eauto.
Qed.

End RandomSceneProofs.

(** X20.  [RandomScene] allocates 501 entries and stores at most
    [1 + 22 * 22 + 3 = 488]: whatever [std::rand] returns, every store is
    inside the array, every entry handed to the aggregate has been stored,
    and the scene has between 4 and 488 members. *)
Theorem RandomScene_stays_in_its_array (RandState : Type)
    (std_rand : RandState -> Z * RandState) (RAND_MAX : Z) (st : RandState) :
  exists (l : list Hittable) (st' : RandState),
    RandomScene RandState std_rand RAND_MAX st = Some (HList l, st') /\
    (4 <= length l <= 488)%nat.
Proof.
  destruct (first_store_ok 501 st ltac:(lia)) as (lst0 & E0 & H0).
  assert (Hinner : forall a k s,
            scene_ok 501 k s -> k + 22 <= 500 ->
            exists r s',
              for_each (RandomScene_body RandState std_rand RAND_MAX a) (seqZ (-11) 22) s
              = Some (r, s') /\ scene_ok 501 (k + 22) s').
  { intros a k s Hs Hk.
    destruct (for_each_counting (scene_ok 501) 1 500
                (RandomScene_body RandState std_rand RAND_MAX a) (seqZ (-11) 22)
                ltac:(lia) (scene_ok_weaken 501)
                (fun b k s H Hk => RandomScene_body_ok RandState std_rand RAND_MAX a b k s H Hk)
                k s Hs)
      as (r & s' & E & Hs').
    - rewrite length_seqZ. lia.
    - rewrite length_seqZ in Hs'. exists r, s'. split; [exact E|].
      eapply scene_ok_weaken; [exact Hs' | lia]. }
  destruct (for_each_counting (scene_ok 501) 22 500
              (fun a => for_each (RandomScene_body RandState std_rand RAND_MAX a)
                          (seqZ (-11) 22))
              (seqZ (-11) 22) ltac:(lia) (scene_ok_weaken 501) Hinner 1 (lst0, 1, st) H0)
    as (r & [[lst i] st'] & El & Hl).
  { rewrite length_seqZ. lia. }
  rewrite length_seqZ in Hl.
  pose proof Hl as (_ & Hi & _).
  destruct (finish_scene_ok 501 _ lst i st' Hl) as [Hfit _].
  destruct (Hfit ltac:(lia)) as (l & Ef & Hlen).
  exists l, st'. unfold RandomScene. cbv zeta. change (500 + 1) with 501.
  rewrite E0, El, Ef. split; [reflexivity | lia].
Qed.
